(** * A shallow embedding of the mocketd host runtime (src/src/main.rs,
      src/src/nodehttp.rs) and proofs about its message codec, its
      request handler, its response registry and its dispatcher.

    Conventions.
    - Text is a list of Unicode scalar values (a Rust [String] as the
      sequence of its [char]s), each a [Z]; bytes are [Z] in [0, 255];
      UTF-16 code units are [Z] in [0, 65535].
    - [serde_json::Value] is [Value] below; a JSON object is serde_json's
      default [Map] (a [BTreeMap<String, Value>]), represented as the list of
      its entries in increasing key order.  Numbers are serde_json's
      [u64] and [i64] integers and its [f64] floats; an [f64] is a
      [spec_float] of the Standard Library (53-bit precision, maximal
      exponent 1024), whose arithmetic rounds to nearest, ties to even. *)

From Stdlib Require Import ZArith Lia List Bool.
From Stdlib Require Import Floats.SpecFloat.
Set Warnings "-register-all".
From stdpp Require Import base gmap list strings.
Import ListNotations.
Open Scope Z_scope.

(** Code points of an ASCII literal. *)
Definition lit (s : string) : list Z :=
  map (fun a => Z.of_nat (Ascii.nat_of_ascii a)) (String.list_ascii_of_string s).

(* ------------------------------------------------------------------ *)
(** ** serde_json values *)

Inductive Value : Type :=
| VNull
| VBool (b : bool)
| VNumber (n : Z)
| VFloat (f : spec_float)
| VString (s : list Z)
| VArray (l : list Value)
| VObject (m : list (list Z * Value)).

(** Ordering of [String] keys in a [BTreeMap]: byte-wise lexicographic
    order of UTF-8, which is the lexicographic order of code points. *)
Fixpoint str_cmp (a b : list Z) : comparison :=
  match a, b with
  | [], [] => Eq
  | [], _ :: _ => Lt
  | _ :: _, [] => Gt
  | x :: a', y :: b' =>
      match Z.compare x y with
      | Eq => str_cmp a' b'
      | c => c
      end
  end.

(** [BTreeMap::insert]: a present key has its value replaced. *)
Fixpoint map_insert (k : list Z) (v : Value) (m : list (list Z * Value))
  : list (list Z * Value) :=
  match m with
  | [] => [(k, v)]
  | (k', v') :: m' =>
      match str_cmp k k' with
      | Lt => (k, v) :: m
      | Eq => (k, v) :: m'
      | Gt => (k', v') :: map_insert k v m'
      end
  end.

(* ------------------------------------------------------------------ *)
(** ** serde_json::to_string (compact formatter) *)

Definition hex_lower (d : Z) : Z := if d <? 10 then 48 + d else 87 + d.

(** serde_json's ESCAPE table: quote, backslash and the control
    characters below 0x20 are escaped, everything else is written as is. *)
Definition escape_char (c : Z) : list Z :=
  if c =? 34 then [92; 34]
  else if c =? 92 then [92; 92]
  else if c =? 8 then [92; 98]
  else if c =? 12 then [92; 102]
  else if c =? 10 then [92; 110]
  else if c =? 13 then [92; 114]
  else if c =? 9 then [92; 116]
  else if c <? 32 then [92; 117; 48; 48; hex_lower (c / 16); hex_lower (c mod 16)]
  else [c].

Definition format_escaped_str (s : list Z) : list Z :=
  34 :: flat_map escape_char s ++ [34].

(** Decimal digits of a non-negative integer below [10 ^ fuel] (itoa). *)
Fixpoint dec_digits (fuel : nat) (n : Z) : list Z :=
  match fuel with
  | O => []
  | S f => if n <? 10 then [48 + n] else dec_digits f (n / 10) ++ [48 + n mod 10]
  end.

Definition itoa (n : Z) : list Z :=
  if n <? 0 then 45 :: dec_digits 20 (- n) else dec_digits 20 n.

(** An [f64]: precision 53 bits, maximal exponent 1024. *)
Definition f64_prec : Z := 53.
Definition f64_emax : Z := 1024.

(** ryu's shortest representation of the positive finite [m * 2 ^ e]: the
    pair [(d, k)] of the decimal [d * 10 ^ k] with the fewest digits inside
    the interval of reals that round to it (its bounds included when [m] is
    even; the lower half-gap halved at a power of two), nearest to the
    float among those, ties to even.  [search] tries the exponents [k]
    downwards from an upper estimate [k0] of the decimal exponent. *)
Definition shortest_search (m e : Z) : nat -> Z -> Z * Z :=
  let E := e - 2 in
  let X := 4 * m in
  let H := X + 2 in
  let L := if (m =? 2 ^ 52) && (-1074 <? e) then X - 1 else X - 2 in
  let inclusive := Z.even m in
  fix search (fuel : nat) (k : Z) : Z * Z :=
    match fuel with
    | O => (m, e)
    | S f =>
        let mul := 2 ^ Z.max E 0 * 10 ^ Z.max (- k) 0 in
        let den := 10 ^ Z.max k 0 * 2 ^ Z.max (- E) 0 in
        let lo := if inclusive then (L * mul + den - 1) / den else L * mul / den + 1 in
        let hi := if inclusive then H * mul / den else (H * mul - 1) / den in
        if lo <=? hi then
          let q := X * mul / den in
          let r := X * mul mod den in
          let d := if den <? 2 * r then q + 1
                   else if 2 * r =? den then (if Z.even q then q else q + 1) else q in
          (Z.max lo (Z.min hi d), k)
        else search f (k - 1)
    end.

Definition shortest (m e : Z) : Z * Z :=
  let t := Z.log2 (4 * m + 2) + 1 + (e - 2) in
  let k0 := (if 0 <=? t then t * 30103 / 100000 else - ((- t) * 30102 / 100000)) + 1 in
  shortest_search m e 40 k0.

(** ryu's [format64] layout of [d * 10 ^ k]: [kk] is the position of the
    decimal point relative to the first digit. *)
Definition ryu_pretty (d k : Z) : list Z :=
  let ds := dec_digits 20 d in
  let length := Z.of_nat (List.length ds) in
  let kk := length + k in
  if (0 <=? k) && (kk <=? 16) then ds ++ repeat 48 (Z.to_nat k) ++ [46; 48]
  else if (0 <? kk) && (kk <=? 16) then firstn (Z.to_nat kk) ds ++ 46 :: skipn (Z.to_nat kk) ds
  else if (-5 <? kk) && (kk <=? 0) then [48; 46] ++ repeat 48 (Z.to_nat (- kk)) ++ ds
  else if length =? 1 then ds ++ 101 :: itoa (kk - 1)
  else firstn 1 ds ++ 46 :: skipn 1 ds ++ 101 :: itoa (kk - 1).

(** [serialize_f64]: a finite float through [ryu::Buffer::format_finite],
    a NaN or an infinity as [null]. *)
Definition fmt_f64 (f : spec_float) : list Z :=
  match f with
  | S754_zero s => (if s then [45] else []) ++ lit "0.0"
  | S754_finite s m e =>
      (if s then [45] else []) ++ let '(d, k) := shortest (Zpos m) e in ryu_pretty d k
  | _ => lit "null"
  end.

Fixpoint to_string (v : Value) : list Z :=
  match v with
  | VNull => lit "null"
  | VBool true => lit "true"
  | VBool false => lit "false"
  | VNumber n => itoa n
  | VFloat f => fmt_f64 f
  | VString s => format_escaped_str s
  | VArray [] => [91; 93]
  | VArray (x :: l) =>
      91 :: to_string x
         ++ (fix rest (l : list Value) : list Z :=
               match l with
               | [] => []
               | y :: l' => 44 :: to_string y ++ rest l'
               end) l
         ++ [93]
  | VObject [] => [123; 125]
  | VObject ((k, x) :: m) =>
      123 :: format_escaped_str k ++ 58 :: to_string x
          ++ (fix rest (m : list (list Z * Value)) : list Z :=
                match m with
                | [] => []
                | (k', y) :: m' => 44 :: format_escaped_str k' ++ 58 :: to_string y ++ rest m'
                end) m
          ++ [125]
  end.

(* ------------------------------------------------------------------ *)
(** ** serde_json::from_str *)

Inductive ErrorCode : Type :=
| EofWhileParsingList | EofWhileParsingObject | EofWhileParsingString
| EofWhileParsingValue | ExpectedColon | ExpectedListCommaOrEnd
| ExpectedObjectCommaOrEnd | ExpectedSomeIdent | ExpectedSomeValue
| InvalidEscape | InvalidNumber | ControlCharacterWhileParsingString
| KeyMustBeAString | LoneLeadingSurrogateInHexEscape
| UnexpectedEndOfHexEscape | TrailingCharacters | TrailingComma
| RecursionLimitExceeded | NumberOutOfRange.

Inductive res (A : Type) : Type :=
| Ok (a : A)
| Err (e : ErrorCode).
Arguments Ok {A} a.
Arguments Err {A} e.

Definition res_bind {A B} (m : res A) (f : A -> res B) : res B :=
  match m with Ok a => f a | Err e => Err e end.

Notation "'let*' x := m 'in' k" := (res_bind m (fun x => k))
  (at level 200, x name, m at level 100, k at level 200).
Notation "'let*' ( x , y ) := m 'in' k" := (res_bind m (fun xy => let (x, y) := xy in k))
  (at level 200, x name, y name, m at level 100, k at level 200).

Definition is_ws (c : Z) : bool := (c =? 32) || (c =? 10) || (c =? 9) || (c =? 13).

Fixpoint skip_ws (s : list Z) : list Z :=
  match s with
  | c :: s' => if is_ws c then skip_ws s' else s
  | [] => []
  end.

(** [parse_ident]: the remaining letters of [null], [true], [false]. *)
Fixpoint expect_ident (ident s : list Z) : res (list Z) :=
  match ident with
  | [] => Ok s
  | c :: ident' =>
      match s with
      | [] => Err EofWhileParsingValue
      | d :: s' => if c =? d then expect_ident ident' s' else Err ExpectedSomeIdent
      end
  end.

Definition is_digit (c : Z) : bool := (48 <=? c) && (c <=? 57).

Fixpoint digits_value (acc : Z) (ds : list Z) : Z :=
  match ds with
  | [] => acc
  | d :: ds' => digits_value (acc * 10 + (d - 48)) ds'
  end.

Definition u64_max : Z := 2 ^ 64 - 1.

(** serde_json's number parser without the [float_roundtrip] feature
    (the default): the digits are accumulated into a [u64] significand and
    a decimal exponent, and [f64_from_parts] scales the significand by
    powers of ten, one rounded [f64] operation at a time. *)

Definition i32_max : Z := 2 ^ 31 - 1.

(** [i32::saturating_add] / [saturating_sub] *)
Definition i32_saturate (x : Z) : Z := Z.max (- 2 ^ 31) (Z.min i32_max x).

(** [peek_or_null]: the next byte, [0] at the end of the input. *)
Definition peek_or_null (s : list Z) : Z := match s with [] => 0 | c :: _ => c end.

Definition is_exp_mark (c : Z) : bool := (c =? 101) || (c =? 69).

(** The [overflow!(a * 10 + b, c)] macro. *)
Definition overflow (a b c : Z) : bool := (c / 10 <=? a) && ((c / 10 <? a) || (c mod 10 <? b)).

Definition f64_is_infinite (f : spec_float) : bool :=
  match f with S754_infinity _ => true | _ => false end.
Definition f64_is_zero (f : spec_float) : bool :=
  match f with S754_zero _ => true | _ => false end.

(** [n as f64] for a [u64], and the entries of the [POW10] table (the
    [f64] literals [1e0] to [1e308]). *)
Definition f64_of_u64 (n : Z) : spec_float := binary_normalize f64_prec f64_emax n 0 false.
Definition pow10 (k : Z) : spec_float := binary_normalize f64_prec f64_emax (10 ^ k) 0 false.

(** The loop of [f64_from_parts]; [fuel] bounds its rounds (each adds 308
    to a negative exponent). *)
Fixpoint f64_from_parts_loop (fuel : nat) (f : spec_float) (exponent : Z) : res spec_float :=
  match fuel with
  | O => Err NumberOutOfRange
  | S fuel' =>
      if Z.abs exponent <=? 308 then
        if 0 <=? exponent then
          let f' := SFmul f64_prec f64_emax f (pow10 exponent) in
          if f64_is_infinite f' then Err NumberOutOfRange else Ok f'
        else Ok (SFdiv f64_prec f64_emax f (pow10 (- exponent)))
      else if f64_is_zero f then Ok f
      else if 0 <=? exponent then Err NumberOutOfRange
      else f64_from_parts_loop fuel' (SFdiv f64_prec f64_emax f (pow10 308)) (exponent + 308)
  end.

Definition f64_from_parts (positive : bool) (significand exponent : Z) : res spec_float :=
  let* f := f64_from_parts_loop (S (Z.to_nat (Z.abs exponent / 308)))
              (f64_of_u64 significand) exponent in
  Ok (if positive then f else SFopp f).

(** [while let b'0'..=b'9' = peek_or_null { eat_char }] *)
Fixpoint skip_digits (s : list Z) : list Z :=
  match s with
  | c :: s' => if is_digit c then skip_digits s' else s
  | [] => []
  end.

Definition parse_exponent_overflow (positive zero_significand positive_exp : bool)
    (s : list Z) : res (spec_float * list Z) :=
  if negb zero_significand && positive_exp then Err NumberOutOfRange
  else Ok (S754_zero (negb positive), skip_digits s).

(** The digit loop of [parse_exponent]. *)
Fixpoint exponent_loop (positive : bool) (significand starting_exp : Z) (positive_exp : bool)
    (exp : Z) (s : list Z) : res (spec_float * list Z) :=
  match s with
  | c :: s' =>
      if is_digit c then
        if overflow exp (c - 48) i32_max
        then parse_exponent_overflow positive (significand =? 0) positive_exp s'
        else exponent_loop positive significand starting_exp positive_exp (exp * 10 + (c - 48)) s'
      else
        let final_exp := i32_saturate (if positive_exp then starting_exp + exp else starting_exp - exp) in
        let* f := f64_from_parts positive significand final_exp in Ok (f, s)
  | [] =>
      let final_exp := i32_saturate (if positive_exp then starting_exp + exp else starting_exp - exp) in
      let* f := f64_from_parts positive significand final_exp in Ok (f, s)
  end.

(** [parse_exponent], after the [e] or [E]. *)
Definition parse_exponent (positive : bool) (significand starting_exp : Z) (s : list Z)
    : res (spec_float * list Z) :=
  let '(positive_exp, s1) :=
    match s with 43 :: s' => (true, s') | 45 :: s' => (false, s') | _ => (true, s) end in
  match s1 with
  | [] => Err EofWhileParsingValue
  | c :: s2 =>
      if is_digit c then exponent_loop positive significand starting_exp positive_exp (c - 48) s2
      else Err InvalidNumber
  end.

(** [f64_from_parts], the float paired with the rest of the input. *)
Definition from_parts_at (positive : bool) (significand exponent : Z) (s : list Z)
    : res (spec_float * list Z) :=
  let* f := f64_from_parts positive significand exponent in Ok (f, s).

(** [match peek_or_null { b'e' | b'E' => parse_exponent, _ => f64_from_parts }],
    the last step of [parse_decimal] and [parse_decimal_overflow]. *)
Definition exponent_or_parts (positive : bool) (significand exponent : Z) (s : list Z)
    : res (spec_float * list Z) :=
  if is_exp_mark (peek_or_null s) then parse_exponent positive significand exponent (tl s)
  else from_parts_at positive significand exponent s.

Definition parse_decimal_overflow (positive : bool) (significand exponent : Z) (s : list Z)
    : res (spec_float * list Z) :=
  exponent_or_parts positive significand exponent (skip_digits s).

(** The end of [parse_decimal]: at least one digit after the point. *)
Definition decimal_end (positive : bool) (significand exponent_before after : Z) (s : list Z)
    : res (spec_float * list Z) :=
  if after =? 0 then
    match s with [] => Err EofWhileParsingValue | _ :: _ => Err InvalidNumber end
  else exponent_or_parts positive significand (exponent_before + after) s.

(** [parse_decimal], after the point; [after] is
    [exponent_after_decimal_point]. *)
Fixpoint decimal_loop (positive : bool) (significand exponent_before after : Z) (s : list Z)
    : res (spec_float * list Z) :=
  match s with
  | c :: s' =>
      if is_digit c then
        if overflow significand (c - 48) u64_max
        then parse_decimal_overflow positive significand (exponent_before + after) s
        else decimal_loop positive (significand * 10 + (c - 48)) exponent_before (after - 1) s'
      else decimal_end positive significand exponent_before after s
  | [] => decimal_end positive significand exponent_before after s
  end.

(** [parse_long_integer]: the digits past [u64::MAX] only count in the
    exponent. *)
Fixpoint long_integer_loop (positive : bool) (significand exponent : Z) (s : list Z)
    : res (spec_float * list Z) :=
  match s with
  | c :: s' =>
      if is_digit c then long_integer_loop positive significand (exponent + 1) s'
      else if c =? 46 then decimal_loop positive significand exponent 0 s'
      else if is_exp_mark c then parse_exponent positive significand exponent s'
      else from_parts_at positive significand exponent s
  | [] => from_parts_at positive significand exponent s
  end.

(** [ParserNumber::F64], visited as a [Value::Number]. *)
Definition float_value (r : res (spec_float * list Z)) : res (Value * list Z) :=
  let* (f, s) := r in Ok (VFloat f, s).

(** [significand as i64] and [i64::wrapping_neg] *)
Definition as_i64 (n : Z) : Z := if n <? 2 ^ 63 then n else n - 2 ^ 64.
Definition wrapping_neg_i64 (n : Z) : Z := if n =? - 2 ^ 63 then n else - n.

(** [parse_number]: a [u64] when positive; when negative an [i64], or an
    [f64] on [-0] and below [i64::MIN]. *)
Definition parse_number (positive : bool) (significand : Z) (s : list Z) : res (Value * list Z) :=
  let c := peek_or_null s in
  if c =? 46 then float_value (decimal_loop positive significand 0 0 (tl s))
  else if is_exp_mark c then float_value (parse_exponent positive significand 0 (tl s))
  else if positive then Ok (VNumber significand, s)
  else
    let neg := wrapping_neg_i64 (as_i64 significand) in
    if 0 <=? neg then Ok (VFloat (SFopp (f64_of_u64 significand)), s)
    else Ok (VNumber neg, s).

(** The digit loop of [parse_integer]. *)
Fixpoint integer_loop (positive : bool) (significand : Z) (s : list Z) : res (Value * list Z) :=
  match s with
  | c :: s' =>
      if is_digit c then
        if overflow significand (c - 48) u64_max
        then float_value (long_integer_loop positive significand 0 s)
        else integer_loop positive (significand * 10 + (c - 48)) s'
      else parse_number positive significand s
  | [] => parse_number positive significand s
  end.

(** [parse_integer], after the sign. *)
Definition parse_integer (positive : bool) (s : list Z) : res (Value * list Z) :=
  match s with
  | [] => Err EofWhileParsingValue
  | c :: s' =>
      if c =? 48 then
        if is_digit (peek_or_null s') then Err InvalidNumber else parse_number positive 0 s'
      else if is_digit c then integer_loop positive (c - 48) s'
      else Err InvalidNumber
  end.

Definition hex_val (c : Z) : option Z :=
  if (48 <=? c) && (c <=? 57) then Some (c - 48)
  else if (97 <=? c) && (c <=? 102) then Some (c - 87)
  else if (65 <=? c) && (c <=? 70) then Some (c - 55)
  else None.

(** [decode_hex_escape]: four hex digits. *)
Definition parse_hex4 (s : list Z) : res (Z * list Z) :=
  match s with
  | a :: b :: c :: d :: s' =>
      match hex_val a, hex_val b, hex_val c, hex_val d with
      | Some a, Some b, Some c, Some d => Ok (((a * 16 + b) * 16 + c) * 16 + d, s')
      | _, _, _, _ => Err InvalidEscape
      end
  | _ => Err EofWhileParsingString
  end.

(** [parse_escape] after the backslash: the decoded char and the rest. *)
Definition parse_escape (s : list Z) : res (Z * list Z) :=
  match s with
  | [] => Err EofWhileParsingString
  | e :: s' =>
      if e =? 34 then Ok (34, s')
      else if e =? 92 then Ok (92, s')
      else if e =? 47 then Ok (47, s')
      else if e =? 98 then Ok (8, s')
      else if e =? 102 then Ok (12, s')
      else if e =? 110 then Ok (10, s')
      else if e =? 114 then Ok (13, s')
      else if e =? 116 then Ok (9, s')
      else if e =? 117 then
        let* (n1, s1) := parse_hex4 s' in
        if (56320 <=? n1) && (n1 <=? 57343) then Err LoneLeadingSurrogateInHexEscape
        else if (55296 <=? n1) && (n1 <=? 56319) then
          match s1 with
          | 92 :: 117 :: s2 =>
              let* (n2, s3) := parse_hex4 s2 in
              if (56320 <=? n2) && (n2 <=? 57343)
              then Ok (65536 + Z.shiftl (n1 - 55296) 10 + (n2 - 56320), s3)
              else Err LoneLeadingSurrogateInHexEscape
          | _ => Err UnexpectedEndOfHexEscape
          end
        else Ok (n1, s1)
      else Err InvalidEscape
  end.

(** [parse_str] after the opening quote; [fuel] bounds the number of
    characters read (the caller passes the length of the input). *)
Fixpoint parse_str (fuel : nat) (acc s : list Z) : res (list Z * list Z) :=
  match fuel with
  | O => Err EofWhileParsingString
  | S f =>
      match s with
      | [] => Err EofWhileParsingString
      | c :: s' =>
          if c =? 34 then Ok (acc, s')
          else if c =? 92 then let* (e, s'') := parse_escape s' in parse_str f (acc ++ [e]) s''
          else if c <? 32 then Err ControlCharacterWhileParsingString
          else parse_str f (acc ++ [c]) s'
      end
  end.

(** [SeqAccess] driven by [visit_seq] and closed by [end_seq], after the
    opening bracket; [pv] deserializes one element.  [n] bounds the number
    of elements (the caller passes the length of the input). *)
Fixpoint parse_seq (pv : list Z -> res (Value * list Z))
    (n : nat) (first : bool) (acc : list Value) (s : list Z) : res (Value * list Z) :=
  match n with
  | O => Err EofWhileParsingList
  | S n' =>
    match skip_ws s with
    | [] => Err EofWhileParsingList
    | c :: s1 =>
      if c =? 93 then Ok (VArray acc, s1)
      else if first then
        let* (v, s2) := pv (c :: s1) in parse_seq pv n' false (acc ++ [v]) s2
      else if c =? 44 then
        match skip_ws s1 with
        | [] => Err EofWhileParsingList
        | c2 :: _ =>
          if c2 =? 93 then Err TrailingComma
          else let* (v, s2) := pv s1 in parse_seq pv n' false (acc ++ [v]) s2
        end
      else Err ExpectedListCommaOrEnd
    end
  end.

(** [MapAccess] driven by [visit_map] (each entry inserted into a fresh
    [Map]) and closed by [end_map], after the opening brace. *)
Fixpoint parse_map (pv : list Z -> res (Value * list Z))
    (n : nat) (first : bool) (acc : list (list Z * Value)) (s : list Z)
    : res (Value * list Z) :=
  match n with
  | O => Err EofWhileParsingObject
  | S n' =>
    match skip_ws s with
    | [] => Err EofWhileParsingObject
    | c :: s1 =>
      if c =? 125 then Ok (VObject acc, s1)
      else
        let* ks := (if first then Ok (c :: s1)
                    else if c =? 44 then Ok (skip_ws s1)
                    else Err ExpectedObjectCommaOrEnd) in
        match ks with
        | [] => Err EofWhileParsingValue
        | k :: ks' =>
          if k =? 34 then
            let* (key, s2) := parse_str (length ks') [] ks' in
            match skip_ws s2 with
            | [] => Err EofWhileParsingObject
            | c3 :: s3 =>
              if c3 =? 58 then
                let* (v, s4) := pv s3 in parse_map pv n' false (map_insert key v acc) s4
              else Err ExpectedColon
            end
          else if k =? 125 then Err TrailingComma
          else Err KeyMustBeAString
        end
    end
  end.

(** [Deserializer::deserialize_any] for [Value].  [depth] is serde_json's
    [remaining_depth] (128 at the start): an array or object decrements it
    and fails with [RecursionLimitExceeded] when it reaches 0. *)
Fixpoint parse_value (depth : nat) (s : list Z) : res (Value * list Z) :=
  match depth with
  | O => Err RecursionLimitExceeded
  | S d =>
    match skip_ws s with
    | [] => Err EofWhileParsingValue
    | c :: s' =>
      if c =? 110 then let* s'' := expect_ident (lit "ull") s' in Ok (VNull, s'')
      else if c =? 116 then let* s'' := expect_ident (lit "rue") s' in Ok (VBool true, s'')
      else if c =? 102 then let* s'' := expect_ident (lit "alse") s' in Ok (VBool false, s'')
      else if c =? 45 then parse_integer false s'
      else if is_digit c then parse_integer true (c :: s')
      else if c =? 34 then let* (str, s'') := parse_str (length s') [] s' in Ok (VString str, s'')
      else if c =? 91 then
        match d with
        | O => Err RecursionLimitExceeded
        | S _ => parse_seq (parse_value d) (S (length s')) true [] s'
        end
      else if c =? 123 then
        match d with
        | O => Err RecursionLimitExceeded
        | S _ => parse_map (parse_value d) (S (length s')) true [] s'
        end
      else Err ExpectedSomeValue
    end
  end.

Definition from_str (s : list Z) : res Value :=
  let* (v, rest) := parse_value 128 s in
  match skip_ws rest with
  | [] => Ok v
  | _ :: _ => Err TrailingCharacters
  end.

(* ------------------------------------------------------------------ *)
(** ** UTF-16 *)

Definition is_scalar (c : Z) : bool :=
  ((0 <=? c) && (c <? 55296)) || ((57344 <=? c) && (c <=? 1114111)).

(** [str::encode_utf16] *)
Definition encode_utf16_char (c : Z) : list Z :=
  if c <? 65536 then [c]
  else let c' := c - 65536 in [55296 + Z.shiftr c' 10; 56320 + Z.land c' 1023].

Definition encode_utf16 (s : list Z) : list Z := flat_map encode_utf16_char s.

(** [String::from_utf16]: an unpaired surrogate is an error. *)
Fixpoint from_utf16 (u : list Z) : option (list Z) :=
  match u with
  | [] => Some []
  | w :: u' =>
      if (w <? 55296) || (57343 <? w) then
        match from_utf16 u' with Some r => Some (w :: r) | None => None end
      else if w <=? 56319 then
        match u' with
        | w2 :: u'' =>
            if (56320 <=? w2) && (w2 <=? 57343) then
              match from_utf16 u'' with
              | Some r => Some (65536 + Z.shiftl (w - 55296) 10 + (w2 - 56320) :: r)
              | None => None
              end
            else None
        | [] => None
        end
      else None
  end.

(** [str::replace("\0", "")] *)
Definition strip_nul (s : list Z) : list Z := List.filter (fun c => negb (c =? 0)) s.

(* ------------------------------------------------------------------ *)
(** ** Host to guest: [send_event] (main.rs) *)

(** Each UTF-16 unit as two big-endian bytes, [(word >> 8) as u8] then
    [word as u8]. *)
Definition split_units (u : list Z) : list Z :=
  flat_map (fun w => [Z.land (Z.shiftr w 8) 255; Z.land w 255]) u.

(** The bytes [send_event event_type data] delivers through [h_rd], one
    call per byte, before the final [h_re]:
    [json!([event_type, data]).to_string()], [encode_utf16], split. *)
Definition send_event_bytes (event_type : list Z) (data : Value) : list Z :=
  split_units (encode_utf16 (to_string (VArray [VString event_type; data]))).

(** Modelled from the spec: the guest-side receiver of [h_rd] bytes, which
    is not part of this repository.  Section 4.1 of the spec: consecutive
    bytes are recombined into big-endian 16-bit units; the units are then
    decoded as UTF-16, null characters are stripped and the text is parsed
    as JSON (the same steps as the host's [h_se]); a two-element array
    [[command, payload]] is the envelope. *)
Fixpoint recombine (b : list Z) : list Z :=
  match b with
  | hi :: lo :: b' => Z.lor (Z.shiftl hi 8) lo :: recombine b'
  | _ => []
  end.

Definition decode (b : list Z) : option (list Z * Value) :=
  match from_utf16 (recombine b) with
  | None => None
  | Some s =>
      match from_str (strip_nul s) with
      | Ok (VArray [VString cmd; payload]) => Some (cmd, payload)
      | _ => None
      end
  end.

(** [n] arrays nested around [v]. *)
Fixpoint nest (n : nat) (v : Value) : Value :=
  match n with O => v | S n' => VArray [nest n' v] end.

(** Nesting depth of arrays and objects. *)
Fixpoint vdepth (v : Value) : nat :=
  match v with
  | VArray l =>
      S ((fix go (l : list Value) : nat :=
            match l with [] => O | x :: l' => Nat.max (vdepth x) (go l') end) l)
  | VObject m =>
      S ((fix go (m : list (list Z * Value)) : nat :=
            match m with [] => O | (_, x) :: m' => Nat.max (vdepth x) (go m') end) m)
  | _ => O
  end.

(** Entries of a [Map] in strictly increasing key order. *)
Fixpoint keys_sorted (m : list (list Z * Value)) : bool :=
  match m with
  | [] => true
  | (k, _) :: m' =>
      forallb (fun kv => match str_cmp k (fst kv) with Lt => true | _ => false end) m'
      && keys_sorted m'
  end.

(** The values a [serde_json::Value] can hold: strings of Unicode scalar
    values, integers in the [i64]/[u64] range, objects with sorted distinct
    keys; [float_ok] says which floats are admitted. *)
Fixpoint wf_value_with (float_ok : spec_float -> bool) (v : Value) : bool :=
  match v with
  | VNull | VBool _ => true
  | VNumber n => (- 2 ^ 63 <=? n) && (n <=? u64_max)
  | VFloat f => float_ok f
  | VString s => forallb is_scalar s
  | VArray l =>
      (fix go (l : list Value) : bool :=
         match l with [] => true | x :: l' => wf_value_with float_ok x && go l' end) l
  | VObject m =>
      keys_sorted m
      && (fix go (m : list (list Z * Value)) : bool :=
            match m with
            | [] => true
            | (k, x) :: m' => forallb is_scalar k && wf_value_with float_ok x && go m'
            end) m
  end.

(** Values without floats. *)
Definition wf_value : Value -> bool := wf_value_with (fun _ => false).

(** The floats a [serde_json::Number] can hold: finite, in the canonical
    form of a binary64. *)
Definition f64_finite (f : spec_float) : bool :=
  valid_binary f64_prec f64_emax f
  && match f with S754_zero _ | S754_finite _ _ _ => true | _ => false end.

(** Every value a [serde_json::Value] can hold. *)
Definition json_value : Value -> bool := wf_value_with f64_finite.

(** Equality of floats, bit for bit. *)
Definition f64_eqb (f g : spec_float) : bool :=
  match f, g with
  | S754_zero s, S754_zero s' => Bool.eqb s s'
  | S754_infinity s, S754_infinity s' => Bool.eqb s s'
  | S754_nan, S754_nan => true
  | S754_finite s m e, S754_finite s' m' e' => Bool.eqb s s' && Pos.eqb m m' && Z.eqb e e'
  | _, _ => false
  end.
(** A float serde_json reads back, from the text it writes for it, as the
    same float. *)
Definition float_survives (f : spec_float) : bool :=
  match parse_value 1 (fmt_f64 f) with
  | Ok (VFloat g, []) => f64_eqb g f
  | _ => false
  end.

(** The shapes of the text ryu writes for a non-zero float, and of
    [0.0]: digits, then a fraction, an exponent, or both. *)
Definition number_text (b : list Z) : Prop :=
  exists a, forallb is_digit a = true /\ a <> [] /\
    ((exists bb, forallb is_digit bb = true /\ b = a ++ 46 :: bb)
     \/ (exists x, b = a ++ 101 :: itoa x)
     \/ (exists bb x, forallb is_digit bb = true /\ b = a ++ 46 :: bb ++ 101 :: itoa x)).

(** Two runs of a parser on inputs that differ after the part it reads:
    each run stops at its own rest [r1] or [r2], and a success of the
    first is a success of the second with the same value. *)
Definition sim {A} (x1 x2 : res (A * list Z)) (r1 r2 : list Z) : Prop :=
  exists y1 y2 : res A,
    x1 = res_bind y1 (fun a => Ok (a, r1)) /\ x2 = res_bind y2 (fun a => Ok (a, r2))
    /\ (forall a, y1 = Ok a -> y2 = Ok a).

(** What may follow a value inside serialized JSON. *)
Definition delim (rest : list Z) : bool :=
  match rest with
  | [] => true
  | c :: _ => (c =? 44) || (c =? 93) || (c =? 125)
  end.

(** The tails of [to_string] on arrays and objects, as functions. *)
Fixpoint ser_tail (l : list Value) : list Z :=
  match l with
  | [] => []
  | y :: l' => 44 :: to_string y ++ ser_tail l'
  end.

Fixpoint obj_tail (m : list (list Z * Value)) : list Z :=
  match m with
  | [] => []
  | (k, y) :: m' => 44 :: format_escaped_str k ++ 58 :: to_string y ++ obj_tail m'
  end.

(* ------------------------------------------------------------------ *)
(** ** Text helpers of the HTTP side *)

(** [char::encode_utf8], as [String::as_bytes] lays a string out. *)
Definition encode_utf8_char (c : Z) : list Z :=
  if c <? 128 then [c]
  else if c <? 2048 then [192 + Z.shiftr c 6; 128 + Z.land c 63]
  else if c <? 65536 then
    [224 + Z.shiftr c 12; 128 + Z.land (Z.shiftr c 6) 63; 128 + Z.land c 63]
  else
    [240 + Z.shiftr c 18; 128 + Z.land (Z.shiftr c 12) 63;
     128 + Z.land (Z.shiftr c 6) 63; 128 + Z.land c 63].

Definition encode_utf8 (s : list Z) : list Z := flat_map encode_utf8_char s.

Definition in_range (lo hi c : Z) : bool := (lo <=? c) && (c <=? hi).

(** One step of [String::from_utf8_lossy]: the next character, or U+FFFD
    for the longest prefix of a well-formed sequence that breaks off
    (the decoder resumes at the byte that broke it). *)
Definition utf8_step (b0 : Z) (r : list Z) : Z * list Z :=
  if b0 <? 128 then (b0, r)
  else if in_range 194 223 b0 then
    match r with
    | b1 :: r1 =>
        if in_range 128 191 b1
        then (Z.lor (Z.shiftl (Z.land b0 31) 6) (Z.land b1 63), r1)
        else (65533, r)
    | [] => (65533, r)
    end
  else if in_range 224 239 b0 then
    let lo := if b0 =? 224 then 160 else 128 in
    let hi := if b0 =? 237 then 159 else 191 in
    match r with
    | b1 :: r1 =>
        if in_range lo hi b1 then
          match r1 with
          | b2 :: r2 =>
              if in_range 128 191 b2
              then (Z.lor (Z.lor (Z.shiftl (Z.land b0 15) 12) (Z.shiftl (Z.land b1 63) 6))
                          (Z.land b2 63), r2)
              else (65533, r1)
          | [] => (65533, r1)
          end
        else (65533, r)
    | [] => (65533, r)
    end
  else if in_range 240 244 b0 then
    let lo := if b0 =? 240 then 144 else 128 in
    let hi := if b0 =? 244 then 143 else 191 in
    match r with
    | b1 :: r1 =>
        if in_range lo hi b1 then
          match r1 with
          | b2 :: r2 =>
              if in_range 128 191 b2 then
                match r2 with
                | b3 :: r3 =>
                    if in_range 128 191 b3
                    then (Z.lor (Z.lor (Z.lor (Z.shiftl (Z.land b0 7) 18)
                                              (Z.shiftl (Z.land b1 63) 12))
                                       (Z.shiftl (Z.land b2 63) 6)) (Z.land b3 63), r3)
                    else (65533, r2)
                | [] => (65533, r2)
                end
              else (65533, r1)
          | [] => (65533, r1)
          end
        else (65533, r)
    | [] => (65533, r)
    end
  else (65533, r).

(** Each step consumes at least one byte, so [length b] steps suffice. *)
Fixpoint utf8_lossy_aux (fuel : nat) (b : list Z) : list Z :=
  match fuel, b with
  | S f, b0 :: r => let (c, r') := utf8_step b0 r in c :: utf8_lossy_aux f r'
  | _, _ => []
  end.

(** [String::from_utf8_lossy] *)
Definition from_utf8_lossy (b : list Z) : list Z := utf8_lossy_aux (length b) b.

(** [char::is_whitespace]: the Unicode White_Space property. *)
Definition is_whitespace (c : Z) : bool :=
  in_range 9 13 c || (c =? 32) || (c =? 133) || (c =? 160) || (c =? 5760)
  || in_range 8192 8202 c || (c =? 8232) || (c =? 8233) || (c =? 8239)
  || (c =? 8287) || (c =? 12288).

(** [str::split_whitespace]: the maximal non-empty runs of
    non-whitespace characters; [cur] is the current run, reversed. *)
Fixpoint split_ws_aux (cur : list Z) (s : list Z) : list (list Z) :=
  match s with
  | [] => match cur with [] => [] | _ => [rev cur] end
  | c :: s' =>
      if is_whitespace c then
        match cur with
        | [] => split_ws_aux [] s'
        | _ => rev cur :: split_ws_aux [] s'
        end
      else split_ws_aux (c :: cur) s'
  end.

Definition split_whitespace (s : list Z) : list (list Z) := split_ws_aux [] s.

Fixpoint zs_eqb (a b : list Z) : bool :=
  match a, b with
  | [], [] => true
  | x :: a', y :: b' => (x =? y) && zs_eqb a' b'
  | _, _ => false
  end.

(** An integer as [f64] (round to nearest, ties to even), the result
    written as the integer it is. *)
Definition f64_of_int (n : Z) : Z :=
  let a := Z.abs n in
  if a <? 2 ^ 53 then n
  else
    let e := Z.log2 a - 52 in
    let q := Z.shiftr a e in
    let r := a - Z.shiftl q e in
    let half := 2 ^ (e - 1) in
    let q' := if (half <? r) || ((r =? half) && Z.odd q) then q + 1 else q in
    Z.sgn n * Z.shiftl q' e.

(** [n.as_f64().unwrap_or(..) as usize] and [as u16] for an integer
    [serde_json::Number]: Rust's float-to-int casts saturate. *)
Definition as_usize (n : Z) : Z := Z.max 0 (Z.min u64_max (f64_of_int n)).
Definition as_u16 (n : Z) : Z := Z.max 0 (Z.min 65535 (f64_of_int n)).

(** An [f64] truncated toward zero. *)
Definition f64_trunc (f : spec_float) : Z :=
  match f with
  | S754_finite s m e =>
      let a := if 0 <=? e then Zpos m * 2 ^ e else Zpos m / 2 ^ (- e) in
      if s then - a else a
  | _ => 0
  end.

(** [f as usize] / [f as u16] for an [f64]: truncation toward zero,
    saturating at [0] and at [hi]; a NaN gives [0]. *)
Definition f64_as_sat (hi : Z) (f : spec_float) : Z :=
  match f with
  | S754_infinity s => if s then 0 else hi
  | S754_nan => 0
  | _ => Z.max 0 (Z.min hi (f64_trunc f))
  end.

(** [n.as_f64().unwrap_or(..)] cast to an unsigned type of maximum [hi],
    for a [Value::Number]; [None] for other values. *)
Definition number_as (hi : Z) (v : Value) : option Z :=
  match v with
  | VNumber n => Some (Z.max 0 (Z.min hi (f64_of_int n)))
  | VFloat f => Some (f64_as_sat hi f)
  | _ => None
  end.

(** [{:X}]: upper-case hexadecimal digits of a [usize]. *)
Definition hex_upper (d : Z) : Z := if d <? 10 then 48 + d else 55 + d.

Fixpoint hex_digits (fuel : nat) (n : Z) : list Z :=
  match fuel with
  | O => []
  | S f => if n <? 16 then [hex_upper n] else hex_digits f (n / 16) ++ [hex_upper (n mod 16)]
  end.

Definition fmt_upper_hex (n : Z) : list Z := hex_digits 16 n.

Definition crlf : list Z := [13; 10].

(* ------------------------------------------------------------------ *)
(** ** The runtime: connections, the registry and an effect trace *)

(** A TCP connection (the [TcpStream] inside a [Response]). *)
Definition conn := nat.

(** What the host does that others can observe, in order. *)
Inductive Action : Type :=
(** a line printed by [println!], [eprintln!] or an enabled [log] *)
| ALog (msg : list Z)
(** [send_event(event_type, data)]: the bytes [send_event_bytes] fed to the guest *)
| AEvent (event_type : list Z) (data : Value)
(** [RESPONSE_MAP.lock()] and the drop of its guard *)
| ALock
| AUnlock
(** a completed [write_all(..).await] and [flush().await]: suspension points *)
| AWrite (c : conn) (bytes : list Z)
| AFlush (c : conn)
(** a [Response] dropped: its socket is closed *)
| AClose (c : conn)
(** [TcpListener::bind] succeeded; the accept loop runs *)
| AListen (port : Z).

Inductive IoError : Type := BindError | AcceptError | ReadError | WriteError.

(** How a computation ends: a value, an [io::Error] travelling up through
    [?], a panic unwinding to the task boundary, or a loop that never
    returns (the accept loop of [Server::listen]). *)
Inductive Out (A : Type) : Type :=
| Ret (a : A)
| Raise (e : IoError)
| Panic (e : IoError)
| Forever.
Arguments Ret {A} a.
Arguments Raise {A} e.
Arguments Panic {A} e.
Arguments Forever {A}.

(** The process state the handlers share: [NEXT_ID], [RESPONSE_MAP],
    [LOG_LEVEL]; [now] is what [Utc::now().to_rfc2822()] returns, [io]
    the outcomes of the coming socket operations, in order ([true]:
    success; operations past its end succeed), and [wasm_ready] whether
    [WASM_STORE] and [WASM_INSTANCE] are both set. *)
Record St : Type := MkSt {
  next_id : Z;
  registry : gmap Z conn;
  log_level : Z;
  now : list Z;
  io : list bool;
  wasm_ready : bool
}.

(** A state once the guest's [_start] has returned and [main] has put the
    store back into [WASM_STORE].  While [_start] runs, [main] holds the
    store it took out of [WASM_STORE], and [wasm_ready] is [false]. *)
Definition mkSt (n : Z) (r : gmap Z conn) (l : Z) (d : list Z) (i : list bool) : St :=
  MkSt n r l d i true.

Definition set_next_id (n : Z) (s : St) : St :=
  MkSt n (registry s) (log_level s) (now s) (io s) (wasm_ready s).
Definition set_registry (r : gmap Z conn) (s : St) : St :=
  MkSt (next_id s) r (log_level s) (now s) (io s) (wasm_ready s).
Definition set_io (l : list bool) (s : St) : St :=
  MkSt (next_id s) (registry s) (log_level s) (now s) l (wasm_ready s).

Definition M (A : Type) : Type := St -> St * list Action * Out A.

#[global] Instance M_ret : MRet M := fun A a s => (s, [], Ret a).
#[global] Instance M_bind : MBind M := fun A B f m s =>
  match m s with
  | (s1, t1, Ret a) => let '(s2, t2, o) := f a s1 in (s2, t1 ++ t2, o)
  | (s1, t1, Raise e) => (s1, t1, Raise e)
  | (s1, t1, Panic e) => (s1, t1, Panic e)
  | (s1, t1, Forever) => (s1, t1, Forever)
  end.

Definition emit (a : Action) : M unit := fun s => (s, [a], Ret tt).
Definition raise {A} (e : IoError) : M A := fun s => (s, [], Raise e).
Definition forever {A} : M A := fun s => (s, [], Forever).

(** [log(level, message)] *)
Definition log (level : Z) (msg : list Z) : M unit :=
  fun s => if level <=? log_level s then (s, [ALog msg], Ret tt) else (s, [], Ret tt).

(** [println!] / [eprintln!] *)
Definition print (msg : list Z) : M unit := emit (ALog msg).

(** The outcome of the next socket operation. *)
Definition io_result : M bool :=
  fun s => match io s with
           | [] => (s, [], Ret true)
           | b :: l => (set_io l s, [], Ret b)
           end.

(** [self.stream.write_all(bytes).await] and [self.stream.flush().await] *)
Definition write_all (c : conn) (bytes : list Z) : M unit :=
  io_result ≫= λ ok : bool, if ok then emit (AWrite c bytes) else raise WriteError.
Definition flush (c : conn) : M unit :=
  io_result ≫= λ ok : bool, if ok then emit (AFlush c) else raise WriteError.

(** A scope holding the [RESPONSE_MAP] guard: it is dropped when the scope
    is left, however it is left. *)
Definition with_lock {A} (m : M A) : M A :=
  fun s => let '(s1, t, o) := m s in (s1, ALock :: t ++ [AUnlock], o).

(** A scope owning the [Response] of connection [c]: it is dropped, and
    the socket closed, when the scope is left. *)
Definition owning {A} (c : conn) (m : M A) : M A :=
  fun s => let '(s1, t, o) := m s in (s1, t ++ [AClose c], o).

(** [if let Err(e) = .. { todo!("{e}") }] and [.unwrap()] on an
    [io::Result]: an error becomes a panic. *)
Definition panic_on_err {A} (m : M A) : M A :=
  fun s => match m s with
           | (s1, t, Raise e) => (s1, t, Panic e)
           | r => r
           end.

(** [NEXT_ID.fetch_add(1, Ordering::SeqCst)] on an [AtomicUsize]. *)
Definition fetch_add : M Z :=
  fun s => (set_next_id ((next_id s + 1) mod 2 ^ 64) s, [], Ret (next_id s)).

(** [response_map.insert(id, res)]: a [Response] it replaces is dropped. *)
Definition register (id : Z) (c : conn) : M unit :=
  fun s =>
    let s' := set_registry (<[id := c]> (registry s)) s in
    match registry s !! id with
    | Some old => (s', [AClose old], Ret tt)
    | None => (s', [], Ret tt)
    end.

(** [response_map.remove(&index)] *)
Definition take (index : Z) : M (option conn) :=
  fun s => (set_registry (delete index (registry s)) s, [], Ret (registry s !! index)).

Definition get_now : M (list Z) := fun s => (s, [], Ret (now s)).

(* ------------------------------------------------------------------ *)
(** ** nodehttp.rs *)

(** The header block [Response::write_head] formats. *)
Definition head_text (status_code : Z) (date : list Z)
    (headers : list (list Z * list Z)) : list Z :=
  lit "HTTP/1.1 " ++ itoa status_code ++ lit " OK" ++ crlf
  ++ lit "Date: " ++ date ++ crlf
  ++ lit "Connection: keep-alive" ++ crlf
  ++ lit "Keep-Alive: timeout=5" ++ crlf
  ++ lit "Transfer-Encoding: chunked" ++ crlf
  ++ flat_map (fun kv => fst kv ++ lit ": " ++ snd kv ++ crlf) headers
  ++ crlf.

(** [Response::write_head] *)
Definition write_head (c : conn) (status_code : Z) (headers : list (list Z * list Z))
    : M unit :=
  date ← get_now; write_all c (encode_utf8 (head_text status_code date headers)).

(** The chunked body [Response::end] formats: [{body_len:X}\r\n{body}\r\n0\r\n\r\n],
    [body_len] being [body.len()], the length in bytes. *)
Definition chunk_text (body : list Z) : list Z :=
  fmt_upper_hex (Z.of_nat (length (encode_utf8 body))) ++ crlf ++ body ++ crlf
  ++ lit "0" ++ crlf ++ crlf.

(** [Response::end] *)
Definition end_ (c : conn) (body : list Z) : M unit :=
  write_all c (encode_utf8 (chunk_text body));; flush c.

(** [handle_connection]'s read buffer: [[0; 512]] after [read] filled its
    first bytes. *)
Definition read_buffer (bytes : list Z) : list Z :=
  let b := firstn 512 bytes in b ++ repeat 0 (512 - length b).

(** [handle_connection(stream, handler)]; [rd] is what [read] returned
    ([None]: an error).  The handler's [Err] becomes the [todo!] panic. *)
Definition handle_connection (handler : list Z -> list Z -> conn -> M unit)
    (c : conn) (rd : option (list Z)) : M unit :=
  match rd with
  | None => owning c (raise ReadError)
  | Some bytes =>
      let parts := split_whitespace (from_utf8_lossy (read_buffer bytes)) in
      panic_on_err (handler (nth 0 parts []) (nth 1 parts []) c)
  end.

(** The accept loop of [Server::listen], which returns only with an
    [accept] error.  Each accepted connection is handled in a task of its
    own (see [connection_task]).  [fuel] counts the socket outcomes still
    listed in [io]: once they are used up every [accept] succeeds and the
    loop never returns. *)
Fixpoint accept_loop (fuel : nat) : M unit :=
  match fuel with
  | O => forever
  | S f => io_result ≫= λ ok : bool, if ok then accept_loop f else raise AcceptError
  end.

Definition accept_connections : M unit := fun s => accept_loop (length (io s)) s.

(** [Server::listen]: [bind], then the accept loop. *)
Definition server_listen (port : Z) : M unit :=
  io_result ≫= λ ok : bool,
    if ok then emit (AListen port);; accept_connections else raise BindError.

(** How a spawned tokio task ends.  A panic is caught by the runtime at
    the task boundary (the default [panic = unwind] strategy) and its
    message printed by the panic hook; the process keeps running.  An
    [Err] returned by a spawned future is dropped with its [JoinHandle]. *)
Inductive TaskEnd : Type := Finished | Panicked (e : IoError) | Serving.

Definition task_end {A} (o : Out A) : TaskEnd :=
  match o with
  | Ret _ | Raise _ => Finished
  | Panic e => Panicked e
  | Forever => Serving
  end.

(* ------------------------------------------------------------------ *)
(** ** main.rs *)

(** [h_sd(ch)]: [buffer.push(ch as u16)]. *)
Definition h_sd (data : list Z) (ch : Z) : list Z := data ++ [Z.land ch 65535].

(** What an [h_se] call leaves behind besides the buffer: the value whose
    [handle_receive] it spawned, if any. *)
Definition h_se (data : list Z) : list Z * list Action * option Value :=
  match data with
  | [] => (data, [], None)
  | _ =>
      let outcome :=
        match from_utf16 data with
        | Some s =>
            let clean_string := strip_nul s in
            match from_str clean_string with
            | Ok json_value => ([], Some json_value)
            | Err _ => ([ALog (lit "Failed to parse JSON."); ALog clean_string], None)
            end
        | None => ([], None)
        end in
      (* [data.clear()] *)
      ([], fst outcome, snd outcome)
  end.

Definition standard_methods : list (list Z) :=
  map lit ["GET"; "POST"; "PUT"; "DELETE"; "HEAD"; "OPTIONS"; "CONNECT"; "TRACE"; "PATCH"]%string.

Definition is_standard_method (m : list Z) : bool := existsb (zs_eqb m) standard_methods.

(** [send_event(event_type, data)]: the event reaches the guest only when
    [WASM_STORE] and [WASM_INSTANCE] are both set; otherwise
    [WASM not initialized] is printed and nothing is sent. *)
Definition send_event (event_type : list Z) (data : Value) : M unit :=
  fun s => if wasm_ready s then (s, [AEvent event_type data], Ret tt)
           else (s, [ALog (lit "WASM not initialized")], Ret tt).

(** [json!([{"method": .., "url": ..}, {"id": id}])] *)
Definition request_data (method path : list Z) (id : Z) : Value :=
  VArray [VObject [(lit "method", VString method); (lit "url", VString path)];
          VObject [(lit "id", VNumber id)]].

(** The request handler [listen] passes to [nodehttp::create_server]. *)
Definition request_handler (method path : list Z) (res : conn) : M unit :=
  log 2 (lit "Received request: " ++ method ++ [32] ++ path);;
  if is_standard_method method then
    id ← fetch_add;
    let data := request_data method path id in
    log 1 (to_string data);;
    send_event (lit "http.request") data;;
    with_lock (register id res)
  else
    owning res (
      log 2 (lit "Invalid method `" ++ method ++ lit "`");;
      end_ res []).

(** The task [Server::listen] spawns for an accepted connection. *)
Definition connection_task (c : conn) (rd : option (list Z)) : M unit :=
  panic_on_err (handle_connection request_handler c rd).

(** [listen(port)] inside [handle_receive]. *)
Definition listen (port : Z) : M unit :=
  log 1 (lit "Listening on port " ++ itoa port);;
  server_listen port.

(** [map_to_iter]: the string-valued headers. *)
Fixpoint map_to_iter (m : list (list Z * Value)) : list (list Z * list Z) :=
  match m with
  | [] => []
  | (k, VString s) :: m' => (k, s) :: map_to_iter m'
  | _ :: m' => map_to_iter m'
  end.

(** The [Some(mut response)] arm of [http.end]: the head, then a string
    body as is or an object body serialized; [response] is dropped at the
    end of the arm. *)
Definition end_response (c : conn) (status_code : Z) (headers : list (list Z * Value))
    (body : Value) : M unit :=
  owning c (
    write_head c status_code (map_to_iter headers);;
    match body with
    | VString s => end_ c s
    | VObject o => end_ c (to_string (VObject o))
    | _ => print (lit "Invalid body type")
    end).

(** The socket operations [end_response c status_code headers body]
    completes, in order, when none of them fails: the head written, then
    for a string or an object body the chunk written and the flush.  The
    date is the one [write_head] reads. *)
Definition response_writes (c : conn) (status_code : Z) (date : list Z)
    (headers : list (list Z * Value)) (body : Value) : list Action :=
  AWrite c (encode_utf8 (head_text status_code date (map_to_iter headers)))
  :: match body with
     | VString s => [AWrite c (encode_utf8 (chunk_text s)); AFlush c]
     | VObject o => [AWrite c (encode_utf8 (chunk_text (to_string (VObject o)))); AFlush c]
     | _ => []
     end.

(** The [http.end] arm for [[Number(id), Number(status_code), Object(headers), body]],
    [index] and [status_code] being the two numbers [handle_receive] cast
    to [usize] and [u16]. *)
Definition http_end (index status_code : Z) (headers : list (list Z * Value)) (body : Value)
    : M unit :=
  log 3 (lit "index: " ++ itoa index);;
  with_lock (
    response ← take index;
    match response with
    | Some c => end_response c status_code headers body
    | None => print (lit "Invalid response id")
    end).

(** [json_value[i]] *)
Definition index_value (v : Value) (i : nat) : Value :=
  match v with
  | VArray l => nth i l VNull
  | _ => VNull
  end.

(** [handle_receive(json_value)] *)
Definition handle_receive (json_value : Value) : M unit :=
  log 1 (lit "Received JSON: " ++ to_string json_value);;
  let handle_data := index_value json_value 1 in
  match index_value json_value 0 with
  | VString t =>
      if zs_eqb t (lit "http.listen") then
        match handle_data with
        | VNumber port => listen (as_u16 port)
        | VFloat port => listen (f64_as_sat 65535 port)
        | _ => print (lit "Invalid port value")
        end
      else if zs_eqb t (lit "http.end") then
        match handle_data with
        | VArray [id; status_code; VObject headers; body] =>
            match number_as u64_max id, number_as 65535 status_code with
            | Some index, Some status_code => http_end index status_code headers body
            | _, _ => print (lit "Invalid http.end data")
            end
        | VArray _ => print (lit "Invalid http.end data")
        | _ => print (lit "Expected an array.")
        end
      else print (lit "Unknown method `" ++ t ++ lit "`")
  | _ => print (lit "Invalid handle type")
  end.

(** The task [h_se] spawns: [handle_receive(json_value).await.unwrap()]. *)
Definition receive_task (json_value : Value) : M unit :=
  panic_on_err (handle_receive json_value).

(** The guest command [[cmd, payload]]. *)
Definition command (cmd : string) (payload : Value) : Value :=
  VArray [VString (lit cmd); payload].

(** Whether a lock is held while a suspension point completes. *)
Fixpoint lock_held_across_await (held : bool) (t : list Action) : bool :=
  match t with
  | [] => false
  | ALock :: t' => lock_held_across_await true t'
  | AUnlock :: t' => lock_held_across_await false t'
  | (AWrite _ _ | AFlush _) :: t' => held || lock_held_across_await held t'
  | _ :: t' => lock_held_across_await held t'
  end.

(** The events a trace sends to the guest. *)
Fixpoint events (t : list Action) : list (list Z * Value) :=
  match t with
  | [] => []
  | AEvent ty d :: t' => (ty, d) :: events t'
  | _ :: t' => events t'
  end.

(** A trace that only prints. *)
Definition only_logs (t : list Action) : bool :=
  forallb (fun a => match a with ALog _ => true | _ => false end) t.

(** A computation that leaves the id counter and the registry as they are
    and sends no event to the guest. *)
Definition frame {A} (m : M A) : Prop :=
  forall s, next_id (fst (fst (m s))) = next_id s
            /\ registry (fst (fst (m s))) = registry s
            /\ events (snd (fst (m s))) = [].

(** A computation that leaves the id counter as it is. *)
Definition keeps_id {A} (m : M A) : Prop :=
  forall s, next_id (fst (fst (m s))) = next_id s.

(** Reading back a [{:X}] size line. *)
Definition is_upper_hex (d : Z) : bool := in_range 48 57 d || in_range 65 70 d.

Definition upper_hex_value (ds : list Z) : Z :=
  fold_left (fun acc d => acc * 16 + (if d <=? 57 then d - 48 else d - 55)) ds 0.

(** Whether a trace touches connection [c]. *)
Definition touches (c : conn) (a : Action) : bool :=
  match a with
  | AWrite c' _ | AFlush c' | AClose c' => Nat.eqb c c'
  | _ => false
  end.

(** A character that survives the transport: a Unicode scalar value
    other than NUL. *)
Definition good (c : Z) : bool := is_scalar c && negb (c =? 0).

(* ------------------------------------------------------------------ *)
(** ** More of main.rs *)

(** [spectest::print_char(ch)] on the line buffer [buffer]: a newline
    prints the buffered line with [String::from_utf16(&buffer).unwrap()]
    ([None]: the [unwrap] panics) and clears the buffer; a carriage return
    is dropped; any other [ch] is pushed as [ch as u16]. *)
Definition print_char (buffer : list Z) (ch : Z) : option (list Z * list Action) :=
  if ch =? 10 then
    match from_utf16 buffer with
    | Some line => Some ([], [ALog line])
    | None => None
    end
  else if negb (ch =? 13) then Some (buffer ++ [Z.land ch 65535], [])
  else Some (buffer, []).

(** The guest calling [print_char] once per element of [chs]. *)
Fixpoint print_chars (buffer : list Z) (chs : list Z) : option (list Z * list Action) :=
  match chs with
  | [] => Some (buffer, [])
  | ch :: chs' =>
      match print_char buffer ch with
      | Some (buffer', t) =>
          match print_chars buffer' chs' with
          | Some (buffer'', t') => Some (buffer'', t ++ t')
          | None => None
          end
      | None => None
      end
  end.

(** The guest calling [h_sd] once per element of [chs], then [h_se]. *)
Definition guest_send (chs : list Z) : list Z * list Action * option Value :=
  h_se (fold_left h_sd chs []).

(** Digits of [<usize as FromStr>::from_str]: [None] on a non-digit or
    past [usize::MAX]. *)
Definition digits_usize (ds : list Z) : option Z :=
  if forallb is_digit ds then
    let n := digits_value 0 ds in if n <=? u64_max then Some n else None
  else None.

(** [<usize as FromStr>::from_str]: not empty, an optional leading [+]
    that is not the whole string, then decimal digits. *)
Definition parse_usize (src : list Z) : option Z :=
  match src with
  | [] => None
  | c :: rest =>
      if c =? 43 then match rest with [] => None | _ => digits_usize rest end
      else digits_usize src
  end.

(** The log level [main] sets from the [-l] option:
    [matches.get_one("log_level").unwrap_or(&"0").parse::<usize>().unwrap_or(0)]. *)
Definition log_level_of (arg : option (list Z)) : Z :=
  let a := match arg with Some a => a | None => lit "0" end in
  match parse_usize a with Some n => n | None => 0 end.

(** A guest command's effect on the response registry: it sends no event,
    and the registry after it is the one before, or that one less one key. *)
Definition takes_at_most_one {A} (m : M A) : Prop :=
  forall s, events (snd (fst (m s))) = []
            /\ (registry (fst (fst (m s))) = registry s
                \/ exists k, registry (fst (fst (m s))) = delete k (registry s)).

(* ================================================================== *)
(** * Proofs *)

Ltac zbool :=
  repeat match goal with
  | |- context [?x =? ?y] =>
      first [ replace (x =? y) with false by (symmetry; apply Z.eqb_neq; lia)
            | replace (x =? y) with true by (symmetry; apply Z.eqb_eq; lia) ]
  | |- context [?x <? ?y] =>
      first [ replace (x <? y) with false by (symmetry; apply Z.ltb_ge; lia)
            | replace (x <? y) with true by (symmetry; apply Z.ltb_lt; lia) ]
  | |- context [?x <=? ?y] =>
      first [ replace (x <=? y) with false by (symmetry; apply Z.leb_gt; lia)
            | replace (x <=? y) with true by (symmetry; apply Z.leb_le; lia) ]
  end; simpl.

Section value_ind'.
Variable P : Value -> Prop.
Hypothesis HNull : P VNull.
Hypothesis HBool : forall b, P (VBool b).
Hypothesis HNumber : forall n, P (VNumber n).
Hypothesis HFloat : forall f, P (VFloat f).
Hypothesis HString : forall s, P (VString s).
Hypothesis HArray : forall l, Forall P l -> P (VArray l).
Hypothesis HObject : forall m, Forall (fun kv => P (snd kv)) m -> P (VObject m).

Fixpoint value_ind' (v : Value) : P v :=
  match v with
  | VNull => HNull
  | VBool b => HBool b
  | VNumber n => HNumber n
  | VFloat f => HFloat f
  | VString s => HString s
  | VArray l =>
      HArray l ((fix go (l : list Value) : Forall P l :=
                   match l with
                   | [] => @List.Forall_nil _ P
                   | x :: l' => @List.Forall_cons _ P x l' (value_ind' x) (go l')
                   end) l)
  | VObject m =>
      HObject m ((fix go (m : list (list Z * Value)) : Forall (fun kv => P (snd kv)) m :=
                    match m with
                    | [] => @List.Forall_nil _ _
                    | (k, x) :: m' => @List.Forall_cons _ (fun kv => P (snd kv)) (k, x) m'
                                         (value_ind' x) (go m')
                    end) m)
  end.
End value_ind'.

Lemma str_cmp_antisym a b : str_cmp a b = Lt -> str_cmp b a = Gt.
Proof.
  revert b; induction a as [|x a IH]; intros [|y b] H; simpl in *; try discriminate; auto.
  destruct (x ?= y) eqn:E; try discriminate.
  - apply Z.compare_eq in E; subst. rewrite Z.compare_refl. auto.
  - rewrite Z.compare_antisym, E. reflexivity.
Qed.

Lemma map_insert_last k v (acc : list (list Z * Value)) :
  (forall kv, In kv acc -> str_cmp (fst kv) k = Lt) ->
  map_insert k v acc = acc ++ [(k, v)].
Proof.
  induction acc as [|[k' v'] acc IH]; intros H; simpl; auto.
  rewrite (str_cmp_antisym k' k) by (apply (H (k', v')); left; auto).
  f_equal. apply IH. intros kv Hin. apply H. right; auto.
Qed.

Lemma digits_value_app acc l1 l2 :
  digits_value acc (l1 ++ l2) = digits_value (digits_value acc l1) l2.
Proof. revert acc; induction l1; simpl; auto. Qed.

Lemma dec_digits_S f n :
  dec_digits (S f) n = if n <? 10 then [48 + n] else dec_digits f (n / 10) ++ [48 + n mod 10].
Proof. reflexivity. Qed.

Lemma dec_digits_spec f n :
  0 <= n < 10 ^ Z.of_nat (S f) ->
  exists c t, dec_digits (S f) n = c :: t
    /\ Forall (fun d => is_digit d = true) (c :: t)
    /\ digits_value 0 (c :: t) = n
    /\ (c = 48 -> t = []).
Proof.
  revert n; induction f as [|f IH]; intros n Hn.
  - simpl in Hn. exists (48 + n), []. rewrite dec_digits_S. zbool.
    repeat split; auto. constructor; auto. unfold is_digit; zbool. reflexivity.
    lia.
  - destruct (Z.ltb_spec n 10) as [Hlt|Hge].
    + exists (48 + n), []. rewrite dec_digits_S. rewrite (proj2 (Z.ltb_lt n 10) Hlt).
      repeat split; auto. constructor; auto. unfold is_digit; zbool. reflexivity.
      simpl. lia.
    + destruct (IH (n / 10)) as (c & t & Hd & Hall & Hv & H48).
      { split. apply Z.div_pos; lia.
        apply Z.div_lt_upper_bound; [lia|].
        rewrite Nat2Z.inj_succ, Z.pow_succ_r in Hn by lia. lia. }
      exists c, (t ++ [48 + n mod 10]).
      rewrite dec_digits_S. rewrite (proj2 (Z.ltb_ge n 10) Hge), Hd.
      assert (Hm : 0 <= n mod 10 < 10) by (apply Z.mod_pos_bound; lia).
      repeat split.
      * rewrite app_comm_cons. apply Forall_app. split; auto.
        constructor; auto. unfold is_digit; zbool. reflexivity.
      * rewrite app_comm_cons, digits_value_app, Hv. simpl.
        pose proof (Z.div_mod n 10). lia.
      * intros Hc. exfalso. subst c. specialize (H48 eq_refl). subst t.
        simpl in Hv. assert (n / 10 >= 1) by (apply Z.le_ge, Z.div_le_lower_bound; lia). lia.
Qed.


Lemma is_digit_range c : is_digit c = true -> 48 <= c <= 57.
Proof. unfold is_digit. intros H. apply andb_prop in H as [H1 H2]. apply Z.leb_le in H1, H2. lia. Qed.

Lemma dec_digits_digits f n : 0 <= n -> forallb is_digit (dec_digits f n) = true.
Proof.
  revert n; induction f as [|f IH]; intros n Hn; [reflexivity|].
  rewrite dec_digits_S. destruct (Z.ltb_spec n 10).
  - simpl. unfold is_digit. zbool. reflexivity.
  - rewrite forallb_app, IH by (apply Z.div_pos; lia). simpl.
    pose proof (Z.mod_pos_bound n 10). unfold is_digit. zbool. reflexivity.
Qed.

Lemma dec_digits_cons f n : exists c t, dec_digits (S f) n = c :: t.
Proof.
  rewrite dec_digits_S. destruct (n <? 10); [eauto|].
  destruct (dec_digits f (n / 10)) as [|c t]; simpl; eauto.
Qed.

Lemma overflow_false a b c :
  0 <= a -> 0 <= b <= 9 -> a * 10 + b <= c -> overflow a b c = false.
Proof.
  intros Ha Hb Hc. unfold overflow.
  pose proof (Z.div_mod c 10 ltac:(lia)). pose proof (Z.mod_pos_bound c 10 ltac:(lia)).
  destruct (Z.leb_spec (c / 10) a); [|reflexivity].
  destruct (Z.ltb_spec (c / 10) a); [lia|]. simpl. apply Z.ltb_ge. lia.
Qed.

Lemma digits_value_ge acc ds :
  0 <= acc -> forallb is_digit ds = true -> acc <= digits_value acc ds.
Proof.
  revert acc; induction ds as [|d ds IH]; intros acc Ha H; simpl in *; [lia|].
  apply andb_prop in H as [Hd H]. apply is_digit_range in Hd.
  specialize (IH (acc * 10 + (d - 48)) ltac:(lia) H). lia.
Qed.

Lemma integer_loop_digits pos acc ds r :
  0 <= acc -> forallb is_digit ds = true -> is_digit (peek_or_null r) = false ->
  digits_value acc ds <= u64_max ->
  integer_loop pos acc (ds ++ r) = parse_number pos (digits_value acc ds) r.
Proof.
  revert acc; induction ds as [|d ds IH]; intros acc Ha Hds Hr Hv; simpl in *.
  - destruct r as [|c r]; simpl in *; [reflexivity|]. rewrite Hr. reflexivity.
  - apply andb_prop in Hds as [Hd Hds]. rewrite Hd. apply is_digit_range in Hd.
    pose proof (digits_value_ge (acc * 10 + (d - 48)) ds ltac:(lia) Hds).
    rewrite overflow_false by lia. apply IH; auto; lia.
Qed.

Lemma parse_integer_dec pos n rest :
  0 <= n <= u64_max -> is_digit (peek_or_null rest) = false ->
  parse_integer pos (dec_digits 20 n ++ rest) = parse_number pos n rest.
Proof.
  intros Hn Hr.
  destruct (dec_digits_spec 19 n) as (c & t & Heq & Hall & Hv & H48).
  { split; [lia|]. apply Z.le_lt_trans with u64_max; [lia|reflexivity]. }
  rewrite Heq. cbn [app]. unfold parse_integer.
  destruct (Z.eqb_spec c 48) as [E|E].
  - subst c. rewrite (H48 eq_refl) in Hv |- *. cbn [app]. rewrite Hr.
    simpl in Hv. subst n. reflexivity.
  - assert (Hc : is_digit c = true) by (inversion Hall; auto). rewrite Hc.
    assert (Ht : forallb is_digit t = true).
    { apply forallb_forall. intros x Hx. pose proof (Forall_inv_tail Hall) as Ht'.
      rewrite List.Forall_forall in Ht'. auto. }
    apply is_digit_range in Hc. cbn [digits_value] in Hv.
    replace (0 * 10 + (c - 48)) with (c - 48) in Hv by lia.
    rewrite integer_loop_digits; [congruence | lia | exact Ht | exact Hr | lia].
Qed.

Lemma delim_cases rest :
  delim rest = true -> rest = [] \/ exists c r, rest = c :: r /\ (c = 44 \/ c = 93 \/ c = 125).
Proof.
  destruct rest as [|c r]; simpl; auto. intros H. right. exists c, r. split; auto.
  repeat (apply orb_prop in H as [H|H]); apply Z.eqb_eq in H; auto.
Qed.

Lemma is_scalar_range c :
  is_scalar c = true -> 0 <= c <= 1114111 /\ ~ (55296 <= c <= 57343).
Proof.
  unfold is_scalar. intros H.
  apply orb_prop in H as [H|H]; apply andb_prop in H as [H1 H2];
    rewrite ?Z.leb_le, ?Z.ltb_lt in H1, H2; lia.
Qed.

Lemma hex_val_hex_lower d : 0 <= d < 16 -> hex_val (hex_lower d) = Some d.
Proof.
  intros H. unfold hex_lower, hex_val.
  destruct (Z.ltb_spec d 10); zbool; f_equal; lia.
Qed.

Lemma parse_escape_u c X :
  0 <= c < 32 ->
  parse_escape (117 :: 48 :: 48 :: hex_lower (c / 16) :: hex_lower (c mod 16) :: X) = Ok (c, X).
Proof.
  intros H. unfold parse_escape, parse_hex4. cbn -[hex_lower hex_val].
  change (hex_val 48) with (Some 0).
  assert (H1 : 0 <= c / 16 < 16) by (split; [apply Z.div_pos|apply Z.div_lt_upper_bound]; lia).
  assert (H2 : 0 <= c mod 16 < 16) by (apply Z.mod_pos_bound; lia).
  rewrite (hex_val_hex_lower _ H1), (hex_val_hex_lower _ H2).
  replace (((0 * 16 + 0) * 16 + c / 16) * 16 + c mod 16) with c
    by (pose proof (Z.div_mod c 16); lia).
  cbn [res_bind]. zbool. reflexivity.
Qed.

Lemma parse_str_backslash fuel acc s' :
  parse_str (S fuel) acc (92 :: s') =
  let* (e, s'') := parse_escape s' in parse_str fuel (acc ++ [e]) s''.
Proof. reflexivity. Qed.

Lemma parse_str_plain fuel acc c s' :
  c <> 34 -> c <> 92 -> 32 <= c ->
  parse_str (S fuel) acc (c :: s') = parse_str fuel (acc ++ [c]) s'.
Proof. intros. simpl. zbool. reflexivity. Qed.

Lemma escape_char_cons c : exists e es, escape_char c = e :: es.
Proof.
  unfold escape_char.
  repeat match goal with |- context [if ?b then _ else _] => destruct b end; eauto.
Qed.

Lemma length_escaped s : (length s <= length (flat_map escape_char s))%nat.
Proof.
  induction s as [|c s IH]; simpl; [lia|].
  destruct (escape_char_cons c) as (e & es & ->). simpl. rewrite length_app. lia.
Qed.

Lemma parse_str_escaped fuel acc s rest :
  forallb is_scalar s = true -> (length s < fuel)%nat ->
  parse_str fuel acc (flat_map escape_char s ++ 34 :: rest) = Ok (acc ++ s, rest).
Proof.
  revert fuel acc; induction s as [|c s IH]; intros fuel acc Hs Hf.
  - destruct fuel; [simpl in Hf; lia|]. simpl. rewrite app_nil_r. reflexivity.
  - destruct fuel as [|fuel]; [simpl in Hf; lia|].
    simpl in Hs. apply andb_prop in Hs as [Hc Hs].
    assert (Hf' : (length s < fuel)%nat) by (simpl in Hf; lia).
    assert (Hacc : forall e, (acc ++ [e]) ++ s = acc ++ e :: s)
      by (intros; rewrite <- app_assoc; reflexivity).
    cbn [flat_map]. rewrite <- app_assoc. unfold escape_char.
    destruct (Z.eqb_spec c 34) as [->|N1];
      [simpl; rewrite IH, Hacc; auto|].
    destruct (Z.eqb_spec c 92) as [->|N2];
      [simpl; rewrite IH, Hacc; auto|].
    destruct (Z.eqb_spec c 8) as [->|N3];
      [simpl; rewrite IH, Hacc; auto|].
    destruct (Z.eqb_spec c 12) as [->|N4];
      [simpl; rewrite IH, Hacc; auto|].
    destruct (Z.eqb_spec c 10) as [->|N5];
      [simpl; rewrite IH, Hacc; auto|].
    destruct (Z.eqb_spec c 13) as [->|N6];
      [simpl; rewrite IH, Hacc; auto|].
    destruct (Z.eqb_spec c 9) as [->|N7];
      [simpl; rewrite IH, Hacc; auto|].
    destruct (Z.ltb_spec c 32) as [L|L].
    + cbn [app]. rewrite parse_str_backslash, parse_escape_u.
      * cbn [res_bind]. rewrite IH, Hacc; auto.
      * apply is_scalar_range in Hc. lia.
    + cbn [app]. rewrite parse_str_plain by auto. rewrite IH, Hacc; auto.
Qed.

Lemma to_string_array x l :
  to_string (VArray (x :: l)) = 91 :: to_string x ++ ser_tail l ++ [93].
Proof.
  reflexivity.
Qed.

Lemma to_string_object k x m :
  to_string (VObject ((k, x) :: m)) =
  123 :: format_escaped_str k ++ 58 :: to_string x ++ obj_tail m ++ [125].
Proof.
  reflexivity.
Qed.

Lemma u64_max_lt : u64_max < 10 ^ 20.
Proof. reflexivity. Qed.

Lemma pow63_lt : 2 ^ 63 < 10 ^ 20.
Proof. reflexivity. Qed.

Lemma pow63_u64 : 2 ^ 63 <= u64_max.
Proof. apply Z.leb_le. reflexivity. Qed.

(** ** The text of a float *)

Lemma shortest_search_nonneg m e fuel k : 0 < m -> 0 <= fst (shortest_search m e fuel k).
Proof.
  intros Hm. revert k; induction fuel as [|f IH]; intros k; [simpl; lia|].
  unfold shortest_search. fold (shortest_search m e f). cbv zeta.
  destruct (_ <=? _); [|apply IH].
  cbn [fst]. apply Z.le_trans with (2 := Z.le_max_l _ _).
  assert (0 <= 2 ^ Z.max (e - 2) 0 * 10 ^ Z.max (- k) 0)
    by (apply Z.mul_nonneg_nonneg; apply Z.pow_nonneg; lia).
  assert (0 < 10 ^ Z.max k 0 * 2 ^ Z.max (- (e - 2)) 0)
    by (apply Z.mul_pos_pos; apply Z.pow_pos_nonneg; lia).
  assert (0 <= (if (m =? 2 ^ 52) && (-1074 <? e) then 4 * m - 1 else 4 * m - 2))
    by (destruct (_ && _); lia).
  destruct (Z.even m).
  - apply Z.div_pos; [|lia]. nia.
  - assert (0 <= (if (m =? 2 ^ 52) && (-1074 <? e) then 4 * m - 1 else 4 * m - 2)
                 * (2 ^ Z.max (e - 2) 0 * 10 ^ Z.max (- k) 0)
                 / (10 ^ Z.max k 0 * 2 ^ Z.max (- (e - 2)) 0)) by (apply Z.div_pos; [nia|lia]).
    lia.
Qed.

Lemma shortest_nonneg m e : 0 < m -> 0 <= fst (shortest m e).
Proof. intros Hm. unfold shortest. apply shortest_search_nonneg, Hm. Qed.

Lemma forallb_repeat (f : Z -> bool) x n : f x = true -> forallb f (repeat x n) = true.
Proof. intros H. induction n; simpl; rewrite ?H, ?IHn; reflexivity. Qed.

Lemma forallb_firstn (f : Z -> bool) n l : forallb f l = true -> forallb f (firstn n l) = true.
Proof.
  revert l; induction n as [|n IH]; intros [|x l] H; simpl in *; auto.
  apply andb_prop in H as [H1 H2]. rewrite H1. apply IH, H2.
Qed.

Lemma forallb_skipn (f : Z -> bool) n l : forallb f l = true -> forallb f (skipn n l) = true.
Proof.
  revert l; induction n as [|n IH]; intros [|x l] H; simpl in *; auto.
  apply andb_prop in H as [H1 H2]. apply IH, H2.
Qed.

Lemma ryu_pretty_text d k : 0 <= d -> number_text (ryu_pretty d k).
Proof.
  intros Hd. unfold ryu_pretty. cbv zeta.
  pose proof (dec_digits_digits 20 d Hd) as Hds.
  destruct (dec_digits_cons 19 d) as (c & t & Hct).
  destruct ((0 <=? k) && (_ <=? 16)).
  { exists (dec_digits 20 d ++ repeat 48 (Z.to_nat k)). split; [|split].
    - rewrite forallb_app, Hds, forallb_repeat; reflexivity.
    - rewrite Hct. discriminate.
    - left. exists [48]. split; [reflexivity|]. rewrite <- app_assoc. reflexivity. }
  destruct ((0 <? _) && (_ <=? 16)) eqn:E2.
  { apply andb_prop in E2 as [E2 _]. apply Z.ltb_lt in E2.
    exists (firstn (Z.to_nat (Z.of_nat (length (dec_digits 20 d)) + k)) (dec_digits 20 d)).
    split; [|split].
    - apply forallb_firstn, Hds.
    - rewrite Hct in E2 |- *. destruct (Z.to_nat _) eqn:En; [lia|]. discriminate.
    - left. eexists. split; [apply forallb_skipn, Hds|reflexivity]. }
  destruct ((-5 <? _) && (_ <=? 0)).
  { exists [48]. split; [reflexivity|split; [discriminate|]].
    left. exists (repeat 48 (Z.to_nat (- (Z.of_nat (length (dec_digits 20 d)) + k))) ++ dec_digits 20 d).
    split; [rewrite forallb_app, Hds, forallb_repeat; reflexivity|reflexivity]. }
  destruct (_ =? 1).
  { exists (dec_digits 20 d). split; [exact Hds|split; [rewrite Hct; discriminate|]].
    right. left. eexists. reflexivity. }
  rewrite Hct in Hds |- *. exists [c]. simpl in Hds. apply andb_prop in Hds as [Hc Ht].
  split; [simpl; rewrite Hc; reflexivity|split; [discriminate|]].
  right. right. exists t, (Z.of_nat (length (c :: t)) + k - 1). split; [exact Ht|reflexivity].
Qed.

Lemma fmt_f64_text f :
  fmt_f64 f = lit "null"
  \/ exists (sg : bool) b, fmt_f64 f = (if sg then [45] else []) ++ b /\ number_text b.
Proof.
  destruct f as [sg|sg| |sg m e]; [right | left | left | right]; try reflexivity.
  - exists sg, (lit "0.0"). split; [reflexivity|].
    exists [48]. split; [reflexivity|split; [discriminate|]]. left. exists [48]. split; reflexivity.
  - cbn [fmt_f64]. pose proof (shortest_nonneg (Zpos m) e ltac:(lia)) as H.
    destruct (shortest (Zpos m) e) as [d k]. exists sg, (ryu_pretty d k).
    split; [reflexivity|]. apply ryu_pretty_text, H.
Qed.

Lemma number_text_head b : number_text b -> exists c t, b = c :: t /\ is_digit c = true.
Proof.
  intros (a & Ha & Hne & H). destruct a as [|c a]; [congruence|].
  simpl in Ha. apply andb_prop in Ha as [Hc _].
  destruct H as [(bb & _ & ->)|[(x & ->)|(bb & x & _ & ->)]]; eauto.
Qed.

Lemma digit_head c : is_digit c = true -> is_ws c = false /\ c <> 93 /\ c <> 125 /\ c <> 44.
Proof.
  intros H. apply is_digit_range in H. unfold is_ws. zbool. repeat split; lia.
Qed.

Lemma to_string_head v :
  exists c t, to_string v = c :: t /\ is_ws c = false /\ c <> 93 /\ c <> 125 /\ c <> 44.
Proof.
  destruct v as [| [] | n | f | s | [|x l] | [|[k x] m]];
    try (eexists _, _; split; [reflexivity|]; repeat split; discriminate).
  - cbn [to_string]. unfold itoa. destruct (Z.ltb_spec n 0).
    + eexists _, _; split; [reflexivity|]; repeat split; discriminate.
    + pose proof (dec_digits_digits 20 n ltac:(lia)) as Hall.
      destruct (dec_digits_cons 19 n) as (c & t & Hct). rewrite Hct in Hall |- *.
      simpl in Hall. apply andb_prop in Hall as [Hc _].
      exists c, t. split; [reflexivity|]. apply digit_head, Hc.
  - cbn [to_string]. destruct (fmt_f64_text f) as [->|(sg & b & -> & Hb)].
    + eexists _, _; split; [reflexivity|]; repeat split; discriminate.
    + destruct sg.
      * eexists _, _; split; [reflexivity|]; repeat split; discriminate.
      * destruct (number_text_head b Hb) as (c & t & -> & Hc).
        exists c, t. split; [reflexivity|]. apply digit_head, Hc.
Qed.

Lemma wf_array okf l :
  wf_value_with okf (VArray l) = true -> Forall (fun y => wf_value_with okf y = true) l.
Proof.
  induction l as [|y l IH]; simpl; intros H; auto.
  apply andb_prop in H as [H1 H2]. constructor; auto.
Qed.

Lemma wf_object okf m :
  wf_value_with okf (VObject m) = true ->
  keys_sorted m = true /\
  Forall (fun kv => forallb is_scalar (fst kv) = true /\ wf_value_with okf (snd kv) = true) m.
Proof.
  cbn [wf_value_with]. intros H. apply andb_prop in H as [Hs H]. split; auto.
  clear Hs. induction m as [|[k y] m IH]; simpl in *; auto.
  apply andb_prop in H as [H H3]. apply andb_prop in H as [H1 H2].
  constructor; auto.
Qed.

Lemma vdepth_array l y : In y l -> (vdepth y < vdepth (VArray l))%nat.
Proof.
  induction l as [|z l IH]; simpl; [tauto|].
  intros [->|H]; [lia|]. specialize (IH H). simpl in IH. lia.
Qed.

Lemma vdepth_object m k y : In (k, y) m -> (vdepth y < vdepth (VObject m))%nat.
Proof.
  induction m as [|[k' z] m IH]; simpl; [tauto|].
  intros [E|H]; [injection E as -> ->; lia|]. specialize (IH H). simpl in IH. lia.
Qed.

Lemma length_ser_tail l : (length l <= length (ser_tail l))%nat.
Proof.
  induction l as [|y l IH]; simpl; [lia|]. rewrite length_app. lia.
Qed.

Lemma length_obj_tail m : (length m <= length (obj_tail m))%nat.
Proof.
  induction m as [|[k y] m IH]; cbn [obj_tail length]; [lia|].
  rewrite !length_app. cbn [length]. rewrite !length_app. lia.
Qed.

Lemma parse_value_array d s :
  parse_value (S (S d)) (91 :: s) = parse_seq (parse_value (S d)) (S (length s)) true [] s.
Proof. reflexivity. Qed.

Lemma parse_value_object d s :
  parse_value (S (S d)) (123 :: s) = parse_map (parse_value (S d)) (S (length s)) true [] s.
Proof. reflexivity. Qed.

Lemma parse_value_quote d s :
  parse_value (S d) (34 :: s) =
  let* (str, s'') := parse_str (length s) [] s in Ok (VString str, s'').
Proof. reflexivity. Qed.

Lemma parse_value_minus d s : parse_value (S d) (45 :: s) = parse_integer false s.
Proof. reflexivity. Qed.

Lemma parse_value_digit d c s :
  is_digit c = true -> parse_value (S d) (c :: s) = parse_integer true (c :: s).
Proof.
  intros H. pose proof H as H'. unfold is_digit in H'.
  apply andb_prop in H' as [H1 H2]. apply Z.leb_le in H1, H2.
  assert (E1 : is_ws c = false) by (unfold is_ws; zbool; reflexivity).
  assert (E2 : (c =? 110) = false) by (apply Z.eqb_neq; lia).
  assert (E3 : (c =? 116) = false) by (apply Z.eqb_neq; lia).
  assert (E4 : (c =? 102) = false) by (apply Z.eqb_neq; lia).
  assert (E5 : (c =? 45) = false) by (apply Z.eqb_neq; lia).
  cbn [parse_value skip_ws]. rewrite E1. cbv beta iota.
  rewrite E2, E3, E4, E5, H. cbv beta iota. reflexivity.
Qed.

(** ** How serde_json reads a number back *)

Lemma sim_err {A} e1 e2 r1 r2 : @sim A (Err e1) (Err e2) r1 r2.
Proof. exists (Err e1), (Err e2). repeat split; discriminate. Qed.

Lemma sim_same {A} (y : res A) r1 r2 :
  sim (res_bind y (fun a => Ok (a, r1))) (res_bind y (fun a => Ok (a, r2))) r1 r2.
Proof. exists y, y. repeat split; auto. Qed.

Lemma sim_ok {A} (a : A) r1 r2 : sim (Ok (a, r1)) (Ok (a, r2)) r1 r2.
Proof. exact (sim_same (Ok a) r1 r2). Qed.

Lemma sim_from_parts pos sig e r1 r2 :
  sim (from_parts_at pos sig e r1) (from_parts_at pos sig e r2) r1 r2.
Proof. apply sim_same. Qed.

Lemma sim_float_value x1 x2 r1 r2 :
  sim x1 x2 r1 r2 -> sim (float_value x1) (float_value x2) r1 r2.
Proof.
  intros (y1 & y2 & -> & -> & H).
  exists (res_bind y1 (fun f => Ok (VFloat f))), (res_bind y2 (fun f => Ok (VFloat f))).
  destruct y1 as [f1|e1], y2 as [f2|e2]; cbn; repeat split; try discriminate.
  - intros a E. injection E as <-. specialize (H f1 eq_refl). injection H as ->. reflexivity.
  - intros a E. injection E as <-. specialize (H f1 eq_refl). discriminate.
Qed.

Lemma skip_digits_app ds r :
  forallb is_digit ds = true -> is_digit (peek_or_null r) = false -> skip_digits (ds ++ r) = r.
Proof.
  induction ds as [|d ds IH]; intros Hds Hr; simpl in *.
  - destruct r as [|c r]; simpl in *; [reflexivity|]. rewrite Hr. reflexivity.
  - apply andb_prop in Hds as [Hd Hds]. rewrite Hd. apply IH; auto.
Qed.

Lemma delim_nondigit r : delim r = true -> is_digit (peek_or_null r) = false.
Proof.
  intros H. destruct (delim_cases r H) as [->|(c & r' & -> & [->|[->| ->]])]; reflexivity.
Qed.

Lemma delim_not_exp r : delim r = true -> is_exp_mark (peek_or_null r) = false.
Proof.
  intros H. destruct (delim_cases r H) as [->|(c & r' & -> & [->|[->| ->]])]; reflexivity.
Qed.

Lemma exponent_loop_sim pos sig st pe exp ds r1 r2 :
  forallb is_digit ds = true ->
  is_digit (peek_or_null r1) = false -> is_digit (peek_or_null r2) = false ->
  sim (exponent_loop pos sig st pe exp (ds ++ r1)) (exponent_loop pos sig st pe exp (ds ++ r2)) r1 r2.
Proof.
  revert exp; induction ds as [|d ds IH]; intros exp Hds H1 H2; simpl in *.
  - assert (E : forall r, is_digit (peek_or_null r) = false ->
              exponent_loop pos sig st pe exp r
              = from_parts_at pos sig (i32_saturate (if pe then st + exp else st - exp)) r).
    { intros [|c r] Hr; simpl in *; [reflexivity|]. rewrite Hr. reflexivity. }
    rewrite !E by assumption. apply sim_from_parts.
  - apply andb_prop in Hds as [Hd Hds]. rewrite Hd.
    destruct (overflow exp (d - 48) i32_max); [|apply IH; auto].
    unfold parse_exponent_overflow. destruct (negb _ && _); [apply sim_err|].
    rewrite !skip_digits_app by assumption. apply sim_ok.
Qed.

Lemma parse_exponent_digit pos sig st c s :
  is_digit c = true -> parse_exponent pos sig st (c :: s) = exponent_loop pos sig st true (c - 48) s.
Proof.
  intros H. pose proof (is_digit_range c H) as R.
  assert (c = 48 \/ c = 49 \/ c = 50 \/ c = 51 \/ c = 52 \/ c = 53 \/ c = 54 \/ c = 55
          \/ c = 56 \/ c = 57) as Hc by lia.
  repeat destruct Hc as [->|Hc]; try reflexivity. subst. reflexivity.
Qed.

Lemma parse_exponent_minus pos sig st c s :
  is_digit c = true -> parse_exponent pos sig st (45 :: c :: s) = exponent_loop pos sig st false (c - 48) s.
Proof. intros H. unfold parse_exponent. cbn -[is_digit]. rewrite H. reflexivity. Qed.

Lemma parse_exponent_sim pos sig st x r1 r2 :
  is_digit (peek_or_null r1) = false -> is_digit (peek_or_null r2) = false ->
  sim (parse_exponent pos sig st (itoa x ++ r1)) (parse_exponent pos sig st (itoa x ++ r2)) r1 r2.
Proof.
  intros H1 H2. unfold itoa. destruct (Z.ltb_spec x 0) as [Hx|Hx].
  - pose proof (dec_digits_digits 20 (- x) ltac:(lia)) as Hd.
    destruct (dec_digits_cons 19 (- x)) as (c & t & Hct). rewrite Hct in Hd |- *.
    simpl in Hd. apply andb_prop in Hd as [Hc Ht]. cbn [app].
    rewrite !parse_exponent_minus by exact Hc. apply exponent_loop_sim; auto.
  - pose proof (dec_digits_digits 20 x Hx) as Hd.
    destruct (dec_digits_cons 19 x) as (c & t & Hct). rewrite Hct in Hd |- *.
    simpl in Hd. apply andb_prop in Hd as [Hc Ht]. cbn [app].
    rewrite !parse_exponent_digit by exact Hc. apply exponent_loop_sim; auto.
Qed.

Lemma exponent_or_parts_delim pos sig e r1 r2 :
  delim r1 = true -> delim r2 = true ->
  sim (exponent_or_parts pos sig e r1) (exponent_or_parts pos sig e r2) r1 r2.
Proof.
  intros H1 H2. unfold exponent_or_parts. rewrite !delim_not_exp by assumption.
  apply sim_from_parts.
Qed.

Lemma exponent_or_parts_exp pos sig e x r1 r2 :
  delim r1 = true -> delim r2 = true ->
  sim (exponent_or_parts pos sig e (101 :: itoa x ++ r1))
      (exponent_or_parts pos sig e (101 :: itoa x ++ r2)) r1 r2.
Proof.
  intros H1 H2. unfold exponent_or_parts. cbn [peek_or_null tl is_exp_mark Z.eqb orb].
  apply parse_exponent_sim; apply delim_nondigit; assumption.
Qed.

Lemma decimal_loop_sim pos sig b a ds r1 r2 R1 R2 :
  forallb is_digit ds = true ->
  is_digit (peek_or_null r1) = false -> is_digit (peek_or_null r2) = false ->
  (forall sig' e', sim (exponent_or_parts pos sig' e' r1) (exponent_or_parts pos sig' e' r2) R1 R2) ->
  sim (decimal_loop pos sig b a (ds ++ r1)) (decimal_loop pos sig b a (ds ++ r2)) R1 R2.
Proof.
  revert sig a; induction ds as [|d ds IH]; intros sig a Hds H1 H2 HK; simpl in *.
  - assert (E : forall r, is_digit (peek_or_null r) = false ->
              decimal_loop pos sig b a r = decimal_end pos sig b a r).
    { intros [|c r] Hr; simpl in *; [reflexivity|]. rewrite Hr. reflexivity. }
    rewrite !E by assumption. unfold decimal_end.
    destruct (a =? 0); [destruct r1, r2; apply sim_err|apply HK].
  - apply andb_prop in Hds as [Hd Hds]. rewrite Hd.
    destruct (overflow sig (d - 48) u64_max); [|apply IH; auto].
    unfold parse_decimal_overflow.
    rewrite !app_comm_cons, !skip_digits_app by (simpl; rewrite ?Hd; auto). apply HK.
Qed.

Lemma long_integer_loop_sim pos sig e ds r1 r2 R1 R2 :
  forallb is_digit ds = true ->
  (forall e', sim (long_integer_loop pos sig e' r1) (long_integer_loop pos sig e' r2) R1 R2) ->
  sim (long_integer_loop pos sig e (ds ++ r1)) (long_integer_loop pos sig e (ds ++ r2)) R1 R2.
Proof.
  revert e; induction ds as [|d ds IH]; intros e Hds HK; simpl in *; [apply HK|].
  apply andb_prop in Hds as [Hd Hds]. rewrite Hd. apply IH; auto.
Qed.

Lemma integer_loop_sim pos acc ds r1 r2 R1 R2 :
  forallb is_digit ds = true ->
  is_digit (peek_or_null r1) = false -> is_digit (peek_or_null r2) = false ->
  (forall n, sim (parse_number pos n r1) (parse_number pos n r2) R1 R2) ->
  (forall sig e, sim (long_integer_loop pos sig e r1) (long_integer_loop pos sig e r2) R1 R2) ->
  sim (integer_loop pos acc (ds ++ r1)) (integer_loop pos acc (ds ++ r2)) R1 R2.
Proof.
  revert acc; induction ds as [|d ds IH]; intros acc Hds H1 H2 HN HL; simpl in *.
  - assert (E : forall r, is_digit (peek_or_null r) = false ->
              integer_loop pos acc r = parse_number pos acc r).
    { intros [|c r] Hr; simpl in *; [reflexivity|]. rewrite Hr. reflexivity. }
    rewrite !E by assumption. apply HN.
  - apply andb_prop in Hds as [Hd Hds]. rewrite Hd.
    destruct (overflow acc (d - 48) u64_max); [|apply IH; auto].
    apply sim_float_value. apply long_integer_loop_sim; auto.
Qed.

Lemma parse_integer_sim pos a r1 r2 R1 R2 :
  forallb is_digit a = true -> a <> [] ->
  is_digit (peek_or_null r1) = false -> is_digit (peek_or_null r2) = false ->
  (forall n, sim (parse_number pos n r1) (parse_number pos n r2) R1 R2) ->
  (forall sig e, sim (long_integer_loop pos sig e r1) (long_integer_loop pos sig e r2) R1 R2) ->
  sim (parse_integer pos (a ++ r1)) (parse_integer pos (a ++ r2)) R1 R2.
Proof.
  intros Ha Hne H1 H2 HN HL. destruct a as [|c t]; [congruence|].
  simpl in Ha. apply andb_prop in Ha as [Hc Ht]. cbn [app]. unfold parse_integer.
  destruct (c =? 48).
  - destruct t as [|d t].
    + cbn [app]. rewrite H1, H2. apply HN.
    + simpl in Ht. apply andb_prop in Ht as [Hd _]. cbn [app peek_or_null]. rewrite Hd.
      apply sim_err.
  - rewrite Hc. apply integer_loop_sim; auto.
Qed.

Lemma number_text_sim pos b r1 r2 :
  number_text b -> delim r1 = true -> delim r2 = true ->
  sim (parse_integer pos (b ++ r1)) (parse_integer pos (b ++ r2)) r1 r2.
Proof.
  intros (a & Ha & Hne & Hb) D1 D2.
  pose proof (delim_nondigit r1 D1) as N1. pose proof (delim_nondigit r2 D2) as N2.
  destruct Hb as [(bb & Hbb & ->)|[(x & ->)|(bb & x & Hbb & ->)]]; rewrite <- !app_assoc;
    cbn [app]; apply parse_integer_sim; auto.
  - intros n. unfold parse_number. cbn [peek_or_null tl Z.eqb]. apply sim_float_value.
    apply decimal_loop_sim; auto. intros; apply exponent_or_parts_delim; auto.
  - intros sig e. cbn -[is_digit decimal_loop]. apply decimal_loop_sim; auto.
    intros; apply exponent_or_parts_delim; auto.
  - intros n. unfold parse_number. cbn [peek_or_null tl Z.eqb is_exp_mark orb].
    apply sim_float_value. apply parse_exponent_sim; auto.
  - intros sig e. cbn -[is_digit parse_exponent]. apply parse_exponent_sim; auto.
  - intros n. unfold parse_number. cbn [peek_or_null tl Z.eqb]. apply sim_float_value.
    rewrite <- !app_assoc. cbn [app].
    apply decimal_loop_sim; auto. intros; apply exponent_or_parts_exp; auto.
  - intros sig e. cbn -[is_digit decimal_loop]. rewrite <- !app_assoc. cbn [app].
    apply decimal_loop_sim; auto. intros; apply exponent_or_parts_exp; auto.
Qed.

(** The text serde_json writes for a float is read back whole: what
    follows it does not change how it is read. *)
Lemma fmt_f64_sim f d1 d2 r1 r2 :
  delim r1 = true -> delim r2 = true ->
  sim (parse_value (S d1) (fmt_f64 f ++ r1)) (parse_value (S d2) (fmt_f64 f ++ r2)) r1 r2.
Proof.
  intros D1 D2. destruct (fmt_f64_text f) as [->|(sg & b & -> & Hb)].
  - apply sim_ok.
  - destruct sg; cbn [app].
    + rewrite !parse_value_minus. apply number_text_sim; auto.
    + destruct (number_text_head b Hb) as (c & t & -> & Hc). cbn [app].
      rewrite !parse_value_digit by exact Hc.
      change (c :: t ++ r1) with ((c :: t) ++ r1). change (c :: t ++ r2) with ((c :: t) ++ r2).
      apply number_text_sim; auto.
Qed.

Lemma f64_eqb_eq f g : f64_eqb f g = true -> f = g.
Proof.
  destruct f as [s|s| |s m e], g as [s'|s'| |s' m' e']; cbn; intros H; try discriminate.
  - apply Bool.eqb_prop in H. congruence.
  - apply Bool.eqb_prop in H. congruence.
  - reflexivity.
  - apply andb_prop in H as [H H3]. apply andb_prop in H as [H1 H2].
    apply Bool.eqb_prop in H1. apply Pos.eqb_eq in H2. apply Z.eqb_eq in H3. congruence.
Qed.

Lemma float_survives_parse f d rest :
  float_survives f = true -> delim rest = true ->
  parse_value (S d) (fmt_f64 f ++ rest) = Ok (VFloat f, rest).
Proof.
  unfold float_survives. intros Hs Hr.
  destruct (fmt_f64_sim f 0 d [] rest eq_refl Hr) as (y1 & y2 & E1 & E2 & Hy).
  rewrite app_nil_r in E1. rewrite E1 in Hs. rewrite E2.
  destruct y1 as [v|e]; cbn in Hs; [|discriminate].
  destruct v; try discriminate. apply f64_eqb_eq in Hs. subst.
  rewrite (Hy _ eq_refl). reflexivity.
Qed.

Lemma parse_seq_first pv n acc s :
  parse_seq pv (S n) true acc s =
  match skip_ws s with
  | [] => Err EofWhileParsingList
  | c :: s1 =>
      if c =? 93 then Ok (VArray acc, s1)
      else let* (v, s2) := pv (c :: s1) in parse_seq pv n false (acc ++ [v]) s2
  end.
Proof. reflexivity. Qed.

Lemma parse_seq_comma pv n acc s1 :
  parse_seq pv (S n) false acc (44 :: s1) =
  match skip_ws s1 with
  | [] => Err EofWhileParsingList
  | c2 :: _ =>
      if c2 =? 93 then Err TrailingComma
      else let* (v, s2) := pv s1 in parse_seq pv n false (acc ++ [v]) s2
  end.
Proof. reflexivity. Qed.

Ltac norm_app := repeat (rewrite <- app_assoc || rewrite <- app_comm_cons).

Lemma parse_seq_tail pv l n acc rest :
  Forall (fun y => forall r, delim r = true -> pv (to_string y ++ r) = Ok (y, r)) l ->
  (length l < n)%nat ->
  parse_seq pv n false acc (ser_tail l ++ 93 :: rest) = Ok (VArray (acc ++ l), rest).
Proof.
  revert n acc; induction l as [|y l IH]; intros n acc Hl Hn;
    (destruct n as [|n]; [simpl in Hn; lia|]).
  - cbn [ser_tail app]. rewrite app_nil_r. reflexivity.
  - inversion Hl as [|? ? Hpv Hl']; subst.
    destruct (to_string_head y) as (c & t & Hy & Hws & H93 & _).
    cbn [ser_tail]. norm_app.
    rewrite parse_seq_comma.
    rewrite (Hpv (ser_tail l ++ 93 :: rest)) by (destruct l; reflexivity).
    rewrite Hy. cbn [app skip_ws]. rewrite Hws. cbv beta iota.
    rewrite (proj2 (Z.eqb_neq c 93) H93). cbn [res_bind]. cbv beta iota.
    rewrite IH; auto; [|simpl in Hn; lia].
    rewrite <- app_assoc. reflexivity.
Qed.

Lemma parse_map_first_entry pv n acc k s3 :
  forallb is_scalar k = true ->
  parse_map pv (S n) true acc (format_escaped_str k ++ 58 :: s3) =
  let* (v, s4) := pv s3 in parse_map pv n false (map_insert k v acc) s4.
Proof.
  intros Hk. unfold format_escaped_str. norm_app. cbn [app].
  simpl. rewrite parse_str_escaped; auto.
  rewrite length_app. pose proof (length_escaped k). simpl. lia.
Qed.

Lemma parse_map_next_entry pv n acc k s3 :
  forallb is_scalar k = true ->
  parse_map pv (S n) false acc (44 :: format_escaped_str k ++ 58 :: s3) =
  let* (v, s4) := pv s3 in parse_map pv n false (map_insert k v acc) s4.
Proof.
  intros Hk. unfold format_escaped_str. norm_app. cbn [app].
  simpl. rewrite parse_str_escaped; auto.
  rewrite length_app. pose proof (length_escaped k). simpl. lia.
Qed.

Lemma parse_map_tail pv m n acc rest :
  Forall (fun kv => forallb is_scalar (fst kv) = true /\
           forall r, delim r = true -> pv (to_string (snd kv) ++ r) = Ok (snd kv, r)) m ->
  keys_sorted m = true ->
  (forall kv kv', In kv acc -> In kv' m -> str_cmp (fst kv) (fst kv') = Lt) ->
  (length m < n)%nat ->
  parse_map pv n false acc (obj_tail m ++ 125 :: rest) = Ok (VObject (acc ++ m), rest).
Proof.
  revert n acc; induction m as [|[k y] m IH]; intros n acc Hm Hs Hlt Hn;
    (destruct n as [|n]; [simpl in Hn; lia|]).
  - cbn [obj_tail app]. rewrite app_nil_r. reflexivity.
  - inversion Hm as [|? ? (Hk & Hpv) Hm']; subst. cbn [fst snd] in *.
    cbn [obj_tail]. norm_app.
    rewrite parse_map_next_entry by auto.
    rewrite (Hpv (obj_tail m ++ 125 :: rest)) by (destruct m as [|[]]; reflexivity).
    cbn [res_bind]. cbv beta iota.
    rewrite map_insert_last
      by (intros kv Hin; apply (Hlt kv (k, y)); [exact Hin | left; reflexivity]).
    cbn [keys_sorted] in Hs. apply andb_prop in Hs as [Hs1 Hs2].
    rewrite IH; auto.
    + rewrite <- app_assoc. reflexivity.
    + intros kv kv' Hin Hin'. apply in_app_or in Hin as [Hin|[<-|[]]].
      * apply Hlt; auto. right; auto.
      * rewrite forallb_forall in Hs1. specialize (Hs1 kv' Hin').
        cbn [fst]. destruct (str_cmp k (fst kv')); auto; discriminate.
    + simpl in Hn; lia.
Qed.

Lemma parse_number_pos n rest : delim rest = true -> parse_number true n rest = Ok (VNumber n, rest).
Proof.
  intros H. destruct (delim_cases rest H) as [->|(c & r & -> & [->|[->| ->]])]; reflexivity.
Qed.

Lemma parse_number_neg n rest :
  0 < n <= 2 ^ 63 -> delim rest = true -> parse_number false n rest = Ok (VNumber (- n), rest).
Proof.
  intros Hn H. unfold parse_number. rewrite (delim_not_exp rest H).
  replace (peek_or_null rest =? 46) with false
    by (destruct (delim_cases rest H) as [->|(c & r & -> & [->|[->| ->]])]; reflexivity).
  unfold wrapping_neg_i64, as_i64.
  destruct (Z.ltb_spec n (2 ^ 63)).
  - replace (n =? - 2 ^ 63) with false by (symmetry; apply Z.eqb_neq; lia).
    replace (0 <=? - n) with false by (symmetry; apply Z.leb_gt; lia). reflexivity.
  - assert (n = 2 ^ 63) as -> by lia. reflexivity.
Qed.

(** serde_json parses back what it serializes, below its depth limit,
    provided the floats it holds are read back as themselves. *)
Lemma parse_to_string okf
  (Hokf : forall f, okf f = true -> forall d rest, delim rest = true ->
                    parse_value (S d) (fmt_f64 f ++ rest) = Ok (VFloat f, rest)) v :
  forall depth rest, wf_value_with okf v = true -> (vdepth v < depth)%nat -> delim rest = true ->
  parse_value depth (to_string v ++ rest) = Ok (v, rest).
Proof.
  induction v as [ | b | n | f | s | l IH | m IH] using value_ind';
    intros depth rest Hwf Hd Hr; (destruct depth as [|d]; [simpl in Hd; lia|]).
  - reflexivity.
  - destruct b; reflexivity.
  - cbn [to_string]. unfold itoa.
    cbn [wf_value_with] in Hwf. apply andb_prop in Hwf as [Hlo Hhi].
    apply Z.leb_le in Hlo, Hhi. pose proof pow63_u64.
    destruct (Z.ltb_spec n 0) as [Hn|Hn].
    + cbn [app]. rewrite parse_value_minus, parse_integer_dec by (auto using delim_nondigit; lia).
      rewrite parse_number_neg by (auto; lia). rewrite Z.opp_involutive. reflexivity.
    + destruct (dec_digits_cons 19 n) as (c & t & Hdd).
      pose proof (dec_digits_digits 20 n Hn) as Hall. rewrite Hdd in Hall.
      simpl in Hall. apply andb_prop in Hall as [Hc _].
      rewrite Hdd. cbn [app]. rewrite parse_value_digit by exact Hc.
      change (c :: t ++ rest) with ((c :: t) ++ rest). rewrite <- Hdd.
      rewrite parse_integer_dec by (auto using delim_nondigit; lia).
      apply parse_number_pos, Hr.
  - cbn [to_string wf_value_with] in *. apply Hokf; auto.
  - cbn [to_string wf_value_with] in *. unfold format_escaped_str. cbn [app].
    rewrite parse_value_quote. norm_app. cbn [app].
    rewrite parse_str_escaped; auto.
    rewrite length_app. pose proof (length_escaped s). simpl. lia.
  - destruct d as [|d].
    { destruct l as [|x l]; [simpl in Hd; lia|].
      pose proof (vdepth_array (x :: l) x (or_introl eq_refl)). lia. }
    destruct l as [|x l]; [reflexivity|].
    apply wf_array in Hwf.
    rewrite to_string_array. cbn [app]. rewrite parse_value_array. norm_app.
    inversion Hwf as [|? ? Hwx Hwl]; inversion IH as [|? ? IHx IHl]; subst.
    destruct (to_string_head x) as (c & t & Hx & Hws & H93 & _).
    assert (Hpx := IHx (S d) (ser_tail l ++ 93 :: rest) Hwx).
    rewrite parse_seq_first.
    rewrite Hx in Hpx |- *. cbn [app skip_ws] in Hpx |- *. rewrite Hws. cbv beta iota.
    rewrite (proj2 (Z.eqb_neq c 93) H93). cbv beta iota.
    rewrite Hpx.
    2:{ pose proof (vdepth_array (x :: l) x (or_introl eq_refl)). lia. }
    2:{ destruct l; reflexivity. }
    cbn [res_bind]. cbv beta iota.
    rewrite parse_seq_tail; [reflexivity| |].
    + apply List.Forall_forall. intros y Hy.
      rewrite List.Forall_forall in Hwl, IHl.
      intros r Hr'. apply IHl; auto.
      pose proof (vdepth_array (x :: l) y (or_intror Hy)). lia.
    + cbn [length]. rewrite !length_app. pose proof (length_ser_tail l). lia.
  - destruct d as [|d].
    { destruct m as [|[k x] m]; [simpl in Hd; lia|].
      pose proof (vdepth_object ((k, x) :: m) k x (or_introl eq_refl)). lia. }
    destruct m as [|[k x] m]; [reflexivity|].
    apply wf_object in Hwf as [Hs Hwm].
    rewrite to_string_object. cbn [app]. rewrite parse_value_object. norm_app.
    inversion Hwm as [|? ? [Hk Hwx] Hwl]; inversion IH as [|? ? IHx IHl]; subst.
    cbn [fst snd] in *.
    rewrite parse_map_first_entry by auto.
    rewrite IHx; [| auto | | destruct m as [|[]]; reflexivity].
    2:{ pose proof (vdepth_object ((k, x) :: m) k x (or_introl eq_refl)). lia. }
    cbn [res_bind]. cbv beta iota.
    cbn [map_insert].
    cbn [keys_sorted] in Hs. apply andb_prop in Hs as [Hs1 Hs2].
    rewrite parse_map_tail; auto.
    + apply List.Forall_forall. intros [k' y] Hy.
      rewrite List.Forall_forall in Hwl, IHl. cbn [fst snd].
      destruct (Hwl _ Hy) as [Hk' Hwy]. split; auto.
      intros r Hr'. apply (IHl _ Hy); auto.
      pose proof (vdepth_object ((k, x) :: m) k' y (or_intror Hy)). cbn [snd]; lia.
    + intros kv kv' [<-|[]] Hin'. rewrite forallb_forall in Hs1.
      specialize (Hs1 kv' Hin'). cbn [fst].
      destruct (str_cmp k (fst kv')); auto; discriminate.
    + cbn [length]. rewrite !length_app. cbn [length]. rewrite length_app.
      pose proof (length_obj_tail m). rewrite length_app; cbn [length]; lia.
Qed.

Lemma vdepth_array_le l n :
  (0 < n)%nat -> Forall (fun y => (vdepth y < n)%nat) l -> (vdepth (VArray l) <= n)%nat.
Proof. intros Hn. induction l as [|y l IH]; intros H; simpl; [lia|]. inversion H; subst. simpl in IH. specialize (IH H3). lia. Qed.

Lemma vdepth_object_le m n :
  (0 < n)%nat -> Forall (fun kv => (vdepth (snd kv) < n)%nat) m -> (vdepth (VObject m) <= n)%nat.
Proof.
  intros Hn. induction m as [|[k y] m IH]; intros H; simpl; [lia|]. inversion H; subst.
  simpl in IH. specialize (IH H3). cbn [snd] in H2. lia.
Qed.

Lemma parse_seq_tail_ok pv (Q : Value -> Prop) l n acc rest w r :
  Forall (fun y => forall r0 w0 r1, delim r0 = true -> pv (to_string y ++ r0) = Ok (w0, r1) ->
                   r1 = r0 /\ Q y) l ->
  parse_seq pv n false acc (ser_tail l ++ 93 :: rest) = Ok (w, r) -> r = rest /\ Forall Q l.
Proof.
  revert n acc; induction l as [|y l IH]; intros n acc Hl H;
    (destruct n as [|n]; [discriminate H|]).
  - cbn in H. injection H as _ <-. auto.
  - inversion Hl as [|? ? Hpv Hl']; subst.
    destruct (to_string_head y) as (c & t & Hy & Hws & H93 & _).
    revert H. cbn [ser_tail]. norm_app. rewrite parse_seq_comma.
    destruct (pv (to_string y ++ ser_tail l ++ 93 :: rest)) as [[w0 r1]|e] eqn:E;
      rewrite Hy; cbn [app skip_ws]; rewrite Hws; cbv beta iota;
      rewrite (proj2 (Z.eqb_neq c 93) H93); cbn [res_bind]; [|discriminate].
    intros H.
    assert (Hd : delim (ser_tail l ++ 93 :: rest) = true) by (destruct l; reflexivity).
    destruct (Hpv _ _ _ Hd E) as [-> HQ].
    destruct (IH n _ Hl' H) as [-> HQl]. auto.
Qed.

Lemma parse_map_tail_ok pv (Q : Value -> Prop) m n acc rest w r :
  Forall (fun kv => forallb is_scalar (fst kv) = true /\
           forall r0 w0 r1, delim r0 = true -> pv (to_string (snd kv) ++ r0) = Ok (w0, r1) ->
           r1 = r0 /\ Q (snd kv)) m ->
  parse_map pv n false acc (obj_tail m ++ 125 :: rest) = Ok (w, r) ->
  r = rest /\ Forall (fun kv => Q (snd kv)) m.
Proof.
  revert n acc; induction m as [|[k y] m IH]; intros n acc Hm H;
    (destruct n as [|n]; [discriminate H|]).
  - cbn in H. injection H as _ <-. auto.
  - inversion Hm as [|? ? (Hk & Hpv) Hm']; subst. cbn [fst snd] in *.
    revert H. cbn [obj_tail]. norm_app.
    rewrite parse_map_next_entry by auto.
    destruct (pv (to_string y ++ obj_tail m ++ 125 :: rest)) as [[w0 r1]|e] eqn:E;
      cbn [res_bind]; [|discriminate].
    intros H.
    assert (Hd : delim (obj_tail m ++ 125 :: rest) = true) by (destruct m as [|[]]; reflexivity).
    destruct (Hpv _ _ _ Hd E) as [-> HQ].
    destruct (IH n _ Hm' H) as [-> HQl]. auto.
Qed.

(** Whatever serde_json makes of the text of a value followed by a
    delimiter, when it succeeds it stops at that delimiter, and only when
    the value nests less deep than the remaining depth. *)
Lemma parse_to_string_depth okf v :
  forall depth rest w r, wf_value_with okf v = true -> delim rest = true ->
  parse_value depth (to_string v ++ rest) = Ok (w, r) -> r = rest /\ (vdepth v < depth)%nat.
Proof.
  induction v as [ | b | n | f | s | l IH | m IH] using value_ind';
    intros depth rest w r Hwf Hr H; (destruct depth as [|d]; [discriminate H|]);
    try (rewrite (parse_to_string (fun _ => false)) in H;
         [injection H as _ <-; split; [reflexivity | simpl; lia]
         | discriminate | exact Hwf | simpl; lia | exact Hr]).
  - destruct (fmt_f64_sim f d d rest rest Hr Hr) as (y1 & y2 & E1 & _ & _).
    cbn [to_string] in H. rewrite E1 in H.
    destruct y1; cbn in H; [injection H as _ <-; split; [reflexivity | simpl; lia] | discriminate].
  - destruct l as [|x l].
    + destruct d as [|d]; [discriminate H|].
      cbn in H. injection H as _ <-. split; [reflexivity | simpl; lia].
    + destruct d as [|d]; [discriminate H|].
      apply wf_array in Hwf.
      revert H. rewrite to_string_array. cbn [app]. rewrite parse_value_array. norm_app.
      inversion Hwf as [|? ? Hwx Hwl]; inversion IH as [|? ? IHx IHl]; subst.
      destruct (to_string_head x) as (c & t & Hx & Hws & H93 & _).
      rewrite parse_seq_first.
      rewrite Hx; cbn [app skip_ws]; rewrite Hws; cbv beta iota.
      rewrite (proj2 (Z.eqb_neq c 93) H93).
      replace (c :: t ++ ser_tail l ++ 93 :: rest) with (to_string x ++ ser_tail l ++ 93 :: rest)
        by (rewrite Hx; reflexivity).
      destruct (parse_value (S d) (to_string x ++ ser_tail l ++ 93 :: rest)) as [[w0 r1]|e] eqn:E;
        cbn [res_bind]; [|intros ?; discriminate].
      intros H.
      assert (Hd : delim (ser_tail l ++ 93 :: rest) = true) by (destruct l; reflexivity).
      destruct (IHx _ _ _ _ Hwx Hd E) as [-> Hdx].
      destruct (parse_seq_tail_ok _ (fun y => (vdepth y < S d)%nat) l _ _ _ _ _
                  ltac:(apply List.Forall_forall; intros y Hy r0 w1 r2 Hr0 Ey;
                        rewrite List.Forall_forall in Hwl, IHl;
                        exact (IHl y Hy _ _ _ _ (Hwl y Hy) Hr0 Ey)) H) as [-> Hdl].
      split; [reflexivity|].
      assert (Hall : Forall (fun y => (vdepth y < S d)%nat) (x :: l)) by (constructor; auto).
      pose proof (vdepth_array_le (x :: l) (S d) ltac:(lia) Hall). lia.
  - destruct m as [|[k x] m].
    + destruct d as [|d]; [discriminate H|].
      cbn in H. injection H as _ <-. split; [reflexivity | simpl; lia].
    + destruct d as [|d]; [discriminate H|].
      apply wf_object in Hwf as [_ Hwm].
      revert H. rewrite to_string_object. cbn [app]. rewrite parse_value_object. norm_app.
      inversion Hwm as [|? ? [Hk Hwx] Hwl]; inversion IH as [|? ? IHx IHl]; subst.
      cbn [fst snd] in *.
      rewrite parse_map_first_entry by auto. cbn [app].
      destruct (parse_value (S d) (to_string x ++ obj_tail m ++ 125 :: rest)) as [[w0 r1]|e] eqn:E;
        cbn [res_bind]; [|intros ?; discriminate].
      intros H.
      assert (Hd : delim (obj_tail m ++ 125 :: rest) = true) by (destruct m as [|[]]; reflexivity).
      destruct (IHx _ _ _ _ Hwx Hd E) as [-> Hdx].
      destruct (parse_map_tail_ok _ (fun y => (vdepth y < S d)%nat) m _ _ _ _ _
                  ltac:(apply List.Forall_forall; intros [k' y] Hy;
                        rewrite List.Forall_forall in Hwl, IHl;
                        destruct (Hwl _ Hy) as [Hk' Hwy];
                        split; [exact Hk'|];
                        intros r0 w1 r2 Hr0 Ey;
                        exact (IHl _ Hy _ _ _ _ Hwy Hr0 Ey)) H) as [-> Hdl].
      split; [reflexivity|].
      assert (Hall : Forall (fun kv => (vdepth (snd kv) < S d)%nat) ((k, x) :: m))
        by (constructor; auto).
      pose proof (vdepth_object_le ((k, x) :: m) (S d) ltac:(lia) Hall). lia.
Qed.

Lemma parse_to_string_survives v depth rest :
  wf_value_with float_survives v = true -> (vdepth v < depth)%nat -> delim rest = true ->
  parse_value depth (to_string v ++ rest) = Ok (v, rest).
Proof.
  apply parse_to_string. intros f Hf d r Hr. apply float_survives_parse; auto.
Qed.

Lemma from_str_to_string v :
  wf_value v = true -> (vdepth v < 128)%nat -> from_str (to_string v) = Ok v.
Proof.
  intros Hwf Hd. unfold from_str. rewrite <- (app_nil_r (to_string v)).
  rewrite (parse_to_string (fun _ => false)); auto. discriminate.
Qed.

Lemma from_str_to_string_survives v :
  wf_value_with float_survives v = true -> (vdepth v < 128)%nat -> from_str (to_string v) = Ok v.
Proof.
  intros Hwf Hd. unfold from_str. rewrite <- (app_nil_r (to_string v)).
  rewrite parse_to_string_survives; auto.
Qed.

(** ** Transport: UTF-16 units, bytes and NUL stripping *)

Lemma scalar_iff c :
  is_scalar c = true <-> (0 <= c < 55296 \/ 57344 <= c <= 1114111).
Proof.
  unfold is_scalar.
  destruct (Z.leb_spec 0 c), (Z.ltb_spec c 55296), (Z.leb_spec 57344 c),
    (Z.leb_spec c 1114111); cbn; intuition (try lia; try discriminate).
Qed.

Lemma good_iff c :
  good c = true <-> (0 < c < 55296 \/ 57344 <= c <= 1114111).
Proof.
  unfold good. rewrite andb_true_iff, scalar_iff, negb_true_iff, Z.eqb_neq. lia.
Qed.

Lemma good_scalar c : good c = true -> is_scalar c = true.
Proof. rewrite good_iff, scalar_iff. lia. Qed.

Lemma forallb_good_app a b :
  forallb good a = true -> forallb good b = true -> forallb good (a ++ b) = true.
Proof. intros Ha Hb. rewrite forallb_app, Ha, Hb. reflexivity. Qed.

Lemma good_hex d : 0 <= d < 16 -> good (hex_lower d) = true.
Proof.
  intros Hd. unfold hex_lower. apply good_iff.
  destruct (Z.ltb_spec d 10); lia.
Qed.

Lemma good_escape c : is_scalar c = true -> forallb good (escape_char c) = true.
Proof.
  intros Hc. apply scalar_iff in Hc. unfold escape_char.
  destruct (Z.eqb_spec c 34); [reflexivity|].
  destruct (Z.eqb_spec c 92); [reflexivity|].
  destruct (Z.eqb_spec c 8); [reflexivity|].
  destruct (Z.eqb_spec c 12); [reflexivity|].
  destruct (Z.eqb_spec c 10); [reflexivity|].
  destruct (Z.eqb_spec c 13); [reflexivity|].
  destruct (Z.eqb_spec c 9); [reflexivity|].
  destruct (Z.ltb_spec c 32).
  - cbn [forallb]. rewrite !good_hex; [reflexivity| |].
    + apply Z.mod_pos_bound; lia.
    + split; [apply Z.div_pos | apply Z.div_lt_upper_bound]; lia.
  - cbn [forallb]. rewrite andb_true_r. apply good_iff.
    destruct (Z.eqb_spec c 0); lia.
Qed.

Lemma good_escaped s :
  forallb is_scalar s = true -> forallb good (format_escaped_str s) = true.
Proof.
  intros Hs. unfold format_escaped_str. cbn [forallb]. rewrite forallb_app.
  replace (forallb good (flat_map escape_char s)) with true; [reflexivity|].
  symmetry. induction s as [|c s IH]; [reflexivity|].
  cbn [forallb] in Hs. apply andb_prop in Hs as [Hc Hs].
  cbn [flat_map]. apply forallb_good_app; auto using good_escape.
Qed.

Lemma good_dec_digits f n : 0 <= n -> forallb good (dec_digits f n) = true.
Proof.
  revert n; induction f as [|f IH]; intros n Hn; [reflexivity|].
  cbn [dec_digits]. destruct (Z.ltb_spec n 10).
  - cbn [forallb]. rewrite andb_true_r. apply good_iff. lia.
  - apply forallb_good_app.
    + apply IH. apply Z.div_pos; lia.
    + cbn [forallb]. rewrite andb_true_r. apply good_iff.
      pose proof (Z.mod_pos_bound n 10). lia.
Qed.

Lemma good_digits a : forallb is_digit a = true -> forallb good a = true.
Proof.
  induction a as [|c a IH]; [reflexivity|]. cbn [forallb].
  intros H. apply andb_prop in H as [Hc Ha]. rewrite IH by exact Ha.
  apply is_digit_range in Hc. rewrite andb_true_r. apply good_iff. lia.
Qed.

Lemma good_itoa x : forallb good (itoa x) = true.
Proof.
  unfold itoa. destruct (Z.ltb_spec x 0).
  - cbn [forallb]. apply good_dec_digits. lia.
  - apply good_dec_digits. lia.
Qed.

Lemma good_fmt_f64 f : forallb good (fmt_f64 f) = true.
Proof.
  destruct (fmt_f64_text f) as [->|(sg & b & -> & a & Ha & _ & H)]; [reflexivity|].
  apply forallb_good_app; [destruct sg; reflexivity|].
  destruct H as [(bb & Hbb & ->)|[(x & ->)|(bb & x & Hbb & ->)]];
    apply forallb_good_app; auto using good_digits; cbn [forallb].
  - rewrite good_digits by exact Hbb. reflexivity.
  - rewrite good_itoa. reflexivity.
  - rewrite forallb_app, good_digits by exact Hbb. cbn [forallb].
    rewrite good_itoa. reflexivity.
Qed.

Lemma good_to_string okf v : wf_value_with okf v = true -> forallb good (to_string v) = true.
Proof.
  induction v as [ | b | n | f | s | l IH | m IH] using value_ind'; intros Hwf.
  - reflexivity.
  - destruct b; reflexivity.
  - apply good_itoa.
  - apply good_fmt_f64.
  - apply good_escaped. exact Hwf.
  - destruct l as [|x l]; [reflexivity|].
    apply wf_array in Hwf. rewrite to_string_array. cbn [forallb].
    inversion Hwf as [|? ? Hwx Hwl]; inversion IH as [|? ? IHx IHl]; subst.
    apply forallb_good_app; auto.
    apply forallb_good_app; [|reflexivity].
    clear IHx Hwx Hwf IH. induction l as [|y l IHl']; [reflexivity|].
    inversion Hwl; inversion IHl; subst. cbn [ser_tail forallb].
    apply forallb_good_app; auto.
  - destruct m as [|[k x] m]; [reflexivity|].
    apply wf_object in Hwf as [_ Hwm]. rewrite to_string_object. cbn [forallb].
    inversion Hwm as [|? ? [Hk Hwx] Hwl]; inversion IH as [|? ? IHx IHl]; subst.
    apply forallb_good_app; [apply good_escaped; auto|]. cbn [forallb].
    apply forallb_good_app; auto.
    apply forallb_good_app; [|reflexivity].
    clear IHx Hwx Hwm IH. induction m as [|[k' y] m IHm]; [reflexivity|].
    inversion Hwl as [|? ? [Hk' Hwy]]; inversion IHl; subst.
    cbn [obj_tail forallb].
    apply forallb_good_app; [apply good_escaped; auto|]. cbn [forallb].
    apply forallb_good_app; auto.
Qed.

Lemma strip_nul_good s : forallb good s = true -> strip_nul s = s.
Proof.
  unfold strip_nul. induction s as [|c s IH]; [reflexivity|].
  cbn [forallb List.filter]. intros H. apply andb_prop in H as [Hc Hs].
  unfold good in Hc. apply andb_prop in Hc as [_ Hc]. rewrite Hc, IH; auto.
Qed.

Lemma lor_shiftl_small a b :
  0 <= b < 256 -> Z.lor (Z.shiftl a 8) b = Z.shiftl a 8 + b.
Proof.
  intros Hb.
  assert (Hl : Z.land (Z.shiftl a 8) b = 0).
  { apply Z.bits_inj'. intros i Hi.
    rewrite Z.land_spec, Z.shiftl_spec, Z.bits_0 by lia.
    destruct (Z.ltb_spec i 8).
    - rewrite (Z.testbit_neg_r a (i - 8)) by lia. reflexivity.
    - destruct (Z.eq_dec b 0) as [->|Hb0].
      + rewrite Z.bits_0. apply andb_false_r.
      + rewrite (Z.bits_above_log2 b i); [apply andb_false_r|lia|].
        apply Z.log2_lt_pow2; [lia|]. apply (Z.lt_le_trans _ (2 ^ 8)); [lia|].
        apply Z.pow_le_mono_r; lia. }
  rewrite <- Z.lxor_lor, Z.add_nocarry_lxor; auto.
Qed.

Lemma recombine_split u :
  Forall (fun w => 0 <= w < 65536) u -> recombine (split_units u) = u.
Proof.
  induction u as [|w u IH]; intros Hu; [reflexivity|].
  inversion Hu as [|? ? Hw Hu']; subst.
  cbn [split_units flat_map app recombine]. fold (split_units u). rewrite IH by auto.
  f_equal. change 255 with (Z.ones 8).
  rewrite !Z.land_ones, Z.shiftr_div_pow2 by lia.
  rewrite lor_shiftl_small by (apply Z.mod_pos_bound; lia).
  rewrite Z.shiftl_mul_pow2 by lia.
  rewrite (Z.mod_small (w / 2 ^ 8)) by (split; [apply Z.div_pos | apply Z.div_lt_upper_bound]; lia).
  pose proof (Z.div_mod w (2 ^ 8)). lia.
Qed.

Lemma encode_utf16_units s :
  forallb is_scalar s = true -> Forall (fun w => 0 <= w < 65536) (encode_utf16 s).
Proof.
  induction s as [|c s IH]; intros Hs; [constructor|].
  cbn [forallb] in Hs. apply andb_prop in Hs as [Hc Hs]. apply scalar_iff in Hc.
  cbn [encode_utf16 flat_map]. fold (encode_utf16 s). apply Forall_app; split; auto.
  unfold encode_utf16_char. destruct (Z.ltb_spec c 65536).
  - repeat constructor; lia.
  - rewrite Z.shiftr_div_pow2 by lia.
    change 1023 with (Z.ones 10). rewrite Z.land_ones by lia.
    pose proof (Z.mod_pos_bound (c - 65536) (2 ^ 10)).
    assert (0 <= (c - 65536) / 2 ^ 10 < 1024)
      by (split; [apply Z.div_pos | apply Z.div_lt_upper_bound]; lia).
    repeat constructor; lia.
Qed.

Lemma from_utf16_encode s :
  forallb is_scalar s = true -> from_utf16 (encode_utf16 s) = Some s.
Proof.
  induction s as [|c s IH]; intros Hs; [reflexivity|].
  cbn [forallb] in Hs. apply andb_prop in Hs as [Hc Hs]. apply scalar_iff in Hc.
  cbn [encode_utf16 flat_map]. fold (encode_utf16 s). unfold encode_utf16_char.
  destruct (Z.ltb_spec c 65536).
  - cbn [app from_utf16].
    replace ((c <? 55296) || (57343 <? c)) with true
      by (symmetry; apply orb_true_iff;
          destruct Hc; [left; apply Z.ltb_lt | right; apply Z.ltb_lt]; lia).
    rewrite IH; auto.
  - set (c' := c - 65536).
    rewrite Z.shiftr_div_pow2 by lia.
    change 1023 with (Z.ones 10). rewrite Z.land_ones by lia.
    pose proof (Z.mod_pos_bound c' (2 ^ 10)).
    assert (0 <= c' / 2 ^ 10 < 1024)
      by (unfold c'; split; [apply Z.div_pos | apply Z.div_lt_upper_bound]; lia).
    cbn [app from_utf16].
    replace ((55296 + c' / 2 ^ 10 <? 55296) || (57343 <? 55296 + c' / 2 ^ 10))
      with false by (symmetry; apply orb_false_iff; split; apply Z.ltb_ge; lia).
    replace (55296 + c' / 2 ^ 10 <=? 56319) with true by (symmetry; apply Z.leb_le; lia).
    replace ((56320 <=? 56320 + c' mod 2 ^ 10) && (56320 + c' mod 2 ^ 10 <=? 57343))
      with true by (symmetry; apply andb_true_iff; split; apply Z.leb_le; lia).
    rewrite IH by auto. do 2 f_equal.
    rewrite Z.shiftl_mul_pow2 by lia.
    pose proof (Z.div_mod c' (2 ^ 10)). unfold c' in *. lia.
Qed.

Example decode_send_event_example :
  decode (send_event_bytes (lit "http.request")
            (VArray [VObject [(lit "method", VString (lit "GET")); (lit "url", VString [47; 120; 0; 128512])];
                     VObject [(lit "id", VNumber 0)]]))
  = Some (lit "http.request",
          VArray [VObject [(lit "method", VString (lit "GET")); (lit "url", VString [47; 120; 0; 128512])];
                  VObject [(lit "id", VNumber 0)]]).
Proof. vm_compute. reflexivity. Qed.

Example from_str_numbers :
  from_str (lit "[-12, 0 ,18446744073709551615,{" ++ [34] ++ lit "b" ++ [34]
            ++ lit ":1," ++ [34] ++ lit "a" ++ [34] ++ lit ":[true,null]}]")
  = Ok (VArray [VNumber (-12); VNumber 0; VNumber 18446744073709551615;
                VObject [(lit "a", VArray [VBool true; VNull]); (lit "b", VNumber 1)]]).
Proof. vm_compute. reflexivity. Qed.

Example nest126_ok :
  decode (send_event_bytes (lit "e") (nest 126 VNull)) = Some (lit "e", nest 126 VNull).
Proof. vm_compute. reflexivity. Qed.

Example nest127_fails :
  from_str (to_string (VArray [VString (lit "e"); nest 127 VNull])) = Err RecursionLimitExceeded.
Proof. vm_compute. reflexivity. Qed.

(* ================================================================== *)
(** * C1: the host-to-guest envelope *)

(** C1 (corrected): for every command string [cmd] of Unicode scalar
    values and every [serde_json::Value] [v] (integers in the i64/u64
    range, finite f64 numbers, strings of scalar values, arrays, objects
    with their keys in [Map] order):
    - if [v] nests at most 126 levels deep and each float in [v] is read
      back by serde_json's parser as the same float ([float_survives]),
      decoding the bytes [send_event cmd v] delivers gives [Some (cmd, v)];
    - if [v] nests 127 levels or deeper, the envelope [[cmd, v]] exceeds
      serde_json's recursion limit of 128 and decoding gives [None]. *)
Theorem send_event_decode_roundtrip cmd v :
  forallb is_scalar cmd = true -> json_value v = true ->
  ((vdepth v < 127)%nat -> wf_value_with float_survives v = true ->
   decode (send_event_bytes cmd v) = Some (cmd, v)) /\
  ((127 <= vdepth v)%nat -> decode (send_event_bytes cmd v) = None).
Proof.
  intros Hc Hv. unfold decode, send_event_bytes.
  set (e := VArray [VString cmd; v]).
  assert (He : json_value e = true)
    by (unfold json_value in *; cbn [e wf_value_with]; rewrite Hc, Hv; reflexivity).
  pose proof (good_to_string f64_finite e He) as Hg.
  assert (Hs : forallb is_scalar (to_string e) = true).
  { rewrite forallb_forall in Hg |- *. intros c Hin. apply good_scalar; auto. }
  rewrite recombine_split by (apply encode_utf16_units; exact Hs).
  rewrite from_utf16_encode by exact Hs.
  rewrite strip_nul_good by exact Hg.
  unfold from_str. rewrite <- (app_nil_r (to_string e)).
  split.
  - intros Hd Hf.
    rewrite parse_to_string_survives; [reflexivity | | | reflexivity].
    + cbn. rewrite Hc, Hf. reflexivity.
    + cbn [e vdepth]. lia.
  - intros Hd.
    destruct (parse_value 128 (to_string e ++ [])) as [[w r]|err] eqn:E; [|reflexivity].
    destruct (parse_to_string_depth f64_finite e 128 [] w r He eq_refl E) as [_ Hlt].
    cbn [e vdepth] in Hlt. lia.
Qed.

Lemma send_event_decode_roundtrip_witness :
  decode (send_event_bytes (lit "http.end")
            (VArray [VNumber 0; VFloat (S754_finite false 4503599627370496 (-53));
                     VObject [(lit "a", VString (lit "b"))]]))
  = Some (lit "http.end",
          VArray [VNumber 0; VFloat (S754_finite false 4503599627370496 (-53));
                  VObject [(lit "a", VString (lit "b"))]])
  /\ decode (send_event_bytes (lit "e") (nest 127 VNull)) = None.
Proof.
  split.
  - apply (proj1 (send_event_decode_roundtrip (lit "http.end")
                    (VArray [VNumber 0; VFloat (S754_finite false 4503599627370496 (-53));
                             VObject [(lit "a", VString (lit "b"))]])
                    ltac:(vm_compute; reflexivity) ltac:(vm_compute; reflexivity)));
      [vm_compute; lia | vm_compute; reflexivity].
  - apply (proj2 (send_event_decode_roundtrip (lit "e") (nest 127 VNull)
                    ltac:(vm_compute; reflexivity) ltac:(vm_compute; reflexivity))).
    vm_compute. lia.
Defined.

(** C1 counterexample: two values for which decoding does not give back
    [Some (cmd, v)].  The f64 nearest to 1e-23 (mantissa 6805647338418769,
    exponent -129) is serialized by ryu as [1e-23]; serde_json's default
    parser computes [1.0 / 1e23] and gets the next float up, so the
    decoded payload is a different number.  The array [v] nested 127
    levels deep makes a 128-deep envelope: [from_str] stops with
    [RecursionLimitExceeded] and the decoder returns [None]. *)
Lemma send_event_decode_fails :
  json_value (VFloat (S754_finite false 6805647338418769 (-129))) = true /\
  fmt_f64 (S754_finite false 6805647338418769 (-129)) = lit "1e-23" /\
  decode (send_event_bytes (lit "http.request") (VFloat (S754_finite false 6805647338418769 (-129))))
  = Some (lit "http.request", VFloat (S754_finite false 6805647338418770 (-129))) /\
  json_value (nest 127 VNull) = true /\
  decode (send_event_bytes (lit "http.request") (nest 127 VNull)) = None.
Proof.
  repeat split; vm_compute; reflexivity.
Qed.

(* ================================================================== *)
(** * The runtime monad *)

Lemma bind_ret {A B} (m : M A) (f : A -> M B) s s1 t1 a :
  m s = (s1, t1, Ret a) ->
  (m ≫= f) s = let '(s2, t2, o) := f a s1 in (s2, t1 ++ t2, o).
Proof. intros H. unfold mbind, M_bind. rewrite H. reflexivity. Qed.

Lemma bind_raise {A B} (m : M A) (f : A -> M B) s s1 t1 e :
  m s = (s1, t1, Raise e) -> (m ≫= f) s = (s1, t1, Raise e).
Proof. intros H. unfold mbind, M_bind. rewrite H. reflexivity. Qed.

Lemma events_app t1 t2 : events (t1 ++ t2) = events t1 ++ events t2.
Proof. induction t1 as [|[] t1 IH]; cbn; rewrite ?IH; reflexivity. Qed.

Lemma only_logs_events t : only_logs t = true -> events t = [].
Proof. induction t as [|[] t IH]; cbn; auto; discriminate. Qed.

Lemma log_spec level msg s :
  exists t, log level msg s = (s, t, Ret tt) /\ only_logs t = true.
Proof. unfold log. destruct (level <=? log_level s); eexists; split; reflexivity. Qed.

Lemma write_all_ok c b s : io s = [] -> write_all c b s = (s, [AWrite c b], Ret tt).
Proof. intros H. unfold write_all, mbind, M_bind, io_result. rewrite H. reflexivity. Qed.

Lemma write_all_fail c b s l :
  io s = false :: l -> write_all c b s = (set_io l s, [], Raise WriteError).
Proof. intros H. unfold write_all, mbind, M_bind, io_result. rewrite H. reflexivity. Qed.

Lemma flush_ok c s : io s = [] -> flush c s = (s, [AFlush c], Ret tt).
Proof. intros H. unfold flush, mbind, M_bind, io_result. rewrite H. reflexivity. Qed.

Lemma end_ok c b s :
  io s = [] -> end_ c b s = (s, [AWrite c (encode_utf8 (chunk_text b)); AFlush c], Ret tt).
Proof.
  intros H. unfold end_. rewrite (bind_ret _ _ _ _ _ _ (write_all_ok c _ s H)).
  rewrite flush_ok by exact H. reflexivity.
Qed.

Lemma write_head_ok c st h s :
  io s = [] ->
  write_head c st h s = (s, [AWrite c (encode_utf8 (head_text st (now s) h))], Ret tt).
Proof.
  intros H. unfold write_head. rewrite (bind_ret _ _ s s [] (now s) eq_refl).
  rewrite write_all_ok by exact H. reflexivity.
Qed.

Lemma take_eq k s :
  take k s = (set_registry (delete k (registry s)) s, [], Ret (registry s !! k)).
Proof. reflexivity. Qed.

(** ** Computations that keep the counter and the registry *)

Create HintDb frame.

Lemma frame_ret {A} (a : A) : frame (mret a).
Proof. intros s. repeat split. Qed.

Lemma frame_bind {A B} (m : M A) (f : A -> M B) :
  frame m -> (forall a, frame (f a)) -> frame (m ≫= f).
Proof.
  intros Hm Hf s. unfold mbind, M_bind.
  specialize (Hm s). destruct (m s) as [[s1 t1] o]. cbn in Hm. destruct Hm as (H1 & H2 & H3).
  destruct o as [a| | |]; cbn; auto.
  specialize (Hf a s1). destruct (f a s1) as [[s2 t2] o2]. cbn in Hf |- *.
  destruct Hf as (H4 & H5 & H6). rewrite events_app, H3, H6. repeat split; congruence.
Qed.

Lemma frame_log level msg : frame (log level msg).
Proof. intros s. unfold log. destruct (level <=? log_level s); repeat split. Qed.

Lemma frame_print msg : frame (print msg).
Proof. intros s. repeat split. Qed.

Lemma frame_io_result : frame io_result.
Proof. intros s. unfold io_result. destruct (io s); repeat split. Qed.

Lemma frame_raise {A} e : frame (@raise A e).
Proof. intros s. repeat split. Qed.

Lemma frame_forever {A} : frame (@forever A).
Proof. intros s. repeat split. Qed.

Lemma frame_emit_write c b : frame (emit (AWrite c b)).
Proof. intros s. repeat split. Qed.

Lemma frame_emit_flush c : frame (emit (AFlush c)).
Proof. intros s. repeat split. Qed.

Lemma frame_emit_listen p : frame (emit (AListen p)).
Proof. intros s. repeat split. Qed.

Lemma frame_get_now : frame get_now.
Proof. intros s. repeat split. Qed.

Lemma frame_owning {A} c (m : M A) : frame m -> frame (owning c m).
Proof.
  intros Hm s. specialize (Hm s). unfold owning.
  destruct (m s) as [[s1 t] o]. cbn in *. rewrite events_app. cbn.
  rewrite app_nil_r. exact Hm.
Qed.

Lemma frame_with_lock {A} (m : M A) : frame m -> frame (with_lock m).
Proof.
  intros Hm s. specialize (Hm s). unfold with_lock.
  destruct (m s) as [[s1 t] o]. cbn in *. rewrite events_app. cbn.
  rewrite app_nil_r. exact Hm.
Qed.

Lemma frame_panic_on_err {A} (m : M A) : frame m -> frame (panic_on_err m).
Proof.
  intros Hm s. specialize (Hm s). unfold panic_on_err.
  destruct (m s) as [[s1 t] []]; exact Hm.
Qed.

#[local] Hint Resolve frame_ret frame_bind frame_log frame_print frame_io_result
  frame_raise frame_forever frame_emit_write frame_emit_flush frame_emit_listen
  frame_get_now frame_owning frame_with_lock frame_panic_on_err : frame.

Lemma frame_write_all c b : frame (write_all c b).
Proof. unfold write_all. apply frame_bind; auto with frame. intros []; auto with frame. Qed.

Lemma frame_flush c : frame (flush c).
Proof. unfold flush. apply frame_bind; auto with frame. intros []; auto with frame. Qed.

#[local] Hint Resolve frame_write_all frame_flush : frame.

Lemma frame_end c b : frame (end_ c b).
Proof. unfold end_. auto with frame. Qed.

Lemma frame_write_head c st h : frame (write_head c st h).
Proof. unfold write_head. auto with frame. Qed.

#[local] Hint Resolve frame_end frame_write_head : frame.

Lemma frame_end_response c st h body : frame (end_response c st h body).
Proof. unfold end_response. apply frame_owning, frame_bind; auto with frame. intros _. destruct body; auto with frame. Qed.

Lemma frame_accept_loop fuel : frame (accept_loop fuel).
Proof.
  induction fuel as [|f IH]; cbn [accept_loop]; auto with frame.
  apply frame_bind; auto with frame. intros []; auto with frame.
Qed.

Lemma frame_accept_connections : frame accept_connections.
Proof. intros s. exact (frame_accept_loop (length (io s)) s). Qed.

#[local] Hint Resolve frame_accept_connections : frame.

Lemma frame_listen port : frame (listen port).
Proof.
  unfold listen, server_listen. apply frame_bind; auto with frame. intros _.
  apply frame_bind; auto with frame. intros []; auto with frame.
Qed.

#[local] Hint Resolve frame_end_response frame_listen : frame.

(** ** Computations that keep the counter *)

Lemma frame_keeps_id {A} (m : M A) : frame m -> keeps_id m.
Proof. intros H s. apply H. Qed.

Lemma keeps_id_bind {A B} (m : M A) (f : A -> M B) :
  keeps_id m -> (forall a, keeps_id (f a)) -> keeps_id (m ≫= f).
Proof.
  intros Hm Hf s. unfold mbind, M_bind.
  specialize (Hm s). destruct (m s) as [[s1 t1] o]. cbn in Hm.
  destruct o as [a| | |]; cbn; auto.
  specialize (Hf a s1). destruct (f a s1) as [[s2 t2] o2]. cbn in *. congruence.
Qed.

Lemma keeps_id_with_lock {A} (m : M A) : keeps_id m -> keeps_id (with_lock m).
Proof. intros Hm s. specialize (Hm s). unfold with_lock. destruct (m s) as [[s1 t] o]. exact Hm. Qed.

Lemma keeps_id_panic_on_err {A} (m : M A) : keeps_id m -> keeps_id (panic_on_err m).
Proof. intros Hm s. specialize (Hm s). unfold panic_on_err. destruct (m s) as [[s1 t] []]; exact Hm. Qed.

Lemma keeps_id_take k : keeps_id (take k).
Proof. intros s. reflexivity. Qed.

Lemma keeps_id_http_end id st h body : keeps_id (http_end id st h body).
Proof.
  unfold http_end. apply keeps_id_bind; [apply frame_keeps_id; auto with frame|intros _].
  apply keeps_id_with_lock, keeps_id_bind; [apply keeps_id_take|].
  intros []; apply frame_keeps_id; auto with frame.
Qed.

Lemma keeps_id_handle_receive v : keeps_id (handle_receive v).
Proof.
  unfold handle_receive. apply keeps_id_bind; [apply frame_keeps_id; solve [auto with frame]|intros _].
  destruct (index_value v 0) as [| | | |t| |]; try (apply frame_keeps_id; solve [auto with frame]).
  destruct (zs_eqb t (lit "http.listen")).
  { destruct (index_value v 1); apply frame_keeps_id; solve [auto with frame]. }
  destruct (zs_eqb t (lit "http.end")); [|apply frame_keeps_id; solve [auto with frame]].
  repeat match goal with
         | |- keeps_id (match ?x with _ => _ end) => destruct x
         end;
    first [apply keeps_id_http_end | apply frame_keeps_id; solve [auto with frame]].
Qed.

(** ** The [http.end] command *)

Lemma http_end_found_at index st h body s c :
  registry s !! index = Some c ->
  exists t0, only_logs t0 = true /\
    http_end index st h body s =
    let '(s2, t2, o) := end_response c st h body (set_registry (delete index (registry s)) s) in
    (s2, t0 ++ ALock :: t2 ++ [AUnlock], o).
Proof.
  intros Hc. unfold http_end.
  destruct (log_spec 3 (lit "index: " ++ itoa index) s) as (t0 & E & Q).
  exists t0. split; [exact Q|].
  rewrite (bind_ret _ _ _ _ _ _ E). unfold with_lock.
  rewrite (bind_ret _ _ _ _ _ _ (take_eq _ _)), Hc.
  destruct (end_response _ _ _ _ _) as [[s2 t2] o]. reflexivity.
Qed.

Lemma http_end_found id st h body s c :
  registry s !! as_usize id = Some c ->
  exists t0, only_logs t0 = true /\
    http_end (as_usize id) (as_u16 st) h body s =
    let '(s2, t2, o) :=
      end_response c (as_u16 st) h body (set_registry (delete (as_usize id) (registry s)) s) in
    (s2, t0 ++ ALock :: t2 ++ [AUnlock], o).
Proof.
  intros Hc. unfold http_end.
  destruct (log_spec 3 (lit "index: " ++ itoa (as_usize id)) s) as (t0 & E & Q).
  exists t0. split; [exact Q|].
  rewrite (bind_ret _ _ _ _ _ _ E). unfold with_lock.
  rewrite (bind_ret _ _ _ _ _ _ (take_eq _ _)), Hc.
  destruct (end_response _ _ _ _ _) as [[s2 t2] o]. reflexivity.
Qed.

Lemma set_registry_same s : set_registry (registry s) s = s.
Proof. destruct s; reflexivity. Qed.

Lemma http_end_missing_at index st h body s :
  registry s !! index = None ->
  exists t0, only_logs t0 = true /\
    http_end index st h body s = (s, t0 ++ [ALock; ALog (lit "Invalid response id"); AUnlock], Ret tt).
Proof.
  intros Hc. unfold http_end.
  destruct (log_spec 3 (lit "index: " ++ itoa index) s) as (t0 & E & Q).
  exists t0. split; [exact Q|].
  rewrite (bind_ret _ _ _ _ _ _ E). unfold with_lock.
  rewrite (bind_ret _ _ _ _ _ _ (take_eq _ _)), Hc.
  rewrite delete_id by exact Hc. rewrite set_registry_same. reflexivity.
Qed.

Lemma http_end_missing id st h body s :
  registry s !! as_usize id = None ->
  exists t0, only_logs t0 = true /\
    http_end (as_usize id) (as_u16 st) h body s =
    (s, t0 ++ [ALock; ALog (lit "Invalid response id"); AUnlock], Ret tt).
Proof.
  intros Hc. unfold http_end.
  destruct (log_spec 3 (lit "index: " ++ itoa (as_usize id)) s) as (t0 & E & Q).
  exists t0. split; [exact Q|].
  rewrite (bind_ret _ _ _ _ _ _ E). unfold with_lock.
  rewrite (bind_ret _ _ _ _ _ _ (take_eq _ _)), Hc.
  rewrite delete_id by exact Hc. rewrite set_registry_same. reflexivity.
Qed.

(** The dispatcher hands [["http.end", [id, status, headers, body]]] to the
    [http.end] arm. *)
Lemma receive_http_end id st h body :
  handle_receive (command "http.end" (VArray [VNumber id; VNumber st; VObject h; body])) =
  (log 1 (lit "Received JSON: "
          ++ to_string (command "http.end" (VArray [VNumber id; VNumber st; VObject h; body])));;
   http_end (as_usize id) (as_u16 st) h body).
Proof. reflexivity. Qed.

Lemma receive_task_http_end id st h body s :
  exists t0, only_logs t0 = true /\
    receive_task (command "http.end" (VArray [VNumber id; VNumber st; VObject h; body])) s =
    panic_on_err (fun s' => let '(s2, t2, o) := http_end (as_usize id) (as_u16 st) h body s' in
                            (s2, t0 ++ t2, o)) s.
Proof.
  unfold receive_task. rewrite receive_http_end.
  destruct (log_spec 1 (lit "Received JSON: "
     ++ to_string (command "http.end" (VArray [VNumber id; VNumber st; VObject h; body]))) s)
    as (t0 & E & Q).
  exists t0. split; [exact Q|]. unfold panic_on_err.
  rewrite (bind_ret _ _ _ _ _ _ E). reflexivity.
Qed.

Lemma end_response_registry c st h body s :
  registry (fst (fst (end_response c st h body s))) = registry s.
Proof. apply frame_end_response. Qed.

Lemma end_response_ok c st h body s :
  io s = [] ->
  end_response c st h body s =
  (s, AWrite c (encode_utf8 (head_text st (now s) (map_to_iter h)))
        :: match body with
           | VString x => [AWrite c (encode_utf8 (chunk_text x)); AFlush c]
           | VObject o => [AWrite c (encode_utf8 (chunk_text (to_string (VObject o)))); AFlush c]
           | _ => [ALog (lit "Invalid body type")]
           end ++ [AClose c], Ret tt).
Proof.
  intros H. unfold end_response, owning.
  rewrite (bind_ret _ _ _ _ _ _ (write_head_ok c st _ s H)).
  destruct body; try rewrite end_ok by exact H; reflexivity.
Qed.

(** The whole [http.end] task on a registered id, all writes succeeding. *)
Lemma receive_task_http_end_ok id st h body s c :
  registry s !! as_usize id = Some c -> io s = [] ->
  exists pre, only_logs pre = true /\
    receive_task (command "http.end" (VArray [VNumber id; VNumber st; VObject h; body])) s =
    (set_registry (delete (as_usize id) (registry s)) s,
     pre ++ ALock :: AWrite c (encode_utf8 (head_text (as_u16 st) (now s) (map_to_iter h)))
         :: match body with
            | VString x => [AWrite c (encode_utf8 (chunk_text x)); AFlush c]
            | VObject o => [AWrite c (encode_utf8 (chunk_text (to_string (VObject o)))); AFlush c]
            | _ => [ALog (lit "Invalid body type")]
            end ++ [AClose c; AUnlock], Ret tt).
Proof.
  intros Hc Hio.
  destruct (receive_task_http_end id st h body s) as (t0 & Q0 & E0).
  destruct (http_end_found id st h body s c Hc) as (t1 & Q1 & E1).
  exists (t0 ++ t1). split; [unfold only_logs in *; rewrite forallb_app, Q0, Q1; reflexivity|].
  rewrite E0. unfold panic_on_err. cbv beta. rewrite E1.
  rewrite end_response_ok by exact Hio. cbn [now set_registry].
  rewrite <- !app_assoc. cbn [app]. rewrite <- !app_assoc. reflexivity.
Qed.

Lemma only_logs_app t1 t2 :
  only_logs (t1 ++ t2) = only_logs t1 && only_logs t2.
Proof. apply forallb_app. Qed.

(** The same, the body's operations as [response_writes]: after them
    only the log of an invalid body type. *)
Lemma receive_task_http_end_writes id st h body s c :
  registry s !! as_usize id = Some c -> io s = [] ->
  exists pre post, only_logs pre = true /\ only_logs post = true /\
    receive_task (command "http.end" (VArray [VNumber id; VNumber st; VObject h; body])) s =
    (set_registry (delete (as_usize id) (registry s)) s,
     pre ++ ALock :: response_writes c (as_u16 st) (now s) h body ++ post ++ [AClose c; AUnlock],
     Ret tt).
Proof.
  intros Hc Hio. destruct (receive_task_http_end_ok id st h body s c Hc Hio) as (pre & Q & E).
  exists pre, (match body with VString _ | VObject _ => [] | _ => [ALog (lit "Invalid body type")] end).
  split; [exact Q|]. split; [destruct body; reflexivity|].
  rewrite E. destruct body; reflexivity.
Qed.

Lemma only_logs_touches c t : only_logs t = true -> forallb (fun a => negb (touches c a)) t = true.
Proof. induction t as [|[] t IH]; cbn; auto; discriminate. Qed.

Lemma only_logs_lock b t r :
  only_logs t = true -> lock_held_across_await b (t ++ r) = lock_held_across_await b r.
Proof. induction t as [|[] t IH]; cbn; auto; discriminate. Qed.

(** ** The chunked body *)

Lemma hex_upper_spec d :
  0 <= d < 16 ->
  is_upper_hex (hex_upper d) = true
  /\ (if hex_upper d <=? 57 then hex_upper d - 48 else hex_upper d - 55) = d
  /\ 0 <= hex_upper d < 128.
Proof.
  intros Hd. unfold hex_upper, is_upper_hex, in_range.
  destruct (Z.ltb_spec d 10).
  - replace (48 + d <=? 57) with true by (symmetry; apply Z.leb_le; lia).
    replace (48 <=? 48 + d) with true by (symmetry; apply Z.leb_le; lia).
    cbn [andb orb]. repeat split; try reflexivity; lia.
  - replace (55 + d <=? 57) with false by (symmetry; apply Z.leb_gt; lia).
    replace (48 <=? 55 + d) with true by (symmetry; apply Z.leb_le; lia).
    replace (65 <=? 55 + d) with true by (symmetry; apply Z.leb_le; lia).
    replace (55 + d <=? 70) with true by (symmetry; apply Z.leb_le; lia).
    cbn [andb orb]. repeat split; try reflexivity; lia.
Qed.

Lemma upper_hex_value_snoc l d :
  upper_hex_value (l ++ [d]) = upper_hex_value l * 16 + (if d <=? 57 then d - 48 else d - 55).
Proof. unfold upper_hex_value. rewrite fold_left_app. reflexivity. Qed.

Ltac ascii_ok :=
  rewrite ?andb_true_r; apply andb_true_iff; split; [apply Z.leb_le | apply Z.ltb_lt]; lia.

Lemma hex_digits_S f n :
  hex_digits (S f) n = if n <? 16 then [hex_upper n] else hex_digits f (n / 16) ++ [hex_upper (n mod 16)].
Proof. reflexivity. Qed.

Lemma hex_digits_spec f n :
  0 <= n < 16 ^ Z.of_nat (S f) ->
  forallb is_upper_hex (hex_digits (S f) n) = true
  /\ forallb (fun c => (0 <=? c) && (c <? 128)) (hex_digits (S f) n) = true
  /\ upper_hex_value (hex_digits (S f) n) = n.
Proof.
  revert n; induction f as [|f IH]; intros n Hn.
  - rewrite hex_digits_S. change (16 ^ Z.of_nat 1) with 16 in Hn.
    rewrite (proj2 (Z.ltb_lt n 16)) by lia.
    destruct (hex_upper_spec n) as (H1 & H2 & H3); [lia|].
    cbn [forallb hex_digits]. rewrite H1. unfold upper_hex_value. cbn [fold_left]. rewrite H2.
    repeat split; try lia; ascii_ok.
  - rewrite hex_digits_S. destruct (Z.ltb_spec n 16).
    + destruct (hex_upper_spec n) as (H1 & H2 & H3); [lia|].
      cbn [forallb hex_digits]. rewrite H1. unfold upper_hex_value. cbn [fold_left]. rewrite H2.
      repeat split; try lia; ascii_ok.
    + rewrite Nat2Z.inj_succ, Z.pow_succ_r in Hn by lia.
      destruct (IH (n / 16)) as (H1 & H2 & H3).
      { split; [apply Z.div_pos; lia | apply Z.div_lt_upper_bound; lia]. }
      destruct (hex_upper_spec (n mod 16)) as (H4 & H5 & H6); [apply Z.mod_pos_bound; lia|].
      rewrite !forallb_app, H1, H2. cbn [forallb]. rewrite H4.
      rewrite upper_hex_value_snoc, H3, H5. pose proof (Z.div_mod n 16).
      repeat split; try lia; ascii_ok.
Qed.

Lemma encode_utf8_app a b : encode_utf8 (a ++ b) = encode_utf8 a ++ encode_utf8 b.
Proof. apply flat_map_app. Qed.

Lemma encode_utf8_ascii l :
  forallb (fun c => (0 <=? c) && (c <? 128)) l = true -> encode_utf8 l = l.
Proof.
  induction l as [|c l IH]; [reflexivity|]. cbn [forallb]. intros H.
  apply andb_prop in H as [Hc H]. cbn [encode_utf8 flat_map]. fold (encode_utf8 l).
  rewrite IH by exact H. unfold encode_utf8_char. apply andb_prop in Hc as [_ Hc].
  rewrite Hc. reflexivity.
Qed.

Lemma chunk_bytes body :
  Z.of_nat (length (encode_utf8 body)) < 2 ^ 64 ->
  exists size,
    encode_utf8 (chunk_text body) = size ++ crlf ++ encode_utf8 body ++ crlf ++ lit "0" ++ crlf ++ crlf
    /\ size = fmt_upper_hex (Z.of_nat (length (encode_utf8 body)))
    /\ forallb is_upper_hex size = true
    /\ upper_hex_value size = Z.of_nat (length (encode_utf8 body)).
Proof.
  intros Hl. destruct (hex_digits_spec 15 (Z.of_nat (length (encode_utf8 body)))) as (H1 & H2 & H3).
  { split; [lia|]. change (16 ^ Z.of_nat 16) with (2 ^ 64). exact Hl. }
  exists (fmt_upper_hex (Z.of_nat (length (encode_utf8 body)))).
  unfold chunk_text, fmt_upper_hex. rewrite !encode_utf8_app.
  rewrite (encode_utf8_ascii (hex_digits 16 _)) by exact H2.
  repeat split; auto.
Qed.

(* ================================================================== *)
(** * C5: the inbound buffer *)

(** C5: whatever the buffer holds, and whether or not it decodes as UTF-16
    and parses as JSON, [h_se] leaves it empty. *)
Theorem h_se_clears_buffer data : fst (fst (h_se data)) = [].
Proof. destruct data as [|w data]; reflexivity. Qed.

(* ================================================================== *)
(** * C3: the chunked body of a completion *)

(** C3: completing a registered response with a string body writes, after
    the head, the size line (the body's length in bytes in upper-case
    hexadecimal), CRLF, the body's bytes, CRLF and the terminating zero
    chunk; for the body [hi] these are exactly [2\r\nhi\r\n0\r\n\r\n]. *)
Theorem http_end_chunked_body s id st h body c :
  registry s !! as_usize id = Some c -> io s = [] ->
  Z.of_nat (length (encode_utf8 body)) < 2 ^ 64 ->
  exists pre size,
    snd (fst (receive_task
                (command "http.end" (VArray [VNumber id; VNumber st; VObject h; VString body])) s))
    = pre ++ [AWrite c (size ++ crlf ++ encode_utf8 body ++ crlf ++ lit "0" ++ crlf ++ crlf);
              AFlush c; AClose c; AUnlock]
    /\ forallb is_upper_hex size = true
    /\ upper_hex_value size = Z.of_nat (length (encode_utf8 body))
    /\ (body = lit "hi" ->
        size ++ crlf ++ encode_utf8 body ++ crlf ++ lit "0" ++ crlf ++ crlf
        = [50; 13; 10; 104; 105; 13; 10; 48; 13; 10; 13; 10]).
Proof.
  intros Hc Hio Hl.
  destruct (receive_task_http_end_ok id st h (VString body) s c Hc Hio) as (pre & _ & E).
  destruct (chunk_bytes body Hl) as (size & Eb & Es & Hx & Hv).
  exists (pre ++ [ALock; AWrite c (encode_utf8 (head_text (as_u16 st) (now s) (map_to_iter h)))]), size.
  rewrite E. cbn [fst snd]. rewrite Eb. split; [|split; [exact Hx | split; [exact Hv|]]].
  - rewrite <- app_assoc. reflexivity.
  - intros ->. subst size. reflexivity.
Qed.

Lemma http_end_chunked_body_witness :
  exists pre size,
    snd (fst (receive_task
                (command "http.end" (VArray [VNumber 0; VNumber 200; VObject []; VString (lit "hi")]))
                (mkSt 1 {[0 := 0%nat]} 0 [] [])))
    = pre ++ [AWrite 0%nat (size ++ crlf ++ encode_utf8 (lit "hi") ++ crlf ++ lit "0" ++ crlf ++ crlf);
              AFlush 0%nat; AClose 0%nat; AUnlock]
    /\ forallb is_upper_hex size = true
    /\ upper_hex_value size = Z.of_nat (length (encode_utf8 (lit "hi")))
    /\ (lit "hi" = lit "hi" ->
        size ++ crlf ++ encode_utf8 (lit "hi") ++ crlf ++ lit "0" ++ crlf ++ crlf
        = [50; 13; 10; 104; 105; 13; 10; 48; 13; 10; 13; 10]).
Proof.
  apply http_end_chunked_body; [reflexivity | reflexivity | vm_compute; reflexivity].
Defined.

(* ================================================================== *)
(** * C6: at most one completion per id *)

(** C6: once an [http.end] has taken a registered id (whatever became of
    its writes), the id is gone from the registry, and a second [http.end]
    with the same id only logs [Invalid response id]: it leaves the whole
    state as it is and touches no connection. *)
Theorem http_end_at_most_once s id st h body st' h' body' c :
  registry s !! as_usize id = Some c ->
  let s1 := fst (fst (receive_task
                        (command "http.end" (VArray [VNumber id; VNumber st; VObject h; body])) s)) in
  registry s1 = delete (as_usize id) (registry s) /\ registry s1 !! as_usize id = None /\
  let '(s2, t2, o2) :=
    receive_task (command "http.end" (VArray [VNumber id; VNumber st'; VObject h'; body'])) s1 in
  s2 = s1 /\ task_end o2 = Finished /\ In (ALog (lit "Invalid response id")) t2
  /\ forall c', forallb (fun a => negb (touches c' a)) t2 = true.
Proof.
  intros Hc s1.
  assert (Hs1 : registry s1 = delete (as_usize id) (registry s)).
  { subst s1. destruct (receive_task_http_end id st h body s) as (t0 & _ & E0).
    destruct (http_end_found id st h body s c Hc) as (t1 & _ & E1).
    rewrite E0. unfold panic_on_err. cbv beta. rewrite E1.
    pose proof (end_response_registry c (as_u16 st) h body
                  (set_registry (delete (as_usize id) (registry s)) s)) as R.
    destruct (end_response _ _ _ _ _) as [[s2 t2] o]. cbn in R.
    destruct o; exact R. }
  assert (Hn : registry s1 !! as_usize id = None) by (rewrite Hs1; apply lookup_delete_eq).
  split; [exact Hs1|]. split; [exact Hn|].
  destruct (receive_task_http_end id st' h' body' s1) as (t0 & Q0 & E0).
  destruct (http_end_missing id st' h' body' s1 Hn) as (t1 & Q1 & E1).
  rewrite E0. unfold panic_on_err. cbv beta. rewrite E1.
  repeat split.
  - apply in_app_iff. right. apply in_app_iff. right. right. left. reflexivity.
  - intros c'. rewrite !forallb_app, !only_logs_touches by assumption. reflexivity.
Qed.

Lemma http_end_at_most_once_witness :
  let s := mkSt 1 {[0 := 0%nat]} 0 [] [] in
  let s1 := fst (fst (receive_task
                        (command "http.end" (VArray [VNumber 0; VNumber 200; VObject []; VString (lit "hi")])) s)) in
  registry s1 = delete (as_usize 0) (registry s) /\ registry s1 !! as_usize 0 = None /\
  let '(s2, t2, o2) :=
    receive_task (command "http.end" (VArray [VNumber 0; VNumber 404; VObject []; VString []])) s1 in
  s2 = s1 /\ task_end o2 = Finished /\ In (ALog (lit "Invalid response id")) t2
  /\ forall c', forallb (fun a => negb (touches c' a)) t2 = true.
Proof. apply (http_end_at_most_once _ 0 200 [] (VString (lit "hi")) 404 [] (VString []) 0%nat). reflexivity. Defined.

(* ================================================================== *)
(** * C10: a completion whose body is neither a string nor an object *)

(** C10: completing a registered response with a body that is neither a
    string nor an object writes the head, logs [Invalid body type], drops
    the response (closing the connection) and removes the entry; the head
    is the only write to the connection. *)
Theorem http_end_invalid_body s id st h body c :
  registry s !! as_usize id = Some c -> io s = [] ->
  (forall x, body <> VString x) -> (forall o, body <> VObject o) ->
  let '(s', t, o) :=
    receive_task (command "http.end" (VArray [VNumber id; VNumber st; VObject h; body])) s in
  registry s' = delete (as_usize id) (registry s) /\ task_end o = Finished /\
  exists pre, only_logs pre = true /\
    t = pre ++ [ALock; AWrite c (encode_utf8 (head_text (as_u16 st) (now s) (map_to_iter h)));
                ALog (lit "Invalid body type"); AClose c; AUnlock].
Proof.
  intros Hc Hio Hs Ho.
  destruct (receive_task_http_end_ok id st h body s c Hc Hio) as (pre & Q & E).
  rewrite E. split; [reflexivity|]. split; [reflexivity|].
  exists pre. split; [exact Q|].
  destruct body as [| | | |x| |o];
    [reflexivity .. | exfalso; eapply Hs; reflexivity | reflexivity | exfalso; eapply Ho; reflexivity].
Qed.

Lemma http_end_invalid_body_witness :
  let s := mkSt 1 {[0 := 0%nat]} 0 [] [] in
  let '(s', t, o) :=
    receive_task (command "http.end" (VArray [VNumber 0; VNumber 200; VObject []; VNumber 42])) s in
  registry s' = delete (as_usize 0) (registry s) /\ task_end o = Finished /\
  exists pre, only_logs pre = true /\
    t = pre ++ [ALock; AWrite 0%nat (encode_utf8 (head_text (as_u16 200) (now s) (map_to_iter [])));
                ALog (lit "Invalid body type"); AClose 0%nat; AUnlock].
Proof.
  intros s. apply (http_end_invalid_body s 0 200 [] (VNumber 42) 0%nat);
    [reflexivity | reflexivity | intros x; discriminate | intros o; discriminate].
Defined.

(* ================================================================== *)
(** * C9: the registry lock and suspension points *)

(** C9 (the code diverges from the spec): completing a registered response
    takes the [RESPONSE_MAP] lock and holds its guard while the head, the
    body and the flush are awaited; the guard is dropped only at the end of
    the arm. *)
Theorem http_end_holds_lock_across_write s id st h body c :
  registry s !! as_usize id = Some c -> io s = [] ->
  lock_held_across_await false
    (snd (fst (receive_task (command "http.end" (VArray [VNumber id; VNumber st; VObject h; body])) s)))
  = true.
Proof.
  intros Hc Hio.
  destruct (receive_task_http_end_ok id st h body s c Hc Hio) as (pre & Q & E).
  rewrite E. cbn [fst snd]. rewrite only_logs_lock by exact Q. reflexivity.
Qed.

Lemma http_end_holds_lock_across_write_witness :
  lock_held_across_await false
    (snd (fst (receive_task (command "http.end" (VArray [VNumber 0; VNumber 200; VObject []; VString (lit "hi")]))
                 (mkSt 1 {[0 := 0%nat]} 0 [] []))))
  = true.
Proof. apply http_end_holds_lock_across_write with (c := 0%nat); reflexivity. Defined.

(* ================================================================== *)
(** * C7: the [http.writeHead] command *)

Lemma receive_write_head payload :
  handle_receive (command "http.writeHead" payload) =
  (log 1 (lit "Received JSON: " ++ to_string (command "http.writeHead" payload));;
   print (lit "Unknown method `http.writeHead`")).
Proof. reflexivity. Qed.

(** C7 (amended): [http.writeHead] is not handled (its arm is commented
    out in [handle_receive]): whatever its payload, the command is logged as
    an unknown method, and it neither changes the state (the registry
    included) nor writes to, flushes or closes any connection. *)
Theorem write_head_command_unknown s payload :
  let '(s', t, o) := receive_task (command "http.writeHead" payload) s in
  s' = s /\ task_end o = Finished /\ only_logs t = true
  /\ In (ALog (lit "Unknown method `http.writeHead`")) t.
Proof.
  unfold receive_task, panic_on_err. rewrite receive_write_head.
  destruct (log_spec 1 (lit "Received JSON: " ++ to_string (command "http.writeHead" payload)) s)
    as (t0 & E & Q).
  rewrite (bind_ret _ _ _ _ _ _ E). cbn [print emit].
  repeat split.
  - rewrite only_logs_app, Q. reflexivity.
  - apply in_app_iff. right. left. reflexivity.
Qed.

(** C7 counterexample: with connection 0 registered under id 0, the
    command [["http.writeHead", [0, 200, {}]]] writes nothing to it. *)
Lemma write_head_command_writes_nothing :
  let '(s', t, _) :=
    receive_task (command "http.writeHead" (VArray [VNumber 0; VNumber 200; VObject []]))
      (mkSt 1 {[0 := 0%nat]} 0 [] []) in
  registry s' !! 0 = Some 0%nat /\ forall b, ~ In (AWrite 0%nat b) t.
Proof.
  vm_compute. split; [reflexivity|].
  intros b H. repeat destruct H as [H|H]; discriminate || contradiction.
Qed.


(* ================================================================== *)
(** * The request handler *)

Lemma panic_on_err_fst {A} (m : M A) s : fst (panic_on_err m s) = fst (m s).
Proof. unfold panic_on_err. destruct (m s) as [[s1 t] []]; reflexivity. Qed.

Lemma frame_request_handler_invalid m p c :
  is_standard_method m = false -> frame (request_handler m p c).
Proof.
  intros Hm. unfold request_handler. rewrite Hm.
  apply frame_bind; [auto with frame|]. intros []. apply frame_owning. auto with frame.
Qed.

Lemma request_handler_standard m p c s :
  is_standard_method m = true ->
  let '(s', t, _) := request_handler m p c s in
  next_id s' = (next_id s + 1) mod 2 ^ 64
  /\ events t = (if wasm_ready s then [(lit "http.request", request_data m p (next_id s))] else [])
  /\ registry s' = <[next_id s := c]> (registry s).
Proof.
  intros Hm. unfold request_handler. rewrite Hm.
  unfold mbind, M_bind, log, fetch_add, emit, with_lock, register, send_event.
  cbn -[to_string request_data lit].
  destruct (2 <=? log_level s), (1 <=? log_level s); cbn -[to_string request_data lit];
    destruct (wasm_ready s); cbn -[to_string request_data lit];
    destruct (registry s !! next_id s); repeat split.
Qed.

Lemma connection_task_some c bytes :
  connection_task c (Some bytes) =
  let parts := split_whitespace (from_utf8_lossy (read_buffer bytes)) in
  panic_on_err (panic_on_err (request_handler (nth 0 parts []) (nth 1 parts []) c)).
Proof. reflexivity. Qed.

(* ================================================================== *)
(** * C4: the id counter *)

(** C4 (amended): a connection whose request line carries a standard
    method advances the counter by one (modulo 2^64, the [usize]
    wrap-around of [fetch_add]); any other accepted connection, one whose
    read failed included, leaves it as it is, and so does every guest
    command.  Nothing else writes the counter: it is never reset. *)
Theorem next_id_counts_standard_requests s c rd v :
  next_id (fst (fst (connection_task c rd s))) =
    match rd with
    | Some bytes =>
        if is_standard_method (nth 0 (split_whitespace (from_utf8_lossy (read_buffer bytes))) [])
        then (next_id s + 1) mod 2 ^ 64 else next_id s
    | None => next_id s
    end
  /\ next_id (fst (fst (receive_task v s))) = next_id s.
Proof.
  split; [|exact (keeps_id_panic_on_err _ (keeps_id_handle_receive v) s)].
  destruct rd as [bytes|]; [|reflexivity].
  rewrite connection_task_some. cbv zeta. rewrite !panic_on_err_fst.
  set (parts := split_whitespace _).
  destruct (is_standard_method (nth 0 parts [])) eqn:Hm.
  - pose proof (request_handler_standard (nth 0 parts []) (nth 1 parts []) c s Hm) as H.
    destruct (request_handler _ _ _ s) as [[s' t] o]. apply H.
  - exact (proj1 (frame_request_handler_invalid _ (nth 1 parts []) c Hm s)).
Qed.

(** C4 counterexample: the request [FOO /x HTTP/1.1] is accepted and
    answered, and the counter stays at 0. *)
Lemma non_standard_request_keeps_counter :
  let s := mkSt 0 ∅ 0 [] [] in
  let '(s', t, _) := connection_task 0%nat (Some (lit "FOO /x HTTP/1.1" ++ crlf ++ crlf)) s in
  In (AClose 0%nat) t /\ next_id s' = next_id s /\ next_id s' <> (next_id s + 1) mod 2 ^ 64.
Proof.
  vm_compute. split; [repeat (first [left; reflexivity | right]) | split; [reflexivity | discriminate]].
Qed.

Lemma utf8_step_ascii b0 r : (b0 <? 128) = true -> utf8_step b0 r = (b0, r).
Proof. intros H. unfold utf8_step. rewrite H. reflexivity. Qed.

Lemma lossy_ascii_app p x :
  forallb (fun b => b <? 128) p = true -> from_utf8_lossy (p ++ x) = p ++ from_utf8_lossy x.
Proof.
  induction p as [|b p IH]; intros H; [reflexivity|].
  apply andb_prop in H as [Hb Hp].
  unfold from_utf8_lossy. cbn [app length utf8_lossy_aux].
  rewrite utf8_step_ascii by exact Hb. cbn. f_equal. exact (IH Hp).
Qed.

Lemma read_buffer_app p r : (length p <= 512)%nat -> exists z, read_buffer (p ++ r) = p ++ z.
Proof.
  intros Hp. unfold read_buffer. rewrite firstn_app, firstn_all2 by lia.
  eexists. rewrite <- app_assoc. reflexivity.
Qed.

Lemma split_ws_nonws cur c s :
  is_whitespace c = false -> split_ws_aux cur (c :: s) = split_ws_aux (c :: cur) s.
Proof. intros H. cbn [split_ws_aux]. rewrite H. reflexivity. Qed.

Lemma split_ws_ws c x cur s :
  is_whitespace c = true -> split_ws_aux (x :: cur) (c :: s) = rev (x :: cur) :: split_ws_aux [] s.
Proof. intros H. cbn [split_ws_aux]. rewrite H. reflexivity. Qed.

Lemma split_get_x w z :
  is_whitespace w = true ->
  split_whitespace (lit "GET /x" ++ w :: z) = lit "GET" :: lit "/x" :: split_ws_aux [] z.
Proof.
  intros Hw. change (lit "GET /x" ++ w :: z) with (71 :: 69 :: 84 :: 32 :: 47 :: 120 :: w :: z).
  unfold split_whitespace.
  rewrite !split_ws_nonws by reflexivity. rewrite split_ws_ws by reflexivity.
  rewrite !split_ws_nonws by reflexivity. rewrite split_ws_ws by exact Hw.
  reflexivity.
Qed.

Lemma get_x_parts w rest :
  is_whitespace w = true -> w < 128 ->
  exists z, split_whitespace (from_utf8_lossy (read_buffer (lit "GET /x" ++ w :: rest)))
            = lit "GET" :: lit "/x" :: z.
Proof.
  intros Hw Hlt.
  destruct (read_buffer_app (lit "GET /x" ++ [w]) rest) as [y Hy]; [cbn; lia|].
  replace (lit "GET /x" ++ w :: rest) with ((lit "GET /x" ++ [w]) ++ rest)
    by (rewrite <- app_assoc; reflexivity).
  rewrite Hy, lossy_ascii_app.
  - rewrite <- app_assoc. cbn [app]. rewrite split_get_x by exact Hw. eauto.
  - cbn. apply Z.ltb_lt in Hlt. rewrite Hlt. reflexivity.
Qed.

(* ================================================================== *)
(** * C2: method filtering *)

(** C2 (corrected): a connection whose request line starts with a method
    other than the nine standard ones sends no [http.request] event and
    leaves the registry as it is.  One whose request line is [GET /x]
    (followed by an ASCII whitespace and anything) registers the connection
    under the fresh id [n], the counter's value: one entry more.  It sends
    exactly the event [[{method: "GET", url: "/x"}, {id: n}]] when the guest
    is initialized ([WASM_STORE] and [WASM_INSTANCE] set), and no event
    otherwise: [send_event] then only prints [WASM not initialized]. *)
Theorem request_method_filter s c bytes w rest :
  (is_standard_method (nth 0 (split_whitespace (from_utf8_lossy (read_buffer bytes))) []) = false ->
   let '(s', t, _) := connection_task c (Some bytes) s in
   events t = [] /\ registry s' = registry s) /\
  (is_whitespace w = true -> w < 128 -> registry s !! next_id s = None ->
   let '(s', t, _) := connection_task c (Some (lit "GET /x" ++ w :: rest)) s in
   events t = (if wasm_ready s
               then [(lit "http.request", request_data (lit "GET") (lit "/x") (next_id s))]
               else [])
   /\ registry s' = <[next_id s := c]> (registry s)
   /\ size (registry s') = S (size (registry s))).
Proof.
  split.
  - intros Hm.
    rewrite connection_task_some. cbv zeta.
    pose proof (frame_request_handler_invalid _
                  (nth 1 (split_whitespace (from_utf8_lossy (read_buffer bytes))) []) c Hm s)
      as (_ & Hr & He).
    unfold panic_on_err.
    destruct (request_handler _ _ _ s) as [[s' t] []]; cbn in *; auto.
  - intros Hw Hlt Hfree.
    destruct (get_x_parts w rest Hw Hlt) as [z Hz].
    rewrite connection_task_some. cbv zeta. rewrite Hz. cbn [nth].
    pose proof (request_handler_standard (lit "GET") (lit "/x") c s eq_refl) as H.
    unfold panic_on_err.
    destruct (request_handler _ _ _ s) as [[s' t] o]. destruct H as (_ & He & Hr).
    assert (Hsz : size (registry s') = S (size (registry s))).
    { rewrite Hr. apply map_size_insert_None. exact Hfree. }
    destruct o; auto.
Qed.

Lemma request_method_filter_witness :
  let s := mkSt 0 ∅ 0 [] [] in
  (let '(s', t, _) := connection_task 0%nat (Some (lit "FOO /x HTTP/1.1" ++ crlf ++ crlf)) s in
   events t = [] /\ registry s' = registry s) /\
  (let '(s', t, _) := connection_task 0%nat (Some (lit "GET /x" ++ 32 :: lit "HTTP/1.1" ++ crlf ++ crlf)) s in
   events t = [(lit "http.request", request_data (lit "GET") (lit "/x") (next_id s))]
   /\ registry s' = <[next_id s := 0%nat]> (registry s)
   /\ size (registry s') = S (size (registry s))).
Proof.
  intros s.
  destruct (request_method_filter s 0%nat (lit "FOO /x HTTP/1.1" ++ crlf ++ crlf) 32
              (lit "HTTP/1.1" ++ crlf ++ crlf)) as [Ha Hb].
  split; [apply Ha; vm_compute; reflexivity | apply Hb; reflexivity].
Defined.

(** C2 counterexample: while the guest's [_start] runs, [main] holds the
    store it took out of [WASM_STORE].  A [GET /x] request accepted then
    is registered under id 0, but [send_event] finds no store, prints
    [WASM not initialized] and sends no [http.request] event. *)
Lemma request_before_wasm_ready :
  let s := MkSt 0 ∅ 0 [] [] false in
  let '(s', t, _) := connection_task 0%nat (Some (lit "GET /x" ++ 32 :: lit "HTTP/1.1" ++ crlf ++ crlf)) s in
  events t = [] /\ In (ALog (lit "WASM not initialized")) t /\ registry s' = {[0 := 0%nat]}.
Proof.
  vm_compute. split; [reflexivity | split; [|reflexivity]].
  repeat (first [left; reflexivity | right]).
Qed.

(* ================================================================== *)
(** * Transport errors *)

Lemma write_head_fail c st h s l :
  io s = false :: l -> write_head c st h s = (set_io l s, [], Raise WriteError).
Proof.
  intros H. unfold write_head. rewrite (bind_ret _ _ s s [] (now s) eq_refl).
  rewrite write_all_fail with (l := l) by exact H. reflexivity.
Qed.

Lemma end_fail c b s l :
  io s = false :: l -> end_ c b s = (set_io l s, [], Raise WriteError).
Proof. intros H. unfold end_. exact (bind_raise _ _ _ _ _ _ (write_all_fail c _ s l H)). Qed.

Lemma end_response_fail c st h body s l :
  io s = false :: l -> end_response c st h body s = (set_io l s, [AClose c], Raise WriteError).
Proof.
  intros H. unfold end_response, owning.
  rewrite (bind_raise _ _ _ _ _ _ (write_head_fail c st _ s l H)). reflexivity.
Qed.

Lemma write_all_true c b s l :
  io s = true :: l -> write_all c b s = (set_io l s, [AWrite c b], Ret tt).
Proof. intros H. unfold write_all, mbind, M_bind, io_result. rewrite H. reflexivity. Qed.

Lemma flush_true c s l : io s = true :: l -> flush c s = (set_io l s, [AFlush c], Ret tt).
Proof. intros H. unfold flush, mbind, M_bind, io_result. rewrite H. reflexivity. Qed.

Lemma set_io_io l s : io (set_io l s) = l.
Proof. reflexivity. Qed.

Lemma set_io_twice l l' s : set_io l (set_io l' s) = set_io l s.
Proof. reflexivity. Qed.

Lemma write_head_true c st h s l :
  io s = true :: l ->
  write_head c st h s = (set_io l s, [AWrite c (encode_utf8 (head_text st (now s) h))], Ret tt).
Proof.
  intros H. unfold write_head. rewrite (bind_ret _ _ s s [] (now s) eq_refl).
  rewrite (write_all_true c _ s l H). reflexivity.
Qed.

(** [Response::end] when its [k]-th socket operation fails. *)
Lemma end_fail_at c b s k l :
  (k < 2)%nat -> io s = repeat true k ++ false :: l ->
  end_ c b s = (set_io l s, firstn k [AWrite c (encode_utf8 (chunk_text b)); AFlush c], Raise WriteError).
Proof.
  intros Hk H. destruct k as [|[|k]]; [| |lia]; cbn [repeat app] in H.
  - exact (end_fail c b s l H).
  - unfold end_. rewrite (bind_ret _ _ _ _ _ _ (write_all_true c _ s _ H)).
    unfold flush, mbind, M_bind, io_result. reflexivity.
Qed.

(** [end_response] when its [k]-th socket operation fails: the operations
    before it completed, the response is dropped. *)
Lemma end_response_fail_at c st h body s k l :
  (k < length (response_writes c st (now s) h body))%nat -> io s = repeat true k ++ false :: l ->
  end_response c st h body s =
  (set_io l s, firstn k (response_writes c st (now s) h body) ++ [AClose c], Raise WriteError).
Proof.
  intros Hk H. destruct k as [|k].
  - exact (end_response_fail c st h body s l H).
  - cbn [repeat app] in H. unfold end_response, owning.
    rewrite (bind_ret _ _ _ _ _ _ (write_head_true c st (map_to_iter h) s _ H)).
    destruct body as [| | | |x| |o]; cbn [response_writes length] in Hk; try lia;
      rewrite (end_fail_at c _ (set_io (repeat true k ++ false :: l) s) k l) by (auto; lia);
      reflexivity.
Qed.

Lemma receive_listen port :
  handle_receive (command "http.listen" (VNumber port)) =
  (log 1 (lit "Received JSON: " ++ to_string (command "http.listen" (VNumber port)));;
   listen (as_u16 port)).
Proof. reflexivity. Qed.

(** The accept loop uses up the listed socket outcomes up to the first
    failure: it then returns the [accept] error; with none it never
    returns. *)
Lemma accept_loop_io fuel s :
  (length (io s) <= fuel)%nat ->
  let '(s', t, o) := accept_loop fuel s in
  t = [] /\ next_id s' = next_id s /\ registry s' = registry s
  /\ o = (if forallb (fun b : bool => b) (io s) then Forever else Raise AcceptError).
Proof.
  revert s. induction fuel as [|f IH]; intros s Hl.
  - destruct (io s) eqn:E; [|cbn in Hl; lia]. cbn. auto.
  - cbn [accept_loop]. unfold mbind at 1, M_bind at 1, io_result.
    destruct (io s) as [|b l] eqn:E.
    + specialize (IH s). rewrite E in IH. specialize (IH ltac:(cbn; lia)).
      destruct (accept_loop f s) as [[s' t] o]. destruct IH as (-> & ? & ? & ->). auto.
    + destruct b.
      * specialize (IH (set_io l s) ltac:(cbn in Hl |- *; lia)).
        destruct (accept_loop f (set_io l s)) as [[s' t] o]. destruct IH as (-> & ? & ? & ->).
        auto.
      * cbn. auto.
Qed.

(** [["http.listen", port]] once [bind] has succeeded: the task logs,
    starts listening on [as_u16 port] and runs the accept loop. *)
Lemma receive_listen_bound s port a :
  io s = true :: a ->
  let '(s', t, o) := receive_task (command "http.listen" (VNumber port)) s in
  next_id s' = next_id s /\ registry s' = registry s
  /\ task_end o = (if forallb (fun b : bool => b) a then Serving else Panicked AcceptError)
  /\ exists t0, only_logs t0 = true /\ t = t0 ++ [AListen (as_u16 port)].
Proof.
  intros Hio. unfold receive_task, panic_on_err. rewrite receive_listen.
  destruct (log_spec 1 (lit "Received JSON: " ++ to_string (command "http.listen" (VNumber port))) s)
    as (t0 & E0 & Q0).
  rewrite (bind_ret _ _ _ _ _ _ E0). unfold listen.
  destruct (log_spec 1 (lit "Listening on port " ++ itoa (as_u16 port)) s) as (t1 & E1 & Q1).
  rewrite (bind_ret _ _ _ _ _ _ E1). unfold server_listen.
  rewrite (bind_ret _ _ s (set_io a s) [] true) by (unfold io_result; rewrite Hio; reflexivity).
  cbv beta iota.
  rewrite (bind_ret _ _ (set_io a s) (set_io a s) [AListen (as_u16 port)] tt eq_refl).
  unfold accept_connections.
  pose proof (accept_loop_io (length (io (set_io a s))) (set_io a s) (le_n _)) as H.
  destruct (accept_loop _ (set_io a s)) as [[s2 t2] o2].
  destruct H as (-> & Hn & Hr & ->). rewrite set_io_io.
  assert (Ht : only_logs (t0 ++ t1) = true)
    by (unfold only_logs in *; rewrite forallb_app, Q0, Q1; reflexivity).
  destruct (forallb _ a); cbn; (split; [exact Hn|]); (split; [exact Hr|]);
    (split; [reflexivity|]); exists (t0 ++ t1); (split; [exact Ht|]);
    rewrite <- !app_assoc; reflexivity.
Qed.

(** C8: every transport error ends the task it happens in with a panic
    carrying the [io::Error], which the tokio runtime catches at the task
    boundary (the default [panic = unwind]) and the panic hook prints: the
    process goes on.  A failed [bind] leaves no listener; a failed
    [accept], after any number of accepted connections, ends the listener
    task; a failed [read] drops (closes) the connection; a failed write or
    flush while answering a request with a non-standard method drops the
    connection, the registry as it was; a failed write or flush while
    completing a registered response drops the connection, whose entry is
    gone, and releases the registry lock.  In each case the operations
    before the failing one completed ([k] of them). *)
Theorem transport_errors_abandoned s l k port c bytes id st h body :
  (io s = false :: l ->
   let '(_, t, o) := receive_task (command "http.listen" (VNumber port)) s in
   task_end o = Panicked BindError /\ only_logs t = true) /\
  (io s = true :: repeat true k ++ false :: l ->
   let '(s', t, o) := receive_task (command "http.listen" (VNumber port)) s in
   task_end o = Panicked AcceptError /\ registry s' = registry s
   /\ exists t0, only_logs t0 = true /\ t = t0 ++ [AListen (as_u16 port)]) /\
  connection_task c None s = (s, [AClose c], Panic ReadError) /\
  (is_standard_method (nth 0 (split_whitespace (from_utf8_lossy (read_buffer bytes))) []) = false ->
   (k < 2)%nat -> io s = repeat true k ++ false :: l ->
   let '(s', t, o) := connection_task c (Some bytes) s in
   task_end o = Panicked WriteError /\ registry s' = registry s
   /\ exists t0, only_logs t0 = true /\
       t = t0 ++ firstn k [AWrite c (encode_utf8 (chunk_text [])); AFlush c] ++ [AClose c]) /\
  (registry s !! as_usize id = Some c ->
   (k < length (response_writes c (as_u16 st) (now s) h body))%nat ->
   io s = repeat true k ++ false :: l ->
   let '(s', t, o) :=
     receive_task (command "http.end" (VArray [VNumber id; VNumber st; VObject h; body])) s in
   task_end o = Panicked WriteError /\ registry s' = delete (as_usize id) (registry s)
   /\ exists t0, only_logs t0 = true /\
       t = t0 ++ ALock :: firstn k (response_writes c (as_u16 st) (now s) h body) ++ [AClose c; AUnlock]).
Proof.
  split; [|split; [|split; [reflexivity | split]]].
  - intros Hio. unfold receive_task, panic_on_err. rewrite receive_listen.
    destruct (log_spec 1 (lit "Received JSON: " ++ to_string (command "http.listen" (VNumber port))) s)
      as (t0 & E0 & Q0).
    rewrite (bind_ret _ _ _ _ _ _ E0). unfold listen.
    destruct (log_spec 1 (lit "Listening on port " ++ itoa (as_u16 port)) s) as (t1 & E1 & Q1).
    rewrite (bind_ret _ _ _ _ _ _ E1).
    unfold server_listen, mbind at 1, M_bind at 1, io_result. rewrite Hio.
    cbn [raise]. split; [reflexivity|].
    rewrite app_nil_r. unfold only_logs in *. rewrite forallb_app, Q0, Q1. reflexivity.
  - intros Hio. pose proof (receive_listen_bound s port _ Hio) as H.
    destruct (receive_task _ s) as [[s' t] o]. destruct H as (_ & Hr & Ho & Ht).
    assert (Hf : forall k', forallb (fun b : bool => b) (repeat true k' ++ false :: l) = false)
      by (intros k'; induction k' as [|k' IH]; [reflexivity | exact IH]).
    rewrite Hf in Ho.
    auto.
  - intros Hm Hk Hio. rewrite connection_task_some. cbv zeta.
    unfold request_handler. rewrite Hm.
    set (m := nth 0 _ []). set (p := nth 1 _ []).
    destruct (log_spec 2 (lit "Received request: " ++ m ++ [32] ++ p) s) as (t0 & E0 & Q0).
    destruct (log_spec 2 (lit "Invalid method `" ++ m ++ lit "`") s) as (t1 & E1 & Q1).
    unfold panic_on_err. rewrite (bind_ret _ _ _ _ _ _ E0). unfold owning.
    rewrite (bind_ret _ _ _ _ _ _ E1), (end_fail_at c [] s k l Hk Hio).
    split; [reflexivity|]. split; [reflexivity|].
    exists (t0 ++ t1). rewrite <- !app_assoc. split; [|reflexivity].
    unfold only_logs in *. rewrite forallb_app, Q0, Q1. reflexivity.
  - intros Hc Hk Hio.
    destruct (receive_task_http_end id st h body s) as (t0 & Q0 & E0).
    destruct (http_end_found id st h body s c Hc) as (t1 & Q1 & E1).
    rewrite E0. unfold panic_on_err. cbv beta. rewrite E1.
    rewrite (end_response_fail_at c (as_u16 st) h body
               (set_registry (delete (as_usize id) (registry s)) s) k l Hk Hio).
    split; [reflexivity|]. split; [reflexivity|].
    exists (t0 ++ t1). split.
    + unfold only_logs in *. rewrite forallb_app, Q0, Q1. reflexivity.
    + rewrite <- !app_assoc. reflexivity.
Qed.

Lemma transport_errors_abandoned_witness :
  (let s := mkSt 1 {[0 := 0%nat]} 0 [] [false] in
   let '(_, t, o) := receive_task (command "http.listen" (VNumber 3000)) s in
   task_end o = Panicked BindError /\ only_logs t = true) /\
  (let s := mkSt 1 {[0 := 0%nat]} 0 [] [true; true; false] in
   let '(s', t, o) := receive_task (command "http.listen" (VNumber 3000)) s in
   task_end o = Panicked AcceptError /\ registry s' = registry s
   /\ exists t0, only_logs t0 = true /\ t = t0 ++ [AListen (as_u16 3000)]) /\
  (let s := mkSt 1 {[0 := 0%nat]} 0 [] [] in
   connection_task 0%nat None s = (s, [AClose 0%nat], Panic ReadError)) /\
  (let s := mkSt 1 {[0 := 0%nat]} 0 [] [true; false] in
   let '(s', t, o) := connection_task 0%nat (Some (lit "FOO /x HTTP/1.1" ++ crlf ++ crlf)) s in
   task_end o = Panicked WriteError /\ registry s' = registry s
   /\ exists t0, only_logs t0 = true /\
       t = t0 ++ firstn 1 [AWrite 0%nat (encode_utf8 (chunk_text [])); AFlush 0%nat] ++ [AClose 0%nat]) /\
  (let s := mkSt 1 {[0 := 0%nat]} 0 [] [true; true; false] in
   let '(s', t, o) :=
     receive_task (command "http.end" (VArray [VNumber 0; VNumber 200; VObject []; VString (lit "hi")])) s in
   task_end o = Panicked WriteError /\ registry s' = delete (as_usize 0) (registry s)
   /\ exists t0, only_logs t0 = true /\
       t = t0 ++ ALock :: firstn 2 (response_writes 0%nat (as_u16 200) (now s) [] (VString (lit "hi")))
              ++ [AClose 0%nat; AUnlock]).
Proof.
  split; [|split; [|split; [|split]]]; intros s.
  - destruct (transport_errors_abandoned s [] 0 3000 0%nat [] 0 200 [] VNull) as (H & _).
    exact (H eq_refl).
  - destruct (transport_errors_abandoned s [] 1 3000 0%nat [] 0 200 [] VNull) as (_ & H & _).
    exact (H eq_refl).
  - destruct (transport_errors_abandoned s [] 0 3000 0%nat [] 0 200 [] VNull) as (_ & _ & H & _).
    exact H.
  - destruct (transport_errors_abandoned s [] 1 3000 0%nat (lit "FOO /x HTTP/1.1" ++ crlf ++ crlf)
                0 200 [] VNull) as (_ & _ & _ & H & _).
    refine (H _ ltac:(lia) eq_refl). vm_compute. reflexivity.
  - destruct (transport_errors_abandoned s [] 2 3000 0%nat [] 0 200 [] (VString (lit "hi")))
      as (_ & _ & _ & _ & H).
    exact (H eq_refl ltac:(cbn; lia) eq_refl).
Defined.

(* ================================================================== *)
(** * The guest's console: [spectest::print_char] *)

Lemma print_chars_app b l1 l2 :
  print_chars b (l1 ++ l2) =
  match print_chars b l1 with
  | Some (b', t) =>
      match print_chars b' l2 with Some (b'', t') => Some (b'', t ++ t') | None => None end
  | None => None
  end.
Proof.
  revert b. induction l1 as [|ch l1 IH]; intros b; cbn [app print_chars].
  - destruct (print_chars b l2) as [[]|]; reflexivity.
  - destruct (print_char b ch) as [[b1 t1]|]; [|reflexivity].
    rewrite IH. destruct (print_chars b1 l1) as [[b2 t2]|]; [|reflexivity].
    destruct (print_chars b2 l2) as [[b3 t3]|]; [|reflexivity].
    rewrite app_assoc. reflexivity.
Qed.

Lemma land_u16 w : 0 <= w < 65536 -> Z.land w 65535 = w.
Proof.
  intros Hw. change 65535 with (Z.ones 16). rewrite Z.land_ones by lia.
  apply Z.mod_small. change (2 ^ 16) with 65536. lia.
Qed.

Lemma print_char_push b w :
  0 <= w < 65536 -> w <> 10 -> w <> 13 -> print_char b w = Some (b ++ [w], []).
Proof.
  intros Hw H10 H13. unfold print_char.
  rewrite (proj2 (Z.eqb_neq w 10) H10), (proj2 (Z.eqb_neq w 13) H13), land_u16 by exact Hw.
  reflexivity.
Qed.

Lemma print_chars_units b s :
  forallb is_scalar s = true -> ~ In 10 s ->
  print_chars b (encode_utf16 s) =
  Some (b ++ encode_utf16 (List.filter (fun c => negb (c =? 13)) s), []).
Proof.
  revert b. induction s as [|c s IH]; intros b Hs Hn.
  - cbn. rewrite app_nil_r. reflexivity.
  - cbn [forallb] in Hs. apply andb_prop in Hs as [Hc Hs]. apply scalar_iff in Hc.
    assert (Hc10 : c <> 10) by (intros ->; apply Hn; left; reflexivity).
    assert (Hn' : ~ In 10 s) by (intros H; apply Hn; right; exact H).
    change (encode_utf16 (c :: s)) with (encode_utf16_char c ++ encode_utf16 s).
    rewrite print_chars_app. cbn [List.filter].
    unfold encode_utf16_char. destruct (Z.ltb_spec c 65536).
    + cbn [print_chars]. destruct (Z.eqb_spec c 13) as [->|H13].
      * cbn. rewrite IH by assumption. reflexivity.
      * rewrite print_char_push by (auto; lia). rewrite IH by assumption.
        zbool. cbn [negb]. change (encode_utf16 (c :: ?l)) with (encode_utf16_char c ++ encode_utf16 l).
        unfold encode_utf16_char. zbool. cbn [app]. rewrite <- !app_assoc. reflexivity.
    + assert (Hhi : 55296 <= 55296 + Z.shiftr (c - 65536) 10 < 56320).
      { rewrite Z.shiftr_div_pow2 by lia. change (2 ^ 10) with 1024.
        assert (0 <= (c - 65536) / 1024) by (apply Z.div_pos; lia).
        assert ((c - 65536) / 1024 < 1024) by (apply Z.div_lt_upper_bound; lia). lia. }
      assert (Hlo : 56320 <= 56320 + Z.land (c - 65536) 1023 < 57344).
      { change 1023 with (Z.ones 10). rewrite Z.land_ones by lia.
        pose proof (Z.mod_pos_bound (c - 65536) (2 ^ 10)). change (2 ^ 10) with 1024 in *. lia. }
      cbn [print_chars]. rewrite print_char_push by lia. rewrite print_char_push by lia.
      rewrite IH by assumption. zbool. cbn [negb].
      change (encode_utf16 (c :: ?l)) with (encode_utf16_char c ++ encode_utf16 l).
      unfold encode_utf16_char. zbool. cbn [app]. rewrite <- !app_assoc. reflexivity.
Qed.

Lemma filter_scalar (f : Z -> bool) s : forallb is_scalar s = true -> forallb is_scalar (List.filter f s) = true.
Proof.
  induction s as [|c s IH]; [reflexivity|]. cbn [forallb List.filter].
  intros H. apply andb_prop in H as [Hc Hs]. destruct (f c); cbn [forallb]; rewrite ?Hc; auto.
Qed.

(** The guest printing a line: the UTF-16 units of a text without newlines,
    then a newline, print that text with its carriage returns removed, and
    leave the line buffer empty. *)
Theorem print_chars_line s :
  forallb is_scalar s = true -> ~ In 10 s ->
  print_chars [] (encode_utf16 s ++ [10])
  = Some ([], [ALog (List.filter (fun c => negb (c =? 13)) s)]).
Proof.
  intros Hs Hn. rewrite print_chars_app, print_chars_units by assumption.
  cbn [app print_chars]. unfold print_char at 1. cbn [Z.eqb Pos.eqb].
  rewrite from_utf16_encode by (apply filter_scalar; exact Hs). reflexivity.
Qed.

Lemma print_chars_line_witness :
  print_chars [] (encode_utf16 [104; 105; 13; 128512] ++ [10])
  = Some ([], [ALog (List.filter (fun c => negb (c =? 13)) [104; 105; 13; 128512])]).
Proof.
  apply print_chars_line; [reflexivity|]. cbn. intuition discriminate.
Defined.

(* ================================================================== *)
(** * Guest to host: [h_sd] and [h_se] *)

Lemma fold_h_sd u acc :
  Forall (fun w => 0 <= w < 65536) u -> fold_left h_sd u acc = acc ++ u.
Proof.
  revert acc. induction u as [|w u IH]; intros acc Hu; [rewrite app_nil_r; reflexivity|].
  inversion Hu as [|? ? Hw Hu']; subst. cbn [fold_left]. unfold h_sd at 2.
  rewrite land_u16 by exact Hw. rewrite IH by exact Hu'. rewrite <- app_assoc. reflexivity.
Qed.

Lemma forallb_good_scalar s : forallb good s = true -> forallb is_scalar s = true.
Proof.
  induction s as [|c s IH]; [reflexivity|]. cbn [forallb]. intros H.
  apply andb_prop in H as [Hc Hs]. rewrite good_scalar by exact Hc. auto.
Qed.

(** The guest sending a value: the UTF-16 units of its JSON text, one
    [h_sd] call each, then [h_se], make the host spawn [handle_receive] on
    that very value, print nothing and leave the buffer empty. *)
Theorem guest_send_roundtrip v :
  wf_value v = true -> (vdepth v < 128)%nat ->
  guest_send (encode_utf16 (to_string v)) = ([], [], Some v).
Proof.
  intros Hwf Hd.
  pose proof (forallb_good_scalar _ (good_to_string _ v Hwf)) as Hs.
  unfold guest_send. rewrite fold_h_sd by (apply encode_utf16_units; exact Hs).
  cbn [app].
  destruct (to_string_head v) as (c & t & Ht & _).
  assert (Hne : encode_utf16 (to_string v) <> []).
  { rewrite Ht. change (encode_utf16 (c :: t)) with (encode_utf16_char c ++ encode_utf16 t).
    unfold encode_utf16_char. destruct (c <? 65536); discriminate. }
  unfold h_se. rewrite from_utf16_encode by exact Hs.
  rewrite strip_nul_good by exact (good_to_string _ v Hwf).
  rewrite from_str_to_string by assumption.
  destruct (encode_utf16 (to_string v)); [contradiction | reflexivity].
Qed.

Lemma guest_send_roundtrip_witness :
  guest_send (encode_utf16 (to_string (VArray [VString (lit "http.listen"); VNumber 3000])))
  = ([], [], Some (VArray [VString (lit "http.listen"); VNumber 3000])).
Proof. apply guest_send_roundtrip; [reflexivity | cbn; lia]. Defined.

(* ================================================================== *)
(** * The [-l] option *)

Lemma itoa_digits n :
  0 <= n < 10 ^ 20 ->
  exists c t, itoa n = c :: t /\ forallb is_digit (c :: t) = true /\ digits_value 0 (c :: t) = n.
Proof.
  intros Hn. unfold itoa. rewrite (proj2 (Z.ltb_ge n 0)) by lia.
  destruct (dec_digits_spec 19 n) as (c & t & E & Hall & Hv & _); [exact Hn|].
  exists c, t. split; [exact E|]. split; [|exact Hv].
  apply forallb_forall. intros x Hx. rewrite List.Forall_forall in Hall. auto.
Qed.

Lemma is_digit_not_plus c : is_digit c = true -> (c =? 43) = false.
Proof. unfold is_digit. intros H. apply andb_prop in H as [H1 H2]. apply Z.leb_le in H1. apply Z.eqb_neq. lia. Qed.

Lemma digits_value_zeros k ds : digits_value 0 (repeat 48 k ++ ds) = digits_value 0 ds.
Proof. induction k as [|k IH]; [reflexivity|]. exact IH. Qed.

Lemma forallb_digit_zeros k : forallb is_digit (repeat 48 k) = true.
Proof. induction k as [|k IH]; [reflexivity|]. exact IH. Qed.

(** A non-empty digit string, with or without a leading [+], gives its
    decimal value when that fits a [usize], and 0 past it. *)
Lemma log_level_digits ds :
  forallb is_digit ds = true -> ds <> [] ->
  log_level_of (Some ds) = (if digits_value 0 ds <=? u64_max then digits_value 0 ds else 0) /\
  log_level_of (Some (43 :: ds)) = (if digits_value 0 ds <=? u64_max then digits_value 0 ds else 0).
Proof.
  intros Hd Hne. destruct ds as [|c t]; [contradiction|].
  unfold log_level_of, parse_usize, digits_usize. split.
  - pose proof Hd as Hd'. cbn [forallb] in Hd'. apply andb_prop in Hd' as [Hc _].
    rewrite is_digit_not_plus by exact Hc. rewrite Hd.
    destruct (digits_value 0 (c :: t) <=? u64_max); reflexivity.
  - cbn [Z.eqb Pos.eqb]. rewrite Hd.
    destruct (digits_value 0 (c :: t) <=? u64_max); reflexivity.
Qed.

(** The log level from [-l]: a decimal number up to [usize::MAX], with or
    without a leading [+] and with any number of leading zeros, is taken
    as it is; a digit string whose value is past [usize::MAX], with or
    without a leading [+], a lone [+], an empty value, a value with any
    other character, and no option at all give level 0. *)
Theorem log_level_of_spec n k ds a r :
  (0 <= n <= u64_max ->
   log_level_of (Some (repeat 48 k ++ itoa n)) = n /\
   log_level_of (Some (43 :: repeat 48 k ++ itoa n)) = n) /\
  (forallb is_digit ds = true -> u64_max < digits_value 0 ds ->
   log_level_of (Some ds) = 0 /\ log_level_of (Some (43 :: ds)) = 0) /\
  log_level_of None = 0 /\ log_level_of (Some []) = 0 /\ log_level_of (Some [43]) = 0 /\
  (forallb is_digit a = false -> (forall r', a <> 43 :: r') -> log_level_of (Some a) = 0) /\
  (forallb is_digit r = false -> log_level_of (Some (43 :: r)) = 0).
Proof.
  pose proof u64_max_lt as Hmax.
  split; [|split; [|split; [reflexivity|split; [reflexivity|split; [reflexivity|split]]]]].
  - intros Hn. destruct (itoa_digits n) as (c & t & E & Hd & Hv); [lia|].
    assert (Hds : forallb is_digit (repeat 48 k ++ itoa n) = true).
    { rewrite forallb_app, forallb_digit_zeros, E, Hd. reflexivity. }
    assert (Hne : repeat 48 k ++ itoa n <> []).
    { rewrite E. intros H. apply app_eq_nil in H as [_ H]. discriminate H. }
    destruct (log_level_digits _ Hds Hne) as [-> ->].
    rewrite digits_value_zeros, E, Hv, (proj2 (Z.leb_le n u64_max) (proj2 Hn)).
    split; reflexivity.
  - intros Hds Hgt.
    assert (Hne : ds <> []).
    { intros ->. cbn in Hgt. unfold u64_max in Hgt. lia. }
    destruct (log_level_digits ds Hds Hne) as [-> ->].
    rewrite (proj2 (Z.leb_gt _ _) Hgt). split; reflexivity.
  - intros Ha Hp. unfold log_level_of, parse_usize, digits_usize.
    destruct a as [|c a']; [discriminate|].
    destruct (Z.eqb_spec c 43) as [->|_]; [exfalso; exact (Hp a' eq_refl)|].
    rewrite Ha. reflexivity.
  - intros Hr. unfold log_level_of, parse_usize, digits_usize. cbn [Z.eqb Pos.eqb].
    destruct r; [reflexivity|]. rewrite Hr. reflexivity.
Qed.

Lemma log_level_of_spec_witness :
  (log_level_of (Some (repeat 48 2 ++ itoa 2)) = 2 /\
   log_level_of (Some (43 :: repeat 48 2 ++ itoa 2)) = 2) /\
  (log_level_of (Some (lit "123456789012345678901234567890")) = 0 /\
   log_level_of (Some (43 :: lit "123456789012345678901234567890")) = 0) /\
  log_level_of None = 0 /\ log_level_of (Some []) = 0 /\ log_level_of (Some [43]) = 0 /\
  log_level_of (Some (lit "2x")) = 0 /\ log_level_of (Some (43 :: lit "-1")) = 0.
Proof.
  destruct (log_level_of_spec 2 2 (lit "123456789012345678901234567890") (lit "2x") (lit "-1"))
    as (H1 & H2 & H3 & H4 & H5 & H6 & H7).
  split; [apply H1; unfold u64_max; lia|].
  split; [apply H2; vm_compute; reflexivity|].
  split; [exact H3|]. split; [exact H4|]. split; [exact H5|].
  split; [apply H6; [reflexivity | intros r' E; discriminate E] | apply H7; reflexivity].
Defined.

(* ================================================================== *)
(** * Numbers from the guest: [as_f64() as u16] and [as usize] *)

Lemma f64_of_int_small n : Z.abs n < 2 ^ 53 -> f64_of_int n = n.
Proof. intros H. unfold f64_of_int. rewrite (proj2 (Z.ltb_lt _ _) H). reflexivity. Qed.

(** Past [2^53] the rounded magnitude stays at least [2^53], the sign kept. *)
Lemma f64_of_int_large n :
  2 ^ 53 <= Z.abs n -> exists m, 2 ^ 53 <= m /\ f64_of_int n = Z.sgn n * m.
Proof.
  intros H. unfold f64_of_int. rewrite (proj2 (Z.ltb_ge _ _) H).
  set (a := Z.abs n) in *.
  assert (Hl : 53 <= Z.log2 a) by (apply Z.log2_le_pow2; lia).
  set (e := Z.log2 a - 52).
  assert (Hp : 2 ^ Z.log2 a <= a) by (apply Z.log2_spec; lia).
  assert (Hq : 2 ^ 52 <= Z.shiftr a e).
  { rewrite Z.shiftr_div_pow2 by lia. apply Z.div_le_lower_bound; [apply Z.pow_pos_nonneg; lia|].
    rewrite <- Z.pow_add_r by lia. replace (e + 52) with (Z.log2 a) by lia. exact Hp. }
  set (q := Z.shiftr a e) in *.
  eexists. split; [|reflexivity].
  assert (Hq' : q <= (if (2 ^ (e - 1) <? a - Z.shiftl q e) || ((a - Z.shiftl q e =? 2 ^ (e - 1)) && Z.odd q)
                      then q + 1 else q)) by (destruct (_ || _); lia).
  rewrite Z.shiftl_mul_pow2 by lia.
  assert (2 ^ 53 <= 2 ^ 52 * 2 ^ e).
  { rewrite <- Z.pow_add_r by lia. apply Z.pow_le_mono_r; lia. }
  assert (0 <= 2 ^ e) by (apply Z.pow_nonneg; lia). nia.
Qed.

Lemma as_u16_clamp p : as_u16 p = Z.max 0 (Z.min 65535 p).
Proof.
  unfold as_u16. destruct (Z.ltb_spec (Z.abs p) (2 ^ 53)) as [H|H].
  - rewrite f64_of_int_small by exact H. reflexivity.
  - destruct (f64_of_int_large p H) as (m & Hm & E). rewrite E.
    destruct (Z.abs_spec p) as [[Hp Ha]|[Hp Ha]].
    + rewrite Z.sgn_pos by lia. lia.
    + rewrite Z.sgn_neg by lia. lia.
Qed.

Lemma as_usize_exact id : id < 2 ^ 53 -> as_usize id = Z.max 0 id.
Proof.
  intros Hid. unfold as_usize. pose proof pow63_u64 as Hu.
  destruct (Z.ltb_spec (Z.abs id) (2 ^ 53)) as [H|H].
  - rewrite f64_of_int_small by exact H.
    assert (2 ^ 53 <= 2 ^ 63) by (apply Z.pow_le_mono_r; lia). lia.
  - destruct (f64_of_int_large id H) as (m & Hm & E). rewrite E.
    rewrite Z.sgn_neg by lia. lia.
Qed.

(** [["http.listen", port]]: once [bind] has succeeded the server listens
    on [port] clamped to [[0, 65535]] ([as u16] saturates).  Besides, the
    task only logs and leaves the counter and the registry as they are.
    It then runs the accept loop: the task never ends while every
    [accept] succeeds, and ends with a panic carrying the [accept] error
    at the first one that fails. *)
Theorem listen_port_clamped s port a :
  io s = true :: a ->
  let '(s', t, o) := receive_task (command "http.listen" (VNumber port)) s in
  next_id s' = next_id s /\ registry s' = registry s
  /\ task_end o = (if forallb (fun b : bool => b) a then Serving else Panicked AcceptError)
  /\ exists t0, only_logs t0 = true /\ t = t0 ++ [AListen (Z.max 0 (Z.min 65535 port))].
Proof.
  intros Hio. pose proof (receive_listen_bound s port a Hio) as H.
  destruct (receive_task _ s) as [[s' t] o]. rewrite as_u16_clamp in H. exact H.
Qed.

Lemma listen_port_clamped_witness :
  let s := mkSt 0 ∅ 0 [] [true; true; false] in
  let '(s', t, o) := receive_task (command "http.listen" (VNumber 70000)) s in
  next_id s' = next_id s /\ registry s' = registry s
  /\ task_end o = (if forallb (fun b : bool => b) [true; false] then Serving else Panicked AcceptError)
  /\ exists t0, only_logs t0 = true /\ t = t0 ++ [AListen (Z.max 0 (Z.min 65535 70000))].
Proof. intros s. exact (listen_port_clamped s 70000 [true; false] eq_refl). Defined.

(** [["http.end", [id, ..]]] with an integer id below [2^53] addresses the
    registry key [id], and a negative id the key 0.  That response is
    completed and removed: under the registry lock its connection gets
    the head and, for a string or an object body, the chunk and a flush;
    the connection is then closed. *)
Theorem http_end_id_key s id st h body c :
  id < 2 ^ 53 -> registry s !! Z.max 0 id = Some c -> io s = [] ->
  let '(s', t, o) :=
    receive_task (command "http.end" (VArray [VNumber id; VNumber st; VObject h; body])) s in
  registry s' = delete (Z.max 0 id) (registry s) /\ task_end o = Finished
  /\ exists pre post, only_logs pre = true /\ only_logs post = true /\
     t = pre ++ ALock :: response_writes c (as_u16 st) (now s) h body ++ post ++ [AClose c; AUnlock].
Proof.
  intros Hid Hc Hio. rewrite <- as_usize_exact in Hc |- * by exact Hid.
  destruct (receive_task_http_end_writes id st h body s c Hc Hio) as (pre & post & Q1 & Q2 & E).
  rewrite E. split; [reflexivity|]. split; [reflexivity|]. exists pre, post. auto.
Qed.

Lemma http_end_id_key_witness :
  let s := mkSt 1 {[0 := 7%nat]} 0 [] [] in
  let '(s', t, o) :=
    receive_task (command "http.end" (VArray [VNumber (-1); VNumber 200; VObject []; VNumber 3])) s in
  registry s' = delete (Z.max 0 (-1)) (registry s) /\ task_end o = Finished
  /\ exists pre post, only_logs pre = true /\ only_logs post = true /\
     t = pre ++ ALock :: response_writes 7%nat (as_u16 200) (now s) [] (VNumber 3) ++ post
           ++ [AClose 7%nat; AUnlock].
Proof.
  intros s. exact (http_end_id_key s (-1) 200 [] (VNumber 3) 7%nat ltac:(lia) eq_refl eq_refl).
Defined.

(* ================================================================== *)
(** * What a guest command can do to the registry *)

Lemma takes_frame {A} (m : M A) : frame m -> takes_at_most_one m.
Proof. intros Hm s. destruct (Hm s) as (_ & Hr & He). auto. Qed.

Lemma takes_bind_frame {A B} (m : M A) (f : A -> M B) :
  frame m -> (forall a, takes_at_most_one (f a)) -> takes_at_most_one (m ≫= f).
Proof.
  intros Hm Hf s. specialize (Hm s). unfold mbind, M_bind.
  destruct (m s) as [[s1 t1] o]. cbn in Hm. destruct Hm as (_ & Hr1 & He1).
  destruct o as [a|e|e|]; cbn; try (rewrite He1, Hr1; auto).
  destruct (Hf a s1) as [He2 Hr2]. destruct (f a s1) as [[s2 t2] o2]. cbn in *.
  rewrite events_app, He1, He2, <- Hr1. auto.
Qed.

Lemma takes_panic_on_err {A} (m : M A) : takes_at_most_one m -> takes_at_most_one (panic_on_err m).
Proof. intros Hm s. rewrite panic_on_err_fst. apply Hm. Qed.

Lemma takes_http_end id st h body : takes_at_most_one (http_end id st h body).
Proof.
  intros s. destruct (registry s !! id) as [c|] eqn:Hc.
  - destruct (http_end_found_at id st h body s c Hc) as (t0 & Q0 & E). rewrite E.
    pose proof (frame_end_response c st h body
                  (set_registry (delete id (registry s)) s)) as (_ & Hr & He).
    destruct (end_response _ _ _ _ _) as [[s2 t2] o]. cbn in *.
    rewrite events_app, only_logs_events by exact Q0. cbn [events]. rewrite events_app, He.
    split; [reflexivity|]. right. exists id. exact Hr.
  - destruct (http_end_missing_at id st h body s Hc) as (t0 & Q0 & E). rewrite E. cbn.
    rewrite events_app, only_logs_events by exact Q0. auto.
Qed.

(** No guest command sends an event to the guest or adds a response to
    the registry: whatever the command, the registry after it is the one
    before, or that one with a single key removed. *)
Theorem receive_task_takes_at_most_one v : takes_at_most_one (receive_task v).
Proof.
  unfold receive_task. apply takes_panic_on_err. unfold handle_receive.
  apply takes_bind_frame; [auto with frame|]. intros [].
  repeat case_match; first [apply takes_http_end | apply takes_frame; auto with frame].
Qed.

(* ================================================================== *)
(** * The answer to a request with a non-standard method *)

(** A request whose method is not one of the nine standard ones is
    answered, without status line or headers, by the chunked encoding of
    the empty body, [0\r\n\r\n0\r\n\r\n]: a last chunk followed by a second
    one; the connection is then flushed and closed, the state as it was.
    An empty read (nothing but the zeroed buffer) is such a request. *)
Theorem invalid_method_answer s c bytes :
  (is_standard_method (nth 0 (split_whitespace (from_utf8_lossy (read_buffer bytes))) []) = false ->
   io s = [] ->
   let '(s', t, o) := connection_task c (Some bytes) s in
   s' = s /\ task_end o = Finished
   /\ exists t0, only_logs t0 = true
        /\ t = t0 ++ [AWrite c [48; 13; 10; 13; 10; 48; 13; 10; 13; 10]; AFlush c; AClose c]) /\
  is_standard_method (nth 0 (split_whitespace (from_utf8_lossy (read_buffer []))) []) = false.
Proof.
  split; [|vm_compute; reflexivity].
  intros Hm Hio. rewrite connection_task_some. cbv zeta.
  unfold request_handler. rewrite Hm.
  set (m := nth 0 _ []). set (p := nth 1 _ []).
  destruct (log_spec 2 (lit "Received request: " ++ m ++ [32] ++ p) s) as (t0 & E0 & Q0).
  destruct (log_spec 2 (lit "Invalid method `" ++ m ++ lit "`") s) as (t1 & E1 & Q1).
  unfold panic_on_err. rewrite (bind_ret _ _ _ _ _ _ E0). unfold owning.
  rewrite (bind_ret _ _ _ _ _ _ E1), (end_ok c [] s Hio).
  split; [reflexivity|]. split; [reflexivity|].
  exists (t0 ++ t1). split.
  - unfold only_logs in *. rewrite forallb_app, Q0, Q1. reflexivity.
  - rewrite <- !app_assoc. reflexivity.
Qed.

Lemma invalid_method_answer_witness :
  let s := mkSt 0 ∅ 0 [] [] in
  (let '(s', t, o) := connection_task 0%nat (Some (lit "get /x HTTP/1.1")) s in
   s' = s /\ task_end o = Finished
   /\ exists t0, only_logs t0 = true
        /\ t = t0 ++ [AWrite 0%nat [48; 13; 10; 13; 10; 48; 13; 10; 13; 10]; AFlush 0%nat; AClose 0%nat]) /\
  is_standard_method (nth 0 (split_whitespace (from_utf8_lossy (read_buffer []))) []) = false.
Proof.
  intros s. destruct (invalid_method_answer s 0%nat (lit "get /x HTTP/1.1")) as [Ha Hb].
  split; [apply Ha; [vm_compute | ]; reflexivity | exact Hb].
Defined.

(* ================================================================== *)
(** * A request and its completion *)




(** An object body of [http.end] goes out as its JSON text, which parses
    back to the same object when it nests less than 128 levels deep and
    each float in it is read back as itself. *)
Theorem http_end_object_body s id st h o c :
  registry s !! as_usize id = Some c -> io s = [] ->
  wf_value_with float_survives (VObject o) = true -> (vdepth (VObject o) < 128)%nat ->
  let '(_, t, _) :=
    receive_task (command "http.end" (VArray [VNumber id; VNumber st; VObject h; VObject o])) s in
  exists js, In (AWrite c (encode_utf8 (chunk_text js))) t /\ from_str js = Ok (VObject o).
Proof.
  intros Hc Hio Hwf Hd.
  destruct (receive_task_http_end_ok id st h (VObject o) s c Hc Hio) as (pre & _ & E).
  rewrite E. exists (to_string (VObject o)). split.
  - apply in_app_iff. right. right. right. left. reflexivity.
  - apply from_str_to_string_survives; assumption.
Qed.

Lemma http_end_object_body_witness :
  let s := mkSt 1 {[0 := 0%nat]} 0 [] [] in
  let '(_, t, _) :=
    receive_task (command "http.end"
                    (VArray [VNumber 0; VNumber 200; VObject [];
                             VObject [(lit "a", VFloat (S754_finite false 4503599627370496 (-53)))]])) s in
  exists js, In (AWrite 0%nat (encode_utf8 (chunk_text js))) t
             /\ from_str js = Ok (VObject [(lit "a", VFloat (S754_finite false 4503599627370496 (-53)))]).
Proof.
  intros s.
  exact (http_end_object_body s 0 200 [] [(lit "a", VFloat (S754_finite false 4503599627370496 (-53)))]
           0%nat eq_refl eq_refl ltac:(vm_compute; reflexivity) ltac:(cbn; lia)).
Defined.

(* ================================================================== *)
(** * The url of a request that ends at its path *)

Lemma split_ws_word cur l :
  l <> [] -> forallb (fun b => negb (is_whitespace b)) l = true -> split_ws_aux cur l = [rev cur ++ l].
Proof.
  revert cur. induction l as [|b l IH]; intros cur Hne Hl; [contradiction|].
  cbn [forallb] in Hl. apply andb_prop in Hl as [Hb Hl]. apply negb_true_iff in Hb.
  rewrite split_ws_nonws by exact Hb. destruct l as [|b' l'].
  - reflexivity.
  - rewrite IH by (discriminate || exact Hl). cbn [rev]. rewrite <- app_assoc. reflexivity.
Qed.


Lemma forallb_ascii_word p :
  forallb (fun b => (b <? 128) && negb (is_whitespace b)) p = true ->
  forallb (fun b => b <? 128) p = true /\ forallb (fun b => negb (is_whitespace b)) p = true.
Proof.
  induction p as [|b p IH]; [split; reflexivity|]. cbn [forallb]. intros H.
  apply andb_prop in H as [Hb Hp]. apply andb_prop in Hb as [Hb1 Hb2].
  rewrite Hb1, Hb2. exact (IH Hp).
Qed.

(** A request whose bytes stop right after the path ([GET ] and an ASCII
    path without whitespace, nothing after it) reports, once the guest
    is initialized, as url the path followed by the NULs of the rest of
    the 512-byte read buffer. *)
Theorem request_url_nul_padding s c p :
  forallb (fun b => (b <? 128) && negb (is_whitespace b)) p = true -> (length p <= 508)%nat ->
  let '(_, t, _) := connection_task c (Some (lit "GET " ++ p)) s in
  events t = (if wasm_ready s
              then [(lit "http.request", request_data (lit "GET") (p ++ repeat 0 (508 - length p)) (next_id s))]
              else []).
Proof.
  intros Hp Hlen.
  set (u := p ++ repeat 0 (508 - length p)).
  assert (Hbuf : read_buffer (lit "GET " ++ p) = lit "GET " ++ u).
  { unfold read_buffer. rewrite firstn_all2 by (rewrite length_app; cbn; lia).
    rewrite length_app. change (length (lit "GET ")) with 4%nat. subst u.
    replace (512 - (4 + length p))%nat with (508 - length p)%nat by lia.
    rewrite <- app_assoc. reflexivity. }
  assert (Hascii : forallb (fun b => b <? 128) u = true /\
                   forallb (fun b => negb (is_whitespace b)) u = true).
  { destruct (forallb_ascii_word p Hp) as [H1 H2]. subst u.
    rewrite !forallb_app, !forallb_repeat, H1, H2 by reflexivity. split; reflexivity. }
  assert (Hne : u <> []).
  { intros E. apply (f_equal (@length Z)) in E. subst u. rewrite length_app, repeat_length in E.
    cbn in E. lia. }
  assert (Hsplit : split_whitespace (from_utf8_lossy (read_buffer (lit "GET " ++ p)))
                   = [lit "GET"; u]).
  { rewrite Hbuf. rewrite <- (app_nil_r (lit "GET " ++ u)).
    rewrite lossy_ascii_app by (rewrite forallb_app, (proj1 Hascii); reflexivity).
    change (from_utf8_lossy []) with (@nil Z). rewrite app_nil_r.
    change (lit "GET " ++ u) with (71 :: 69 :: 84 :: 32 :: u). unfold split_whitespace.
    rewrite !split_ws_nonws by reflexivity. rewrite split_ws_ws by reflexivity.
    rewrite split_ws_word by (exact Hne || exact (proj2 Hascii)). reflexivity. }
  rewrite connection_task_some. cbv zeta. rewrite Hsplit. cbn [nth].
  pose proof (request_handler_standard (lit "GET") u c s eq_refl) as H.
  unfold panic_on_err. destruct (request_handler _ _ _ s) as [[s' t] o].
  destruct H as (_ & He & _). destruct o; exact He.
Qed.

Lemma request_url_nul_padding_witness :
  let '(_, t, _) := connection_task 0%nat (Some (lit "GET " ++ lit "/x")) (mkSt 0 ∅ 0 [] []) in
  events t = (if wasm_ready (mkSt 0 ∅ 0 [] [])
              then [(lit "http.request",
                     request_data (lit "GET") (lit "/x" ++ repeat 0 (508 - length (lit "/x")))
                       (next_id (mkSt 0 ∅ 0 [] [])))]
              else []).
Proof. apply (request_url_nul_padding (mkSt 0 ∅ 0 [] []) 0%nat (lit "/x")); [reflexivity | cbn; lia]. Defined.
